(** * Geocoin Carrier: cache generation, mementos and persistence

    A shallow embedding of [src/main.ts].  The game keeps a registry of
    cache mementos ([caches]), a registry of on-map rectangles
    ([cacheMarkers]), the player's inventory, location and movement
    history, and three records in the browser's [localStorage].

    Modelling decisions, all of them visible in the definitions below:
    - a JavaScript [number] is an exact rational ([Q]); cell indices and
      coin serials, which the program only ever produces with
      [Math.floor] and integer increments, are integers ([Z]);
    - a JavaScript string is a [string] of bytes;
    - a [Map] is an association list in insertion order, because
      [saveCaches] writes the entries in that order;
    - a coin object is never mutated, so a reference to it is its
      identity [oid] together with its fields; [indexOf] compares
      references;
    - a cache object is mutated by [collect] and [deposit] while the
      popup closure of its rectangle keeps pointing at it, so cache
      objects live in a store ([cacheObjs]) and are named by address;
    - [JSON.stringify] and [JSON.parse] are a printer and a
      recursive-descent parser over byte strings;
    - an exception is an outcome [Thrown] that carries the state reached
      when it was raised;
    - [luck], the generator of [luck.ts], is a parameter;
    - the leaflet map view, the player marker, the popups and the status
      panel are display only and are left out; what is kept of leaflet
      is the set of rectangles on the map and the cache object each
      popup is bound to. *)

From Stdlib Require Import ZArith QArith Qround Qcanon List String Ascii Bool Lia.
Import ListNotations.

Local Open Scope list_scope.
Local Open Scope string_scope.
Local Open Scope Z_scope.

(** ** Decimal numerals *)

Module Numeral.

Definition digitChar (d : N) : ascii := ascii_of_N (48 + d).

Definition digitValue (c : ascii) : option N :=
  let n := N_of_ascii c in
  if ((48 <=? n) && (n <=? 57))%N then Some (n - 48)%N else None.

Definition isDigit (c : ascii) : bool :=
  match digitValue c with Some _ => true | None => false end.

(** Digits of [n], most significant first, in front of [acc]. *)
Fixpoint digitsOfN (fuel : nat) (n : N) (acc : string) : string :=
  match fuel with
  | O => acc
  | S f =>
      let acc' := String (digitChar (n mod 10)) acc in
      if (n / 10 =? 0)%N then acc' else digitsOfN f (n / 10) acc'
  end.

Definition stringOfN (n : N) : string :=
  digitsOfN (S (N.to_nat (N.log2 n))) n EmptyString.

(** [Number.prototype.toString] on an integer (below 1e21 in absolute
    value, where JavaScript switches to exponent notation). *)
Definition stringOfZ (z : Z) : string :=
  match z with
  | Z0 => "0"
  | Zpos p => stringOfN (Npos p)
  | Zneg p => "-" ++ stringOfN (Npos p)
  end.

(** Reads a maximal run of digits: the accumulated value, the number of
    digits read, and the rest of the input. *)
Fixpoint scanDigits (s : string) (acc : N) (cnt : nat) : N * nat * string :=
  match s with
  | EmptyString => (acc, cnt, s)
  | String c s' =>
      match digitValue c with
      | Some d => scanDigits s' (acc * 10 + d)%N (S cnt)
      | None => (acc, cnt, s)
      end
  end.

(** The first character of [s] cannot continue a number. *)
Definition endsNumber (s : string) : bool :=
  match s with
  | EmptyString => true
  | String c _ =>
      negb (isDigit c || Ascii.eqb c "." || Ascii.eqb c "e" || Ascii.eqb c "E")
  end.

End Numeral.

Import Numeral.

(** ** JSON: values, [JSON.stringify], [JSON.parse] *)

Module Json.

#[local] Unset Elimination Schemes.
Inductive json : Type :=
| JNull
| JBool (b : bool)
| JNum (q : Q)
| JStr (s : string)
| JArr (vs : list json)
| JObj (ms : list (string * json)).
#[local] Set Elimination Schemes.

Definition DQ : ascii := "034"%char.
Definition BS : ascii := "\"%char.

(** *** Printing *)

Definition hexChar (d : N) : ascii :=
  if (d <? 10)%N then ascii_of_N (48 + d) else ascii_of_N (87 + d).

(** [QuoteJSONString]: the escapes [JSON.stringify] emits. *)
Definition escapeChar (c : ascii) : string :=
  let n := N_of_ascii c in
  if Ascii.eqb c DQ then String BS (String DQ EmptyString)
  else if Ascii.eqb c BS then String BS (String BS EmptyString)
  else if (n =? 8)%N then String BS "b"
  else if (n =? 12)%N then String BS "f"
  else if (n =? 10)%N then String BS "n"
  else if (n =? 13)%N then String BS "r"
  else if (n =? 9)%N then String BS "t"
  else if (n <? 32)%N then
    String BS (String "u" (String "0" (String "0"
      (String (hexChar (n / 16)) (String (hexChar (n mod 16)) EmptyString)))))
  else String c EmptyString.

Fixpoint escapeString (s : string) : string :=
  match s with
  | EmptyString => EmptyString
  | String c s' => escapeChar c ++ escapeString s'
  end.

Definition quote (s : string) : string :=
  String DQ (escapeString s ++ String DQ EmptyString).

(** Decimal places of [r / d] for [r < d], at most [fuel] of them. *)
Fixpoint fracDigits (fuel : nat) (r d : N) : string :=
  match fuel with
  | O => EmptyString
  | S f =>
      if (r =? 0)%N then EmptyString
      else String (digitChar (r * 10 / d)) (fracDigits f (r * 10 mod d) d)
  end.

(** [Number::toString].  An integer prints as its decimal numeral.  A
    fraction prints as its decimal expansion cut after twenty places,
    which stands for the shortest-round-trip digits of the engine; no
    property below reads the digits of a fraction. *)
Definition stringOfNumber (q : Q) : string :=
  match Qred q with
  | Qmake n 1 => stringOfZ n
  | Qmake n d =>
      let a := Z.abs_N n in
      (if (n <? 0)%Z then "-" else EmptyString)
        ++ stringOfN (a / Npos d) ++ "." ++ fracDigits 20 (a mod Npos d) (Npos d)
  end.

Fixpoint JSON_stringify (v : json) : string :=
  match v with
  | JNull => "null"
  | JBool true => "true"
  | JBool false => "false"
  | JNum q => stringOfNumber q
  | JStr s => quote s
  | JArr [] => "[]"
  | JArr (v :: vs) =>
      "[" ++ JSON_stringify v ++
      (fix more (ws : list json) : string :=
         match ws with
         | [] => "]"
         | w :: ws' => "," ++ JSON_stringify w ++ more ws'
         end) vs
  | JObj [] => "{}"
  | JObj ((k, v) :: ms) =>
      "{" ++ quote k ++ ":" ++ JSON_stringify v ++
      (fix more (ws : list (string * json)) : string :=
         match ws with
         | [] => "}"
         | (k', w) :: ws' => "," ++ quote k' ++ ":" ++ JSON_stringify w ++ more ws'
         end) ms
  end.

(** *** Parsing *)

Definition isWs (c : ascii) : bool :=
  let n := N_of_ascii c in
  ((n =? 32) || (n =? 9) || (n =? 10) || (n =? 13))%N.

Fixpoint skipWs (s : string) : string :=
  match s with
  | String c s' => if isWs c then skipWs s' else s
  | EmptyString => s
  end.

Definition hexValue (c : ascii) : option N :=
  let n := N_of_ascii c in
  if ((48 <=? n) && (n <=? 57))%N then Some (n - 48)%N
  else if ((97 <=? n) && (n <=? 102))%N then Some (n - 87)%N
  else if ((65 <=? n) && (n <=? 70))%N then Some (n - 55)%N
  else None.

Definition unescape (c : ascii) : option ascii :=
  if Ascii.eqb c DQ then Some DQ
  else if Ascii.eqb c BS then Some BS
  else if Ascii.eqb c "/" then Some "/"%char
  else if Ascii.eqb c "b" then Some (ascii_of_N 8)
  else if Ascii.eqb c "f" then Some (ascii_of_N 12)
  else if Ascii.eqb c "n" then Some (ascii_of_N 10)
  else if Ascii.eqb c "r" then Some (ascii_of_N 13)
  else if Ascii.eqb c "t" then Some (ascii_of_N 9)
  else None.

Definition consChar (c : ascii) (r : option (string * string)) :
  option (string * string) :=
  match r with
  | Some (t, rest) => Some (String c t, rest)
  | None => None
  end.

(** The body of a string literal, after its opening quote: the decoded
    text and what follows the closing quote.  A [\u] escape above 00ff
    has no byte to stand for it and is refused. *)
Fixpoint scanString (s : string) : option (string * string) :=
  match s with
  | EmptyString => None
  | String c s' =>
      if Ascii.eqb c DQ then Some (EmptyString, s')
      else if Ascii.eqb c BS then
        match s' with
        | EmptyString => None
        | String e s'' =>
            match unescape e with
            | Some ch => consChar ch (scanString s'')
            | None =>
                if Ascii.eqb e "u" then
                  match s'' with
                  | String h1 (String h2 (String h3 (String h4 s5))) =>
                      match hexValue h1, hexValue h2, hexValue h3, hexValue h4 with
                      | Some 0%N, Some 0%N, Some a, Some b =>
                          consChar (ascii_of_N (a * 16 + b)) (scanString s5)
                      | _, _, _, _ => None
                      end
                  | _ => None
                  end
                else None
            end
        end
      else if (N_of_ascii c <? 32)%N then None
      else consChar c (scanString s')
  end.

(** The value [(-1)^neg * m * 10^e]. *)
Definition mkNumber (neg : bool) (m : N) (e : Z) : Q :=
  let z := if neg then - Z.of_N m else Z.of_N m in
  if 0 <=? e then inject_Z (z * 10 ^ e)
  else Qred (Qmake z (Z.to_pos (10 ^ (- e)))).

Definition scanFraction (s : string) : option (N * nat * string) :=
  match s with
  | String c r =>
      if Ascii.eqb c "." then
        match scanDigits r 0 0 with
        | (_, O, _) => None
        | res => Some res
        end
      else Some (0%N, O, s)
  | EmptyString => Some (0%N, O, s)
  end.

Definition scanExponent (s : string) : option (Z * string) :=
  match s with
  | String c r =>
      if Ascii.eqb c "e" || Ascii.eqb c "E" then
        let '(neg, r') :=
          match r with
          | String sg r1 =>
              if Ascii.eqb sg "-" then (true, r1)
              else if Ascii.eqb sg "+" then (false, r1)
              else (false, r)
          | EmptyString => (false, r)
          end in
        match scanDigits r' 0 0 with
        | (_, O, _) => None
        | (x, _, rest) => Some (if neg then - Z.of_N x else Z.of_N x, rest)
        end
      else Some (0, s)
  | EmptyString => Some (0, s)
  end.

(** A JSON number: an optional minus sign, an integer part that is
    either 0 or starts with a non-zero digit, an optional fraction and
    an optional exponent. *)
Definition parseNumber (s : string) : option (Q * string) :=
  let '(neg, s1) :=
    match s with
    | String c r => if Ascii.eqb c "-" then (true, r) else (false, s)
    | EmptyString => (false, s)
    end in
  match s1 with
  | EmptyString => None
  | String c r =>
      match digitValue c with
      | None => None
      | Some d =>
          let '(ip, _, s2) :=
            if (d =? 0)%N then (0%N, 1%nat, r) else scanDigits r d 1 in
          match scanFraction s2 with
          | None => None
          | Some (fp, fcnt, s3) =>
              match scanExponent s3 with
              | None => None
              | Some (ex, s4) =>
                  Some (mkNumber neg (ip * 10 ^ N.of_nat fcnt + fp)
                          (ex - Z.of_nat fcnt), s4)
              end
          end
      end
  end.

(** [s] without its prefix [w]. *)
Fixpoint stripPrefix (w s : string) : option string :=
  match w with
  | EmptyString => Some s
  | String a w' =>
      match s with
      | String b s' => if Ascii.eqb a b then stripPrefix w' s' else None
      | EmptyString => None
      end
  end.

Definition expectWord (w : string) (v : json) (s : string) :
  option (json * string) :=
  match stripPrefix w s with
  | Some r => Some (v, r)
  | None => None
  end.

Fixpoint parseValue (fuel : nat) (s : string) {struct fuel} :
  option (json * string) :=
  match fuel with
  | O => None
  | S f =>
      match skipWs s with
      | EmptyString => None
      | String c r =>
          if Ascii.eqb c "{" then
            match skipWs r with
            | EmptyString => None
            | String c' r' =>
                if Ascii.eqb c' "}" then Some (JObj [], r')
                else match parseMembers f (String c' r') with
                     | Some (ms, r'') => Some (JObj ms, r'')
                     | None => None
                     end
            end
          else if Ascii.eqb c "[" then
            match skipWs r with
            | EmptyString => None
            | String c' r' =>
                if Ascii.eqb c' "]" then Some (JArr [], r')
                else match parseElements f (String c' r') with
                     | Some (vs, r'') => Some (JArr vs, r'')
                     | None => None
                     end
            end
          else if Ascii.eqb c DQ then
            match scanString r with
            | Some (t, r') => Some (JStr t, r')
            | None => None
            end
          else if Ascii.eqb c "t" then expectWord "true" (JBool true) (String c r)
          else if Ascii.eqb c "f" then expectWord "false" (JBool false) (String c r)
          else if Ascii.eqb c "n" then expectWord "null" JNull (String c r)
          else
            match parseNumber (String c r) with
            | Some (q, r') => Some (JNum q, r')
            | None => None
            end
      end
  end

with parseElements (fuel : nat) (s : string) {struct fuel} :
  option (list json * string) :=
  match fuel with
  | O => None
  | S f =>
      match parseValue f s with
      | None => None
      | Some (v, r) =>
          match skipWs r with
          | EmptyString => None
          | String c r' =>
              if Ascii.eqb c "," then
                match parseElements f r' with
                | Some (vs, r'') => Some (v :: vs, r'')
                | None => None
                end
              else if Ascii.eqb c "]" then Some ([v], r')
              else None
          end
      end
  end

with parseMembers (fuel : nat) (s : string) {struct fuel} :
  option (list (string * json) * string) :=
  match fuel with
  | O => None
  | S f =>
      match skipWs s with
      | EmptyString => None
      | String q r =>
          if Ascii.eqb q DQ then
            match scanString r with
            | None => None
            | Some (k, r1) =>
                match skipWs r1 with
                | EmptyString => None
                | String col r2 =>
                    if Ascii.eqb col ":" then
                      match parseValue f r2 with
                      | None => None
                      | Some (v, r3) =>
                          match skipWs r3 with
                          | EmptyString => None
                          | String c r4 =>
                              if Ascii.eqb c "," then
                                match parseMembers f r4 with
                                | Some (ms, r5) => Some ((k, v) :: ms, r5)
                                | None => None
                                end
                              else if Ascii.eqb c "}" then Some ([(k, v)], r4)
                              else None
                          end
                      end
                    else None
                end
            end
          else None
      end
  end.

(** [JSON.parse]: [None] is the [SyntaxError] it throws. *)
Definition JSON_parse (s : string) : option json :=
  match parseValue (S (String.length s)) s with
  | Some (v, rest) =>
      match skipWs rest with
      | EmptyString => Some v
      | String _ _ => None
      end
  | None => None
  end.

End Json.

Import Json.

(** ** JavaScript [Map] and [Array] helpers *)

Module JsMap.
Section Ops.
Context {V : Type}.

(** Entries in insertion order. *)
Definition t : Type := list (string * V).

Fixpoint get (k : string) (m : t) : option V :=
  match m with
  | [] => None
  | (k', v) :: m' => if String.eqb k k' then Some v else get k m'
  end.

Definition has (k : string) (m : t) : bool :=
  match get k m with Some _ => true | None => false end.

(** [set] keeps the position of a key that is already there and puts a
    new key last. *)
Fixpoint set (k : string) (v : V) (m : t) : t :=
  match m with
  | [] => [(k, v)]
  | (k', v') :: m' =>
      if String.eqb k k' then (k', v) :: m' else (k', v') :: set k v m'
  end.

Fixpoint delete (k : string) (m : t) : t :=
  match m with
  | [] => []
  | (k', v') :: m' =>
      if String.eqb k k' then m' else (k', v') :: delete k m'
  end.

Definition keys (m : t) : list string := map fst m.

End Ops.
Arguments t : clear implicits.
End JsMap.

(** ** Data model: the interfaces of [main.ts] *)

Module Cell.
Record t : Type := mk { i : Z; j : Z }.
Definition eqb (a b : t) : bool := (i a =? i b) && (j a =? j b).
End Cell.

Module Coin.
(** [oid] is the identity of the coin object. *)
Record t : Type := mk { oid : nat; cell : Cell.t; serial : Z }.

(** The [===] of two coin references: the same object.  A coin is never
    mutated, so the same object has the same fields. *)
Definition same (a b : t) : bool :=
  Nat.eqb (oid a) (oid b) && Cell.eqb (cell a) (cell b) && (serial a =? serial b).

(** The fields of a coin, without its identity. *)
Definition fields (a : t) : Cell.t * Z := (cell a, serial a).
End Coin.

Module Cache.
Record t : Type := mk { cell : Cell.t; coins : list Coin.t }.
End Cache.

Module LatLng.
Record t : Type := mk { lat : Q; lng : Q }.
End LatLng.

Module Rectangle.
(** A leaflet rectangle: its identity, its bounds, and the cache object
    that the closure given to [bindPopup] captured (an address in the
    store of cache objects). *)
Record t : Type := mk {
  rid : nat;
  southWest : LatLng.t;
  northEast : LatLng.t;
  popupCache : nat
}.
End Rectangle.

(** Structural equality of caches: the same fields, field for field,
    whatever the identities of the coin objects. *)
Definition structEq (a b : Cache.t) : Prop :=
  Cache.cell a = Cache.cell b /\
  map Coin.fields (Cache.coins a) = map Coin.fields (Cache.coins b).

(** [Array.prototype.indexOf] on coin references: -1 when absent. *)
Fixpoint indexOfFrom (coin : Coin.t) (l : list Coin.t) (k : Z) : Z :=
  match l with
  | [] => -1
  | x :: l' => if Coin.same x coin then k else indexOfFrom coin l' (k + 1)
  end.

Definition indexOf (coin : Coin.t) (l : list Coin.t) : Z :=
  indexOfFrom coin l 0.

(** [l.splice(index, 1)] for an index inside [l]. *)
Definition splice1 {A : Type} (l : list A) (index : Z) : list A :=
  (firstn (Z.to_nat index) l ++ skipn (S (Z.to_nat index)) l)%list.

(** A [for (let k = a; k < b; k++)] loop visits these values. *)
Definition range (a b : Z) : list Z :=
  map (fun k => a + Z.of_nat k) (seq 0 (Z.to_nat (b - a))).

(** [a < b] on numbers. *)
Definition Qltb (a b : Q) : bool := negb (Qle_bool b a).

(** JavaScript truthiness of what [Map.get] and [getItem] give back:
    [undefined], [null] and the empty string are falsy. *)
Definition truthy (x : option string) : bool :=
  match x with
  | None => false
  | Some EmptyString => false
  | Some (String _ _) => true
  end.

(** ** Tunable gameplay parameters *)

Definition initialPlayerLocation : LatLng.t :=
  LatLng.mk (3698949379578401 # 100000000000000)
            (-12206277128548504 # 100000000000000).
Definition TILE_DEGREES : Q := 1 # 10000.
Definition NEIGHBORHOOD_SIZE : Z := 8.
Definition CACHE_SPAWN_PROBABILITY : Q := 1 # 10.

(** ** The game state *)

Record Game : Type := mkGame {
  playerLocation : LatLng.t;
  playerInventory : list Coin.t;
  playerMovementHistory : list LatLng.t;
  caches : JsMap.t string;
  cacheMarkers : JsMap.t Rectangle.t;
  (** rectangles currently added to the leaflet map *)
  mapLayers : list Rectangle.t;
  (** the cache objects alive in the heap, by address *)
  cacheObjs : list Cache.t;
  (** the next fresh coin identity and rectangle identity *)
  nextOid : nat;
  nextRid : nat;
  localStorage : JsMap.t string
}.

Definition setPlayerLocation (x : LatLng.t) (g : Game) : Game :=
  mkGame x (playerInventory g) (playerMovementHistory g) (caches g)
    (cacheMarkers g) (mapLayers g) (cacheObjs g) (nextOid g) (nextRid g)
    (localStorage g).
Definition setPlayerInventory (x : list Coin.t) (g : Game) : Game :=
  mkGame (playerLocation g) x (playerMovementHistory g) (caches g)
    (cacheMarkers g) (mapLayers g) (cacheObjs g) (nextOid g) (nextRid g)
    (localStorage g).
Definition setPlayerMovementHistory (x : list LatLng.t) (g : Game) : Game :=
  mkGame (playerLocation g) (playerInventory g) x (caches g)
    (cacheMarkers g) (mapLayers g) (cacheObjs g) (nextOid g) (nextRid g)
    (localStorage g).
Definition setCaches (x : JsMap.t string) (g : Game) : Game :=
  mkGame (playerLocation g) (playerInventory g) (playerMovementHistory g) x
    (cacheMarkers g) (mapLayers g) (cacheObjs g) (nextOid g) (nextRid g)
    (localStorage g).
Definition setCacheMarkers (x : JsMap.t Rectangle.t) (g : Game) : Game :=
  mkGame (playerLocation g) (playerInventory g) (playerMovementHistory g)
    (caches g) x (mapLayers g) (cacheObjs g) (nextOid g) (nextRid g)
    (localStorage g).
Definition setMapLayers (x : list Rectangle.t) (g : Game) : Game :=
  mkGame (playerLocation g) (playerInventory g) (playerMovementHistory g)
    (caches g) (cacheMarkers g) x (cacheObjs g) (nextOid g) (nextRid g)
    (localStorage g).
Definition setCacheObjs (x : list Cache.t) (g : Game) : Game :=
  mkGame (playerLocation g) (playerInventory g) (playerMovementHistory g)
    (caches g) (cacheMarkers g) (mapLayers g) x (nextOid g) (nextRid g)
    (localStorage g).
Definition setNextOid (x : nat) (g : Game) : Game :=
  mkGame (playerLocation g) (playerInventory g) (playerMovementHistory g)
    (caches g) (cacheMarkers g) (mapLayers g) (cacheObjs g) x (nextRid g)
    (localStorage g).
Definition setNextRid (x : nat) (g : Game) : Game :=
  mkGame (playerLocation g) (playerInventory g) (playerMovementHistory g)
    (caches g) (cacheMarkers g) (mapLayers g) (cacheObjs g) (nextOid g) x
    (localStorage g).
Definition setLocalStorage (x : JsMap.t string) (g : Game) : Game :=
  mkGame (playerLocation g) (playerInventory g) (playerMovementHistory g)
    (caches g) (cacheMarkers g) (mapLayers g) (cacheObjs g) (nextOid g)
    (nextRid g) x.

(** The state of the module before [initGame] runs: empty maps, the
    player at the initial location, whatever the browser has stored. *)
Definition moduleStart (storage : JsMap.t string) : Game :=
  mkGame initialPlayerLocation [] [] [] [] [] [] 0 0 storage.

(** ** Computations that may throw *)

Inductive Exn : Type :=
| SyntaxError   (** thrown by [JSON.parse] *)
| TypeError     (** a property read on [undefined], a call of a non-function *)
| IllTyped.     (** valid JSON that is not of the declared interface: the
                    typed model stops where JavaScript would go on with an
                    ill-typed value *)

Inductive Outcome (A : Type) : Type :=
| Returned (a : A) (g : Game)
| Thrown (e : Exn) (g : Game).
Arguments Returned {A} a g.
Arguments Thrown {A} e g.

Definition M (A : Type) : Type := Game -> Outcome A.

Definition ret {A : Type} (a : A) : M A := fun g => Returned a g.

Definition bind {A B : Type} (m : M A) (k : A -> M B) : M B :=
  fun g =>
    match m g with
    | Returned a g' => k a g'
    | Thrown e g' => Thrown e g'
    end.

Definition throw {A : Type} (e : Exn) : M A := fun g => Thrown e g.
Definition gets {A : Type} (f : Game -> A) : M A := fun g => Returned (f g) g.
Definition modify (f : Game -> Game) : M unit := fun g => Returned tt (f g).

Declare Scope game_scope.
Delimit Scope game_scope with game.
Notation "x <- m ;; k" := (bind m (fun x => k))
  (at level 61, m at next level, right associativity) : game_scope.
Notation "m ;; k" := (bind m (fun _ => k))
  (at level 61, right associativity) : game_scope.
Local Open Scope game_scope.

(** [for (const x of l) body(x)] and [l.forEach(body)]. *)
Fixpoint forEach {A : Type} (l : list A) (body : A -> M unit) : M unit :=
  match l with
  | [] => ret tt
  | x :: l' => body x ;; forEach l' body
  end.

(** The state an outcome ends in. *)
Definition finalState {A : Type} (o : Outcome A) : Game :=
  match o with Returned _ g => g | Thrown _ g => g end.

(** ** The value objects as JSON *)

Definition jsonOfInt (z : Z) : json := JNum (inject_Z z).

Definition jsonOfCell (c : Cell.t) : json :=
  JObj [("i", jsonOfInt (Cell.i c)); ("j", jsonOfInt (Cell.j c))].

Definition jsonOfCoin (c : Coin.t) : json :=
  JObj [("cell", jsonOfCell (Coin.cell c)); ("serial", jsonOfInt (Coin.serial c))].

Definition jsonOfCache (c : Cache.t) : json :=
  JObj [("cell", jsonOfCell (Cache.cell c));
        ("coins", JArr (map jsonOfCoin (Cache.coins c)))].

Definition jsonOfLatLng (p : LatLng.t) : json :=
  JObj [("lat", JNum (LatLng.lat p)); ("lng", JNum (LatLng.lng p))].

(** Reading a parsed value at the declared interface.  The shape must be
    the one the program writes (the same keys in the same order),
    otherwise the value is not of the interface. *)
Definition intOfJson (v : json) : option Z :=
  match v with
  | JNum q => if Pos.eqb (Qden q) 1 then Some (Qnum q) else None
  | _ => None
  end.

Definition cellOfJson (v : json) : option Cell.t :=
  match v with
  | JObj [(k1, a); (k2, b)] =>
      if String.eqb k1 "i" && String.eqb k2 "j" then
        match intOfJson a, intOfJson b with
        | Some x, Some y => Some (Cell.mk x y)
        | _, _ => None
        end
      else None
  | _ => None
  end.

(** [oid] is the identity of the object that [JSON.parse] allocates. *)
Definition coinOfJson (oid : nat) (v : json) : option Coin.t :=
  match v with
  | JObj [(k1, a); (k2, b)] =>
      if String.eqb k1 "cell" && String.eqb k2 "serial" then
        match cellOfJson a, intOfJson b with
        | Some c, Some n => Some (Coin.mk oid c n)
        | _, _ => None
        end
      else None
  | _ => None
  end.

Fixpoint coinsOfJson (oid : nat) (vs : list json) : option (list Coin.t) :=
  match vs with
  | [] => Some []
  | v :: vs' =>
      match coinOfJson oid v, coinsOfJson (S oid) vs' with
      | Some c, Some cs => Some (c :: cs)
      | _, _ => None
      end
  end.

Definition cacheOfJson (oid : nat) (v : json) : option Cache.t :=
  match v with
  | JObj [(k1, a); (k2, JArr vs)] =>
      if String.eqb k1 "cell" && String.eqb k2 "coins" then
        match cellOfJson a, coinsOfJson oid vs with
        | Some c, Some cs => Some (Cache.mk c cs)
        | _, _ => None
        end
      else None
  | _ => None
  end.

Definition latLngOfJson (v : json) : option LatLng.t :=
  match v with
  | JObj [(k1, JNum a); (k2, JNum b)] =>
      if String.eqb k1 "lat" && String.eqb k2 "lng"
      then Some (LatLng.mk a b) else None
  | _ => None
  end.

Fixpoint latLngsOfJson (vs : list json) : option (list LatLng.t) :=
  match vs with
  | [] => Some []
  | v :: vs' =>
      match latLngOfJson v, latLngsOfJson vs' with
      | Some p, Some ps => Some (p :: ps)
      | _, _ => None
      end
  end.

(** ** The functions of [main.ts] *)

(** String representation of a cell: [[cell.i, cell.j].toString()]. *)
Definition cellToString (cell : Cell.t) : string :=
  stringOfZ (Cell.i cell) ++ "," ++ stringOfZ (Cell.j cell).

(** Save the state of a cache. *)
Definition toMomento (cache : Cache.t) : string :=
  JSON_stringify (jsonOfCache cache).

(** Restore the state of a cache: [JSON.parse] builds new objects. *)
Definition fromMomento (momento : string) : M Cache.t :=
  fun g =>
    match JSON_parse momento with
    | None => Thrown SyntaxError g
    | Some v =>
        match cacheOfJson (nextOid g) v with
        | None => Thrown IllTyped g
        | Some cache =>
            Returned cache
              (setNextOid (nextOid g + List.length (Cache.coins cache)) g)
        end
    end.

(** Get the surrounding cells of a given coordinate. *)
Definition getVisibleCells (coord : LatLng.t) : list Cell.t :=
  let offset_i := Qfloor (LatLng.lat coord / TILE_DEGREES) in
  let offset_j := Qfloor (LatLng.lng coord / TILE_DEGREES) in
  flat_map
    (fun i =>
       map (fun j => Cell.mk i j)
         (range (offset_j - NEIGHBORHOOD_SIZE) (offset_j + NEIGHBORHOOD_SIZE)))
    (range (offset_i - NEIGHBORHOOD_SIZE) (offset_i + NEIGHBORHOOD_SIZE)).

(** Save cache data to local storage. *)
Definition saveCaches : M unit :=
  modify (fun g =>
    setLocalStorage
      (JsMap.set "caches"
         (JSON_stringify
            (JArr (map (fun e => JArr [JStr (fst e); JStr (snd e)]) (caches g))))
         (localStorage g)) g).

(** Save inventory data to local storage. *)
Definition saveInventory : M unit :=
  modify (fun g =>
    setLocalStorage
      (JsMap.set "inventory"
         (JSON_stringify (JArr (map jsonOfCoin (playerInventory g))))
         (localStorage g)) g).

(** Save player location to local storage. *)
Definition savePlayerLocation : M unit :=
  modify (fun g =>
    setLocalStorage
      (JsMap.set "playerLocation"
         (JSON_stringify (JArr (map jsonOfLatLng (playerMovementHistory g))))
         (localStorage g)) g).

(** Update the status panel with the player's inventory.  The panel is
    DOM; what is left of the function is its last statement. *)
Definition displayInventory : M unit := saveInventory.

Definition textOf (x : option string) : string :=
  match x with Some t => t | None => EmptyString end.

(** Load data from local storage.  The function has three blocks, one
    per record; each is a definition of its own here. *)

(** Load caches from local storage. *)
Definition loadCachesRecord : M unit :=
  cacheData <- gets (fun g => JsMap.get "caches" (localStorage g)) ;;
  if truthy cacheData then
    match JSON_parse (textOf cacheData) with
    | None => throw SyntaxError
    | Some (JArr cacheArray) =>
        forEach cacheArray (fun cache =>
          match cache with
          | JArr (JStr k :: JStr v :: _) =>
              modify (fun g => setCaches (JsMap.set k v (caches g)) g)
          | _ => throw IllTyped
          end)
    | Some _ => throw TypeError
    end
  else ret tt.

(** [playerInventory.push(coin)] for a parsed coin. *)
Definition pushParsedCoin (v : json) : M unit :=
  fun g =>
    match coinOfJson (nextOid g) v with
    | Some coin =>
        Returned tt
          (setPlayerInventory (playerInventory g ++ [coin])%list
             (setNextOid (S (nextOid g)) g))
    | None => Thrown IllTyped g
    end.

(** Load inventory from local storage. *)
Definition loadInventoryRecord : M unit :=
  inventoryData <- gets (fun g => JsMap.get "inventory" (localStorage g)) ;;
  if truthy inventoryData then
    match JSON_parse (textOf inventoryData) with
    | None => throw SyntaxError
    | Some (JArr inventoryArray) => forEach inventoryArray pushParsedCoin
    | Some _ => throw TypeError
    end
  else ret tt.

(** Load player location from local storage.  The history is replaced
    first; reading [.lat] of the last element of an empty array is a
    [TypeError]. *)
Definition loadPlayerLocationRecord : M unit :=
  playerLocationData <- gets (fun g => JsMap.get "playerLocation" (localStorage g)) ;;
  if truthy playerLocationData then
    match JSON_parse (textOf playerLocationData) with
    | None => throw SyntaxError
    | Some (JArr playerLocationArray) =>
        match latLngsOfJson playerLocationArray with
        | None => throw IllTyped
        | Some pts =>
            modify (setPlayerMovementHistory pts) ;;
            match last (map Some pts) None with
            | None => throw TypeError
            | Some p =>
                modify (setPlayerLocation (LatLng.mk (LatLng.lat p) (LatLng.lng p)))
            end
        end
    | Some _ => throw TypeError
    end
  else ret tt.

Definition loadLocalStorage : M unit :=
  loadCachesRecord ;;
  loadInventoryRecord ;;
  loadPlayerLocationRecord.

(** [marker.remove()]: the rectangle leaves the map. *)
Definition removeLayer (marker : Rectangle.t) (g : Game) : Game :=
  setMapLayers
    (filter (fun r => negb (Nat.eqb (Rectangle.rid r) (Rectangle.rid marker)))
       (mapLayers g)) g.

(** Initialize the cache maps. *)
Definition resetCaches : M unit :=
  modify (setCaches []) ;;
  markers <- gets cacheMarkers ;;
  forEach markers (fun e => modify (removeLayer (snd e))) ;;
  modify (setCacheMarkers []).

(** Initialize player data. *)
Definition initializeUI : M unit :=
  modify (setPlayerInventory []) ;;
  modify (setPlayerLocation
            (LatLng.mk (LatLng.lat initialPlayerLocation)
                       (LatLng.lng initialPlayerLocation))).

(** Clear the player's movement history. *)
Definition resetPlayerState (startLocation : LatLng.t) : M unit :=
  modify (setPlayerMovementHistory []) ;;
  modify (fun g =>
    setPlayerMovementHistory (playerMovementHistory g ++ [startLocation])%list g).

(** Load local storage data. *)
Definition loadDataFromLocalStorage : M unit := loadLocalStorage.

(** A new cache object in the heap; its address. *)
Definition newCacheObj (cache : Cache.t) : M nat :=
  fun g =>
    Returned (List.length (cacheObjs g))
      (setCacheObjs (cacheObjs g ++ [cache])%list g).

(** [leaflet.rectangle(bounds)], added to the map, its popup bound to a
    closure over the cache object at [cache]. *)
Definition newRectangle (sw ne : LatLng.t) (cache : nat) : M Rectangle.t :=
  fun g =>
    let rect := Rectangle.mk (nextRid g) sw ne cache in
    Returned rect
      (setMapLayers (mapLayers g ++ [rect])%list (setNextRid (S (nextRid g)) g)).

Section WithLuck.

(** The deterministic random number generator of [luck.ts], which is not
    among the sources: a function from the seed string to a number. *)
Variable luck : string -> Q.

(** The coin count [generateCoins] computes for a cell. *)
Definition numCoins (cell : Cell.t) : Z :=
  Qfloor (luck (cellToString cell ++ ",numCoins") * 3 + 1).

(** Generate coins for a cache: one new coin object per serial, pushed
    onto [cache.coins]. *)
Definition generateCoins (cell : Cell.t) (cache : Cache.t) : M Cache.t :=
  fun g =>
    let n := Z.to_nat (numCoins cell) in
    let added :=
      map (fun k => Coin.mk (nextOid g + k) cell (Z.of_nat k)) (seq 0 n) in
    Returned (Cache.mk (Cache.cell cache) (Cache.coins cache ++ added)%list)
      (setNextOid (nextOid g + n) g).

(** Add caches to the map by cell numbers. *)
Definition spawnCache (cell : Cell.t) : M unit :=
  (* Generate the cache if it doesn't exist *)
  let cellString := cellToString cell in
  entry <- gets (fun g => JsMap.get cellString (caches g)) ;;
  cache <- (if negb (truthy entry) then
              cache <- generateCoins cell (Cache.mk cell []) ;;
              modify (fun g =>
                setCaches (JsMap.set cellString (toMomento cache) (caches g)) g) ;;
              ret cache
            else fromMomento (textOf entry)) ;;
  addr <- newCacheObj cache ;;
  (* Convert cell numbers into lat/lng bounds *)
  let offset_i := (inject_Z (Cell.i cell) * TILE_DEGREES)%Q in
  let offset_j := (inject_Z (Cell.j cell) * TILE_DEGREES)%Q in
  (* Add a rectangle to the map to represent the cache *)
  rect <- newRectangle (LatLng.mk offset_i offset_j)
            (LatLng.mk (offset_i + TILE_DEGREES)%Q (offset_j + TILE_DEGREES)%Q)
            addr ;;
  (* Save the caches to local storage *)
  saveCaches ;;
  (* Save the cache marker *)
  modify (fun g =>
    setCacheMarkers (JsMap.set (cellToString cell) rect (cacheMarkers g)) g).

(** Update the caches on the map. *)
Definition updateCaches : M unit :=
  (* Convert visible cells to a hashable string for comparison *)
  visibleCells <- gets (fun g => getVisibleCells (playerLocation g)) ;;
  let visibleCellsSet := map cellToString visibleCells in
  (* Iterate through the current markers to find which should be despawned *)
  markers <- gets cacheMarkers ;;
  forEach markers (fun e =>
    if negb (existsb (String.eqb (fst e)) visibleCellsSet) then
      modify (removeLayer (snd e)) ;;
      modify (fun g => setCacheMarkers (JsMap.delete (fst e) (cacheMarkers g)) g)
    else ret tt) ;;
  (* Determine which cells are new and should have caches spawned *)
  newCells <- gets (fun g =>
    filter (fun cell =>
              negb (JsMap.has (cellToString cell) (cacheMarkers g)) &&
              Qltb (luck (cellToString cell)) CACHE_SPAWN_PROBABILITY)
      visibleCells) ;;
  (* Spawn new caches *)
  forEach newCells spawnCache.

(** Move the player to a new location; [newPos] is passed as its two
    fields. *)
Definition movePlayer (newPos_i newPos_j : Q) : M unit :=
  (* Update the player's location *)
  modify (setPlayerLocation (LatLng.mk newPos_i newPos_j)) ;;
  (* Update the player's movement history *)
  modify (fun g =>
    setPlayerMovementHistory
      (playerMovementHistory g ++ [LatLng.mk newPos_i newPos_j])%list g) ;;
  savePlayerLocation ;;
  updateCaches.

(** Initialize the game. *)
Definition initGame : M unit :=
  initializeUI ;;
  resetPlayerState initialPlayerLocation ;;
  resetCaches ;;
  loadDataFromLocalStorage ;;
  updateCaches ;;
  displayInventory.

(** The click listener of the reset button; [confirmed] is the answer
    to [confirm("Reset the game?")]. *)
Definition resetClick (confirmed : bool) : M unit :=
  if negb confirmed then ret tt
  else
    modify (setLocalStorage []) ;;
    initGame.

(** The click listeners of the four direction buttons. *)
Definition northClick : M unit :=
  p <- gets playerLocation ;;
  movePlayer (LatLng.lat p + TILE_DEGREES)%Q (LatLng.lng p).
Definition southClick : M unit :=
  p <- gets playerLocation ;;
  movePlayer (LatLng.lat p - TILE_DEGREES)%Q (LatLng.lng p).
Definition westClick : M unit :=
  p <- gets playerLocation ;;
  movePlayer (LatLng.lat p) (LatLng.lng p - TILE_DEGREES)%Q.
Definition eastClick : M unit :=
  p <- gets playerLocation ;;
  movePlayer (LatLng.lat p) (LatLng.lng p + TILE_DEGREES)%Q.

(** The click listener of a [Center to Home Cache] button of the
    inventory panel.  [caches.get(...)!] of a cell with no memento is
    [undefined], on which [JSON.parse] throws; the cache it reads goes
    to a popup that is never shown. *)
Definition centerClick (coin : Coin.t) : M unit :=
  entry <- gets (fun g => JsMap.get (cellToString (Coin.cell coin)) (caches g)) ;;
  match entry with
  | None => throw SyntaxError
  | Some momento =>
      _ <- fromMomento momento ;;
      (* Create the cache marker if it's been despawned *)
      cacheMarker <- gets (fun g =>
        JsMap.get (cellToString (Coin.cell coin)) (cacheMarkers g)) ;;
      match cacheMarker with
      | None => spawnCache (Coin.cell coin)
      | Some _ => ret tt
      end
  end.

End WithLuck.

(** The cache object at an address of the heap.  [collect] and [deposit]
    are only ever called by a popup with the object its closure holds;
    at an address that holds nothing there is no call to model and the
    state is left as it is. *)
Definition withCache (cache : nat) (body : Cache.t -> M unit) : M unit :=
  fun g =>
    match nth_error (cacheObjs g) cache with
    | Some c => body c g
    | None => Returned tt g
    end.

(** An assignment to the fields of the cache object at [cache]. *)
Definition storeCache (cache : nat) (c : Cache.t) : M unit :=
  modify (fun g =>
    setCacheObjs
      (firstn cache (cacheObjs g) ++ c :: skipn (S cache) (cacheObjs g))%list g).

(** Collect a coin from a cache. *)
Definition collect (coin : Coin.t) (cache : nat) : M unit :=
  modify (fun g => setPlayerInventory (playerInventory g ++ [coin])%list g) ;;
  withCache cache (fun c =>
    let index := indexOf coin (Cache.coins c) in
    let c' :=
      if index >? -1
      then Cache.mk (Cache.cell c) (splice1 (Cache.coins c) index)
      else c in
    storeCache cache c' ;;
    modify (fun g =>
      setCaches (JsMap.set (cellToString (Cache.cell c')) (toMomento c') (caches g)) g) ;;
    (* Save the caches to local storage *)
    saveCaches ;;
    displayInventory).

(** Deposit all coins from the player's inventory into a cache: the
    [while] loop pops the inventory from its end until it is empty. *)
Definition deposit (cache : nat) : M unit :=
  withCache cache (fun c =>
    inventory <- gets playerInventory ;;
    let c' := Cache.mk (Cache.cell c) (Cache.coins c ++ rev inventory)%list in
    modify (setPlayerInventory []) ;;
    storeCache cache c' ;;
    modify (fun g =>
      setCaches (JsMap.set (cellToString (Cache.cell c')) (toMomento c') (caches g)) g) ;;
    (* Save the caches to local storage *)
    saveCaches ;;
    displayInventory).

(** ** Notions used in the statements *)

(** What [JSON_stringify] writes after the first element of an array:
    the other elements, each after its comma, and the closing bracket. *)
Fixpoint stringifyElements (ws : list json) : string :=
  match ws with
  | [] => "]"
  | w :: ws' => "," ++ JSON_stringify w ++ stringifyElements ws'
  end.

(** The same for the members of an object. *)
Fixpoint stringifyMembers (ws : list (string * json)) : string :=
  match ws with
  | [] => "}"
  | (k, w) :: ws' => "," ++ quote k ++ ":" ++ JSON_stringify w ++ stringifyMembers ws'
  end.

(** Every number in [v] is an integer. *)
Fixpoint integral (v : json) : Prop :=
  match v with
  | JNum q => Qden q = 1%positive
  | JArr vs => fold_right (fun w acc => integral w /\ acc) True vs
  | JObj ms => fold_right (fun m acc => integral (snd m) /\ acc) True ms
  | _ => True
  end.

(** A bound on the fuel [parseValue] needs for the text of [v]. *)
Fixpoint size (v : json) : nat :=
  match v with
  | JArr vs => S (fold_right (fun w acc => S (size w + acc)) O vs)
  | JObj ms => S (fold_right (fun m acc => S (size (snd m) + acc)) O ms)
  | _ => 1%nat
  end.

(** [JSON.parse] reads the text of [v], followed by anything that ends
    a number, back into [v]. *)
Definition parsesBack (v : json) : Prop :=
  integral v ->
  forall fuel rest,
    (size v <= fuel)%nat -> endsNumber rest = true ->
    parseValue fuel (JSON_stringify v ++ rest) = Some (v, rest).

(** The coins [JSON.parse] builds from the text of [coins]: new objects
    with the same fields. *)
Fixpoint freshCopies (oid : nat) (coins : list Coin.t) : list Coin.t :=
  match coins with
  | [] => []
  | c :: cs => Coin.mk oid (Coin.cell c) (Coin.serial c) :: freshCopies (S oid) cs
  end.

(** A generator for the examples: the seed of the home cell gives 0,
    which passes the spawn test, and every other seed gives one half, so
    that no other cell spawns and a cache has two coins. *)
Definition luckHome (seed : string) : Q :=
  if String.eqb seed "369894,-1220628" then 0 else 1 # 2.

(** The cell of the initial player location. *)
Definition homeCell : Cell.t := Cell.mk 369894 (-1220628).

Local Open Scope list_scope.

(** The number of coins a memento holds. *)
Definition mementoCoins (momento : string) : nat :=
  match JSON_parse momento with
  | Some v =>
      match cacheOfJson 0 v with
      | Some c => List.length (Cache.coins c)
      | None => O
      end
  | None => O
  end.

(** All the coins of the game: those of the caches in the registry and
    those of the inventory. *)
Definition totalCoins (g : Game) : nat :=
  (list_sum (map (fun e => mementoCoins (snd e)) (caches g))
   + List.length (playerInventory g))%nat.

(** A session of the game: the page is opened on empty storage with
    [luckHome], which spawns the cache of the home cell with two coins. *)
Definition startedGame : Game :=
  Eval vm_compute in finalState (initGame luckHome (moduleStart [])).

(** The two coins are collected into the inventory. *)
Definition playingGame : Game :=
  Eval vm_compute in
    finalState
      (collect (Coin.mk 1 homeCell 1) 0
         (finalState (collect (Coin.mk 0 homeCell 0) 0 startedGame))).

(** The rectangle [spawnCache] creates for a cell in state [g]. *)
Definition cacheRectangle (cell : Cell.t) (g : Game) : Rectangle.t :=
  Rectangle.mk (nextRid g)
    (LatLng.mk (inject_Z (Cell.i cell) * TILE_DEGREES)
               (inject_Z (Cell.j cell) * TILE_DEGREES))
    (LatLng.mk (inject_Z (Cell.i cell) * TILE_DEGREES + TILE_DEGREES)
               (inject_Z (Cell.j cell) * TILE_DEGREES + TILE_DEGREES))
    (List.length (cacheObjs g)).

(** The second half of [spawnCache], once it has its cache object: the
    object is in the heap, the rectangle is on the map, the registry is
    saved and the rectangle is registered as the marker of the cell. *)
Definition installed (cell : Cell.t) (cache : Cache.t) (g : Game) : Game :=
  setCacheMarkers
    (JsMap.set (cellToString cell) (cacheRectangle cell g) (cacheMarkers g))
    (setLocalStorage
       (JsMap.set "caches"
          (JSON_stringify
             (JArr (map (fun e => JArr [JStr (fst e); JStr (snd e)]) (caches g))))
          (localStorage g))
       (setMapLayers (mapLayers g ++ [cacheRectangle cell g])
          (setNextRid (S (nextRid g))
             (setCacheObjs (cacheObjs g ++ [cache]) g)))).

(** The cache [generateCoins] fills for a cell, its coin objects being
    numbered from [oid]. *)
Definition generated (luck : string -> Q) (cell : Cell.t) (oid : nat) : Cache.t :=
  Cache.mk cell
    (map (fun k => Coin.mk (oid + k) cell (Z.of_nat k))
       (seq 0 (Z.to_nat (numCoins luck cell)))).

(** The memento of a cell's first spawn: a function of the cell alone. *)
Definition initialMemento (luck : string -> Q) (cell : Cell.t) : string :=
  toMomento (generated luck cell 0).

(** The state after one [spawnCache] of the home cell at module start. *)
Definition spawnedOnce : Game :=
  Eval vm_compute in finalState (spawnCache luckHome homeCell (moduleStart [])).

(** The entries of a map under one key. *)
Definition entriesOf {V : Type} (k : string) (m : JsMap.t V) : list (string * V) :=
  filter (fun e => String.eqb (fst e) k) m.

(** One iteration of the despawn loop of [updateCaches]. *)
Definition despawnStep (visibleCellsSet : list string)
    (e : string * Rectangle.t) : M unit :=
  if negb (existsb (String.eqb (fst e)) visibleCellsSet) then
    modify (removeLayer (snd e)) ;;
    modify (fun g => setCacheMarkers (JsMap.delete (fst e) (cacheMarkers g)) g)
  else ret tt.

(** The state after the despawn loop of [updateCaches]. *)
Definition afterDespawn (g : Game) : Game :=
  finalState
    (forEach (cacheMarkers g)
       (despawnStep (map cellToString (getVisibleCells (playerLocation g)))) g).

(** The cells [updateCaches] spawns from a state. *)
Definition newCellsOf (luck : string -> Q) (g : Game) : list Cell.t :=
  filter (fun cell =>
            negb (JsMap.has (cellToString cell) (cacheMarkers g)) &&
            Qltb (luck (cellToString cell)) CACHE_SPAWN_PROBABILITY)
    (getVisibleCells (playerLocation g)).

(** The cells around the home location that pass the spawn test. *)
Definition homeCaches (luck : string -> Q) : list Cell.t :=
  filter (fun cell => Qltb (luck (cellToString cell)) CACHE_SPAWN_PROBABILITY)
    (getVisibleCells initialPlayerLocation).

(** The text [saveCaches] writes for a registry. *)
Definition cachesRecord (registry : JsMap.t string) : string :=
  JSON_stringify
    (JArr (map (fun e => JArr [JStr (fst e); JStr (snd e)]) registry)).

(** Every entry of the registry is the memento of a cache of the cell
    that its key names. *)
Definition registryOk (g : Game) : Prop :=
  forall k m, In (k, m) (caches g) ->
    exists c, m = toMomento c /\ k = cellToString (Cache.cell c).

(** Every marker is bound to a cache object of the cell that its key
    names, and the registry holds the memento of that object. *)
Definition synced (g : Game) : Prop :=
  NoDup (JsMap.keys (cacheMarkers g)) /\
  forall k r, In (k, r) (cacheMarkers g) ->
    exists c,
      nth_error (cacheObjs g) (Rectangle.popupCache r) = Some c /\
      k = cellToString (Cache.cell c) /\
      JsMap.get k (caches g) = Some (toMomento c).

(** What the player can do: press a direction button or use the sensor,
    press the collect button of the [n]-th coin in the popup of a
    marker, press the deposit button of that popup, press the button
    that centres the map on the home cache of a coin, press the reset
    button and answer the question it asks. *)
Inductive Event : Type :=
| MoveTo (lat lng : Q)
| CollectAt (key : string) (n : nat)
| DepositAt (key : string)
| CenterOn (coin : Coin.t)
| Reset (confirmed : bool).

(** The cache object that the popup of a marker shows. *)
Definition popupOf (key : string) (g : Game) : option (nat * Cache.t) :=
  match JsMap.get key (cacheMarkers g) with
  | Some r =>
      match nth_error (cacheObjs g) (Rectangle.popupCache r) with
      | Some c => Some (Rectangle.popupCache r, c)
      | None => None
      end
  | None => None
  end.

(** The listener that an event runs; a button that is not there runs
    nothing.  A popup is drawn again from its cache each time it opens
    and after each of its buttons. *)
Definition perform (luck : string -> Q) (e : Event) : M unit :=
  match e with
  | MoveTo lat lng => movePlayer luck lat lng
  | CollectAt key n =>
      fun g =>
        match popupOf key g with
        | Some (a, c) =>
            match nth_error (Cache.coins c) n with
            | Some coin => collect coin a g
            | None => Returned tt g
            end
        | None => Returned tt g
        end
  | DepositAt key =>
      fun g =>
        match popupOf key g with
        | Some (a, _) => deposit a g
        | None => Returned tt g
        end
  | CenterOn coin => centerClick luck coin
  | Reset confirmed => resetClick luck confirmed
  end.

Definition isTransfer (e : Event) : bool :=
  match e with CollectAt _ _ | DepositAt _ => true | _ => false end.

Definition isCenter (e : Event) : bool :=
  match e with CenterOn _ => true | _ => false end.

(** A run of events.  An exception ends the listener that threw it, not
    the page: the next event finds the state as that listener left
    it. *)
Definition session (luck : string -> Q) (es : list Event) (g : Game) : Game :=
  fold_left (fun h e => finalState (perform luck e h)) es g.

(** The JSON value [saveCaches] prints: the entries of the registry as
    pairs. *)
Definition jsonOfEntries (registry : JsMap.t string) : list json :=
  map (fun e => JArr [JStr (fst e); JStr (snd e)]) registry.

(** The registry after [caches.set] of each entry in turn. *)
Definition setAll (entries registry : JsMap.t string) : JsMap.t string :=
  fold_left (fun m e => JsMap.set (fst e) (snd e) m) entries registry.

(** The keys of the cells [updateCaches] finds visible from a state. *)
Definition visibleKeys (g : Game) : list string :=
  map cellToString (getVisibleCells (playerLocation g)).

(** The rectangles on the map are the rectangles of the markers, in the
    order of the marker registry, each a rectangle of its own. *)
Definition layered (g : Game) : Prop :=
  mapLayers g = map snd (cacheMarkers g) /\
  NoDup (map Rectangle.rid (mapLayers g)) /\
  Forall (fun r => (Rectangle.rid r < nextRid g)%nat) (mapLayers g).

(** The registry has an entry for the cell. *)
Definition hasEntry (cell : Cell.t) (g : Game) : Prop :=
  JsMap.get (cellToString cell) (caches g) <> None.

(** Every coin of the inventory and of the caches in the registry has
    its home cell in the registry. *)
Definition homed (g : Game) : Prop :=
  (forall coin, In coin (playerInventory g) -> hasEntry (Coin.cell coin) g) /\
  (forall k c coin,
     In (k, toMomento c) (caches g) -> In coin (Cache.coins c) ->
     hasEntry (Coin.cell coin) g).

(** The [caches] record of local storage is the registry as
    [saveCaches] prints it; there is none while the registry is
    empty. *)
Definition cachesStored (g : Game) : Prop :=
  JsMap.get "caches" (localStorage g)
  = match caches g with
    | [] => None
    | _ :: _ => Some (cachesRecord (caches g))
    end.

(** The [inventory] record is the inventory as [saveInventory] prints
    it. *)
Definition inventoryStored (g : Game) : Prop :=
  JsMap.get "inventory" (localStorage g)
  = Some (JSON_stringify (JArr (map jsonOfCoin (playerInventory g)))).

(** The [playerLocation] record is the movement history as
    [savePlayerLocation] prints it; there is none before the first
    move. *)
Definition trailStored (g : Game) : Prop :=
  JsMap.get "playerLocation" (localStorage g)
  = Some (JSON_stringify (JArr (map jsonOfLatLng (playerMovementHistory g)))) \/
  (JsMap.get "playerLocation" (localStorage g) = None /\
   playerMovementHistory g = [initialPlayerLocation]).

(** The movement history ends at the player's location. *)
Definition trailed (g : Game) : Prop :=
  exists before, playerMovementHistory g = before ++ [playerLocation g].

(** What [spawnCache] and [updateCaches] keep. *)
Definition kept (g : Game) : Prop :=
  registryOk g /\ synced g /\ layered g /\ homed g /\ cachesStored g /\
  NoDup (JsMap.keys (caches g)).

(** What holds between two listeners of a game opened on empty
    storage. *)
Definition sound (g : Game) : Prop :=
  kept g /\ inventoryStored g /\ trailStored g /\ trailed g.

(** The buttons that are there to press: the centre button of a coin
    is in the status panel while the player holds the coin. *)
Definition canPress (e : Event) (g : Game) : Prop :=
  match e with
  | CenterOn coin => In coin (playerInventory g)
  | _ => True
  end.

(** A run of events, each on a button that is there when its turn
    comes. *)
Fixpoint playable (luck : string -> Q) (es : list Event) (g : Game) : Prop :=
  match es with
  | [] => True
  | e :: es' => canPress e g /\ playable luck es' (finalState (perform luck e g))
  end.

(** The game after the page has been opened on empty storage. *)
Definition opened (luck : string -> Q) : Game :=
  finalState (initGame luck (moduleStart [])).

(** The third block of [loadLocalStorage] returns on this storage: its
    [playerLocation] record, if there is one, is the text of a
    movement history that is not empty. *)
Definition trailReads (storage : JsMap.t string) : Prop :=
  forall h, localStorage h = storage ->
    exists h', loadPlayerLocationRecord h = Returned tt h'.

(** The label of a coin in a popup and in the status panel:
    [`${coin.cell.i}:${coin.cell.j}#${coin.serial}`]. *)
Definition coinLabel (coin : Coin.t) : string :=
  (stringOfZ (Cell.i (Coin.cell coin)) ++ ":" ++ stringOfZ (Cell.j (Coin.cell coin))
   ++ "#" ++ stringOfZ (Coin.serial coin))%string.

(** The rectangle is the rectangle of one of the markers. *)
Definition isMarker (markers : JsMap.t Rectangle.t) (r : Rectangle.t) : bool :=
  existsb (fun e => Nat.eqb (Rectangle.rid r) (Rectangle.rid (snd e))) markers.

(** * Properties *)

Local Open Scope string_scope.
Local Open Scope Z_scope.

(** ** Decimal numerals read back *)

Section NumeralFacts.

Lemma small_cases (d : N) : (d < 10)%N ->
  d = 0%N \/ d = 1%N \/ d = 2%N \/ d = 3%N \/ d = 4%N \/
  d = 5%N \/ d = 6%N \/ d = 7%N \/ d = 8%N \/ d = 9%N.
Proof. lia. Qed.

Ltac each_digit d H :=
  destruct (small_cases d H) as [-> | [-> | [-> | [-> | [-> | [-> | [-> | [-> | [-> | ->]]]]]]]]].

Lemma digitValue_digitChar (d : N) :
  (d < 10)%N -> digitValue (digitChar d) = Some d.
Proof. intros H; each_digit d H; reflexivity. Qed.

(** A digit is none of the characters that open another kind of value. *)
Lemma digitChar_class (d : N) (c : ascii) :
  (d < 10)%N -> isDigit c = false -> Ascii.eqb (digitChar d) c = false.
Proof.
  intros H Hc. destruct (Ascii.eqb_spec (digitChar d) c) as [<- | ]; trivial.
  unfold isDigit in Hc. rewrite digitValue_digitChar in Hc by assumption.
  discriminate.
Qed.

Lemma scanDigits_stop (s : string) (a : N) (c : nat) :
  endsNumber s = true -> scanDigits s a c = (a, c, s).
Proof.
  destruct s as [| ch s]; simpl; trivial.
  unfold isDigit. destruct (digitValue ch); simpl; trivial. discriminate.
Qed.

Lemma digitsOfN_scan (f : nat) :
  forall (n : N) (acc : string),
    n <> 0%N -> (n < 10 ^ N.of_nat (S f))%N ->
    exists d r,
      digitsOfN (S f) n acc = String (digitChar d) r /\
      (0 < d < 10)%N /\
      forall rest c, exists c',
        scanDigits (r ++ rest) d c = scanDigits (acc ++ rest) n c'.
Proof.
  induction f as [| f IH]; intros n acc Hn Hlt.
  - change (10 ^ N.of_nat 1)%N with 10%N in Hlt.
    exists n, acc. simpl.
    rewrite N.div_small, N.mod_small by assumption. simpl.
    repeat split; try lia. intros rest c. now exists c.
  - cbn [digitsOfN]. destruct (N.eqb_spec (n / 10) 0) as [Hq | Hq].
    + exists n, acc.
      assert (n < 10)%N by (apply N.div_small_iff in Hq; lia).
      rewrite N.mod_small by assumption.
      repeat split; try lia. intros rest c. now exists c.
    + destruct (IH (n / 10)%N (String (digitChar (n mod 10)) acc) Hq)
        as (d & r & Hd & Hr & Hs).
      { apply N.Div0.div_lt_upper_bound.
        replace (N.of_nat (S (S f))) with (N.succ (N.of_nat (S f))) in Hlt by lia.
        now rewrite N.pow_succ_r' in Hlt. }
      exists d, r. repeat split; try assumption; try lia.
      intros rest c. destruct (Hs rest c) as [c' Hc']. rewrite Hc'.
      exists (S c'). cbn [append scanDigits].
      rewrite digitValue_digitChar by (apply N.mod_lt; lia).
      f_equal. pose proof (N.div_mod n 10). lia.
Qed.

Lemma stringOfN_scan (n : N) :
  n <> 0%N ->
  exists d r,
    stringOfN n = String (digitChar d) r /\ (0 < d < 10)%N /\
    forall rest c, endsNumber rest = true ->
      exists c', scanDigits (r ++ rest) d c = (n, c', rest).
Proof.
  intros Hn. unfold stringOfN.
  destruct (digitsOfN_scan (N.to_nat (N.log2 n)) n EmptyString Hn)
    as (d & r & Hd & Hr & Hs).
  { destruct (N.log2_spec n) as [_ Hup]; [lia |].
    eapply N.lt_le_trans; [exact Hup |].
    replace (N.of_nat (S (N.to_nat (N.log2 n)))) with (N.succ (N.log2 n)) by lia.
    apply N.pow_le_mono_l. lia. }
  exists d, r. repeat split; try assumption; try lia.
  intros rest c He. destruct (Hs rest c) as [c' Hc']. exists c'.
  rewrite Hc'. simpl. now apply scanDigits_stop.
Qed.

Lemma scanFraction_stop (s : string) :
  endsNumber s = true -> scanFraction s = Some (0%N, O, s).
Proof.
  destruct s as [| ch s]; simpl; trivial.
  destruct (Ascii.eqb ch "."); trivial.
  rewrite !orb_true_r. discriminate.
Qed.

Lemma scanExponent_stop (s : string) :
  endsNumber s = true -> scanExponent s = Some (0, s).
Proof.
  destruct s as [| ch s]; simpl; trivial.
  destruct (Ascii.eqb ch "e"), (Ascii.eqb ch "E"); simpl; trivial;
    rewrite ?orb_true_r; discriminate.
Qed.

Lemma mkNumber_int (neg : bool) (n : N) :
  mkNumber neg (n * 10 ^ N.of_nat 0 + 0) (0 - Z.of_nat 0) =
  inject_Z (if neg then - Z.of_N n else Z.of_N n).
Proof.
  unfold mkNumber. simpl. rewrite N.mul_1_r, N.add_0_r, Z.mul_1_r. reflexivity.
Qed.

(** Reading back the numeral of an integer. *)
Lemma parseNumber_stringOfZ (z : Z) (rest : string) :
  endsNumber rest = true ->
  parseNumber (stringOfZ z ++ rest) = Some (inject_Z z, rest).
Proof.
  intros He. destruct z as [| p | p].
  - cbn. rewrite scanFraction_stop, scanExponent_stop by assumption. reflexivity.
  - destruct (stringOfN_scan (Npos p)) as (d & r & Hd & Hr & Hs); [lia |].
    cbn [stringOfZ]. rewrite Hd. unfold parseNumber. cbn [append].
    rewrite (digitChar_class d "-") by (trivial; lia).
    rewrite digitValue_digitChar by lia.
    destruct (N.eqb_spec d 0); [lia |].
    destruct (Hs rest 1%nat He) as [c' ->].
    rewrite scanFraction_stop, scanExponent_stop by assumption.
    now rewrite mkNumber_int.
  - destruct (stringOfN_scan (Npos p)) as (d & r & Hd & Hr & Hs); [lia |].
    cbn [stringOfZ]. rewrite Hd. unfold parseNumber. cbn [append Ascii.eqb].
    cbn -[scanDigits scanFraction scanExponent mkNumber digitValue digitChar].
    rewrite digitValue_digitChar by lia.
    destruct (N.eqb_spec d 0); [lia |].
    destruct (Hs rest 1%nat He) as [c' ->].
    rewrite scanFraction_stop, scanExponent_stop by assumption.
    now rewrite mkNumber_int.
Qed.

(** The first character of a numeral: a digit or the minus sign. *)
Lemma stringOfZ_head (z : Z) :
  exists c r, stringOfZ z = String c r /\
    (isDigit c = true \/ c = "-"%char).
Proof.
  destruct z as [| p | p].
  - exists "0"%char, EmptyString. split; [reflexivity | now left].
  - destruct (stringOfN_scan (Npos p)) as (d & r & Hd & Hr & _); [lia |].
    exists (digitChar d), r. split; [exact Hd | left].
    unfold isDigit. now rewrite digitValue_digitChar by lia.
  - exists "-"%char, (stringOfN (Npos p)). split; [reflexivity | now right].
Qed.

End NumeralFacts.

Example stringOfZ_samples :
  stringOfZ 0 = "0" /\ stringOfZ 369894 = "369894" /\
  stringOfZ (-1220628) = "-1220628" /\ stringOfZ 10 = "10".
Proof. repeat split; reflexivity. Qed.

(** ** [JSON.parse] after [JSON.stringify] *)

Section JsonFacts.

Lemma append_assoc (a b c : string) : (a ++ b) ++ c = a ++ (b ++ c).
Proof. induction a as [| x a IH]; simpl; congruence. Qed.

Lemma length_append (a b : string) :
  String.length (a ++ b) = (String.length a + String.length b)%nat.
Proof. induction a as [| x a IH]; simpl; congruence. Qed.

Lemma json_nested_ind (P : json -> Prop) :
  P JNull -> (forall b, P (JBool b)) -> (forall q, P (JNum q)) ->
  (forall s, P (JStr s)) ->
  (forall vs, Forall P vs -> P (JArr vs)) ->
  (forall ms, Forall (fun m => P (snd m)) ms -> P (JObj ms)) ->
  forall v, P v.
Proof.
  intros Hnull Hbool Hnum Hstr Harr Hobj.
  fix IH 1. intros [| b | q | s | vs | ms].
  - exact Hnull.
  - apply Hbool.
  - apply Hnum.
  - apply Hstr.
  - apply Harr. induction vs as [| v vs IHvs]; constructor; [apply IH | exact IHvs].
  - apply Hobj. induction ms as [| [k v] ms IHms]; constructor; [apply IH | exact IHms].
Qed.

Lemma stringify_array (v : json) (vs : list json) :
  JSON_stringify (JArr (v :: vs)) = "[" ++ JSON_stringify v ++ stringifyElements vs.
Proof.
  reflexivity.
Qed.

Lemma stringify_object (k : string) (v : json) (ms : list (string * json)) :
  JSON_stringify (JObj ((k, v) :: ms)) =
  "{" ++ quote k ++ ":" ++ JSON_stringify v ++ stringifyMembers ms.
Proof.
  reflexivity.
Qed.

(** One character of a string literal, escaped and read back. *)
Lemma scanString_escapeChar (c : ascii) (t : string) :
  scanString (escapeChar c ++ t) = consChar c (scanString t).
Proof.
  destruct c as [[] [] [] [] [] [] [] []]; reflexivity.
Qed.

Lemma scanString_escapeString (s rest : string) :
  scanString (escapeString s ++ String DQ rest) = Some (s, rest).
Proof.
  induction s as [| c s IH]; [reflexivity |].
  cbn [escapeString]. rewrite append_assoc, scanString_escapeChar, IH. reflexivity.
Qed.

Lemma scanString_quote (s rest : string) :
  exists r, quote s ++ rest = String DQ r /\ scanString r = Some (s, rest).
Proof.
  exists (escapeString s ++ String DQ rest). split.
  - unfold quote. cbn [append]. now rewrite append_assoc.
  - apply scanString_escapeString.
Qed.

Lemma Qred_int (n : Z) : Qred (n # 1) = n # 1.
Proof. apply Qred_identity. apply Z.gcd_1_r. Qed.

Lemma stringOfNumber_int (n : Z) : stringOfNumber (inject_Z n) = stringOfZ n.
Proof. unfold stringOfNumber, inject_Z. now rewrite Qred_int. Qed.

Lemma ascii_eqb_N (a b : ascii) :
  Ascii.eqb a b = (N_of_ascii a =? N_of_ascii b)%N.
Proof.
  destruct (Ascii.eqb_spec a b) as [-> | Hne].
  - now rewrite N.eqb_refl.
  - symmetry. apply N.eqb_neq. intros E. apply Hne.
    rewrite <- (ascii_N_embedding a), <- (ascii_N_embedding b). now rewrite E.
Qed.

Lemma isDigit_code (c : ascii) :
  isDigit c = true -> (48 <= N_of_ascii c <= 57)%N.
Proof.
  unfold isDigit, digitValue.
  destruct ((48 <=? N_of_ascii c) && (N_of_ascii c <=? 57))%N eqn:E; [| discriminate].
  intros _. apply andb_true_iff in E as [E1 E2].
  apply N.leb_le in E1, E2. lia.
Qed.

(** A character that starts a numeral is not white space and opens no
    other kind of value. *)
Lemma numeral_head_dispatch (c : ascii) :
  isDigit c = true \/ c = "-"%char ->
  isWs c = false /\ Ascii.eqb c "{" = false /\ Ascii.eqb c "[" = false /\
  Ascii.eqb c DQ = false /\ Ascii.eqb c "t" = false /\
  Ascii.eqb c "f" = false /\ Ascii.eqb c "n" = false /\ Ascii.eqb c "]" = false.
Proof.
  intros [Hd | ->]; [| repeat split; reflexivity].
  apply isDigit_code in Hd. unfold isWs. rewrite !ascii_eqb_N.
  change (N_of_ascii "{") with 123%N. change (N_of_ascii "[") with 91%N.
  change (N_of_ascii DQ) with 34%N. change (N_of_ascii "t") with 116%N.
  change (N_of_ascii "f") with 102%N. change (N_of_ascii "n") with 110%N.
  change (N_of_ascii "]") with 93%N.
  repeat split; rewrite ?orb_false_iff; repeat split; apply N.eqb_neq; lia.
Qed.

Lemma parseValue_numeral (f : nat) (z : Z) (rest : string) :
  endsNumber rest = true ->
  parseValue (S f) (stringOfZ z ++ rest) = Some (JNum (inject_Z z), rest).
Proof.
  intros He. pose proof (parseNumber_stringOfZ z rest He) as Hp.
  destruct (stringOfZ_head z) as (c & r & E & Hc).
  rewrite E in *. cbn [append] in *.
  destruct (numeral_head_dispatch c Hc) as (W & H1 & H2 & H3 & H4 & H5 & H6 & _).
  cbn [parseValue skipWs]. rewrite W, H1, H2, H3, H4, H5, H6, Hp. reflexivity.
Qed.

(** The text of a value starts with a character that is neither white
    space nor a closing bracket. *)
Lemma stringify_head (v : json) :
  integral v ->
  exists c r, JSON_stringify v = String c r /\ isWs c = false /\
              Ascii.eqb c "]" = false.
Proof.
  destruct v as [| [] | [n d] | s | [| v vs] | [| [k v] ms]]; intros Hi;
    try (eexists _, _; repeat split; reflexivity).
  cbn in Hi. subst d. change (n # 1) with (inject_Z n).
  cbn [JSON_stringify]. rewrite stringOfNumber_int.
  destruct (stringOfZ_head n) as (c & r & E & Hc). exists c, r.
  destruct (numeral_head_dispatch c Hc) as (W & _ & _ & _ & _ & _ & _ & B).
  now rewrite E.
Qed.

Lemma parseElements_stringify (vs : list json) :
  Forall parsesBack vs ->
  forall v, parsesBack v -> integral v -> integral (JArr vs) ->
  forall fuel rest,
    (S (size v) + fold_right (fun w acc => S (size w + acc)) O vs <= fuel)%nat ->
    parseElements fuel (JSON_stringify v ++ stringifyElements vs ++ rest)
    = Some (v :: vs, rest).
Proof.
  induction 1 as [| w ws Hw Hws IH]; intros v Hv Iv Ivs fuel rest Hf;
    (destruct fuel as [| f]; [cbn in Hf; lia |]); cbn [parseElements].
  - rewrite (Hv Iv) by (cbn in *; trivial; lia). reflexivity.
  - cbn in Ivs. destruct Ivs as [Iw Iws].
    cbn [stringifyElements fold_right] in *.
    rewrite !append_assoc.
    rewrite (Hv Iv) by (cbn; trivial; lia).
    cbn [append skipWs isWs]. cbn -[parseElements JSON_stringify stringifyElements].
    rewrite (IH w Hw Iw Iws) by lia. reflexivity.
Qed.

Lemma parseMembers_stringify (ms : list (string * json)) :
  Forall (fun m => parsesBack (snd m)) ms ->
  forall k v, parsesBack v -> integral v -> integral (JObj ms) ->
  forall fuel rest,
    (S (size v) + fold_right (fun m acc => S (size (snd m) + acc)) O ms <= fuel)%nat ->
    parseMembers fuel (quote k ++ ":" ++ JSON_stringify v ++ stringifyMembers ms ++ rest)
    = Some ((k, v) :: ms, rest).
Proof.
  induction 1 as [| [k' w] ws Hw Hws IH]; intros k v Hv Iv Ivs fuel rest Hf;
    (destruct fuel as [| f]; [cbn in Hf; lia |]); cbn [parseMembers].
  - destruct (scanString_quote k (":" ++ JSON_stringify v ++
                 stringifyMembers [] ++ rest)) as (r & -> & Hr).
    cbn -[parseValue JSON_stringify scanString]. rewrite Hr.
    cbn -[parseValue JSON_stringify].
    rewrite (Hv Iv) by (cbn in *; trivial; lia). reflexivity.
  - destruct (scanString_quote k (":" ++ JSON_stringify v ++
                 stringifyMembers ((k', w) :: ws) ++ rest)) as (r & -> & Hr).
    cbn in Ivs. destruct Ivs as [Iw Iws].
    cbn -[parseValue parseMembers JSON_stringify stringifyMembers quote scanString].
    rewrite Hr.
    cbn [stringifyMembers fold_right snd] in *.
    cbn -[parseValue parseMembers JSON_stringify stringifyMembers quote].
    rewrite !append_assoc.
    rewrite (Hv Iv) by (cbn; trivial; lia).
    cbn -[parseValue parseMembers JSON_stringify stringifyMembers quote].
    pose proof (IH k' w Hw Iw Iws f rest) as Hp.
    rewrite !append_assoc. cbn [append] in Hp |- *.
    rewrite Hp by lia. reflexivity.
Qed.

(** [JSON.parse] reads back what [JSON.stringify] wrote, for every value
    whose numbers are integers. *)
Lemma parseValue_stringify (v : json) : parsesBack v.
Proof.
  induction v as [| b | q | s | vs IH | ms IH] using json_nested_ind;
    intros Hi fuel rest Hf He; (destruct fuel as [| f]; [cbn in Hf; lia |]).
  - reflexivity.
  - destruct b; reflexivity.
  - destruct q as [n d]. cbn in Hi. subst d. change (n # 1) with (inject_Z n).
    cbn [JSON_stringify]. rewrite stringOfNumber_int. now apply parseValue_numeral.
  - cbn [JSON_stringify].
    destruct (scanString_quote s rest) as (r & -> & Hr).
    cbn -[scanString]. now rewrite Hr.
  - destruct vs as [| v vs]; [reflexivity |].
    rewrite stringify_array. inversion IH as [| ? ? Hv Hvs]; subst.
    cbn in Hi. destruct Hi as [Iv Ivs].
    rewrite !append_assoc.
    destruct (stringify_head v Iv) as (c & r & E & W & B).
    pose proof (parseElements_stringify vs Hvs v Hv Iv Ivs f rest) as Hp.
    rewrite E in *. cbn [append] in *.
    cbn [parseValue skipWs isWs]. cbn -[parseElements].
    rewrite W, B, Hp by (cbn in Hf; lia). reflexivity.
  - destruct ms as [| [k v] ms]; [reflexivity |].
    rewrite stringify_object. inversion IH as [| ? ? Hv Hvs]; subst.
    cbn in Hi. destruct Hi as [Iv Ivs].
    rewrite !append_assoc.
    pose proof (parseMembers_stringify ms Hvs k v Hv Iv Ivs f rest) as Hp.
    destruct (scanString_quote k (":" ++ JSON_stringify v ++
                 stringifyMembers ms ++ rest)) as (r & E & _).
    rewrite E in *.
    cbn [append]. cbn [parseValue skipWs isWs]. cbn -[parseMembers].
    rewrite Hp by (cbn in Hf; cbn; lia). reflexivity.
Qed.

End JsonFacts.

Example JSON_parse_samples :
  JSON_parse "[1 , 2.5e1, -0]" = Some (JArr [JNum 1; JNum 25; JNum 0]) /\
  JSON_parse " { } " = Some (JObj []) /\
  JSON_parse "[1,]" = None /\
  JSON_parse "01" = None /\
  JSON_parse "{" = None /\
  JSON_parse "" = None.
Proof. repeat split; reflexivity. Qed.

(** ** Mementos *)

Section CodecFacts.

Lemma append_nil_r (a : string) : a ++ EmptyString = a.
Proof. induction a as [| x a IH]; simpl; congruence. Qed.

Lemma size_le_length (v : json) :
  integral v -> (size v <= String.length (JSON_stringify v))%nat.
Proof.
  induction v as [| b | q | s | vs IH | ms IH] using json_nested_ind; intros Hi.
  - cbn. lia.
  - destruct b; cbn; lia.
  - destruct (stringify_head (JNum q) Hi) as (c & r & -> & _). cbn. lia.
  - cbn. lia.
  - destruct vs as [| v vs]; [cbn; lia |].
    rewrite stringify_array. cbn [size fold_right]. cbn in Hi. destruct Hi as [Iv Ivs].
    inversion IH as [| ? ? Hv Hvs]; subst.
    repeat (rewrite length_append || cbn [append String.length]).
    specialize (Hv Iv).
    enough (fold_right (fun w acc => S (size w + acc)) O vs
            < String.length (stringifyElements vs))%nat by lia.
    clear Hv Iv IH. induction Hvs as [| w ws Hw Hws IHws]; [cbn; lia |].
    cbn in Ivs. destruct Ivs as [Iw Iws].
    cbn [fold_right stringifyElements].
    repeat (rewrite length_append || cbn [append String.length]).
    specialize (Hw Iw). specialize (IHws Iws). lia.
  - destruct ms as [| [k v] ms]; [cbn; lia |].
    rewrite stringify_object. cbn [size fold_right snd]. cbn in Hi. destruct Hi as [Iv Ivs].
    inversion IH as [| ? ? Hv Hvs]; subst. cbn [snd] in Hv.
    repeat (rewrite length_append || cbn [append String.length]).
    specialize (Hv Iv).
    enough (fold_right (fun m acc => S (size (snd m) + acc)) O ms
            < String.length (stringifyMembers ms))%nat by lia.
    clear Hv Iv IH. induction Hvs as [| [k' w] ws Hw Hws IHws]; [cbn; lia |].
    cbn in Ivs. destruct Ivs as [Iw Iws]. cbn [snd] in Hw.
    cbn [fold_right stringifyMembers snd].
    repeat (rewrite length_append || cbn [append String.length]).
    specialize (Hw Iw). specialize (IHws Iws). lia.
Qed.

(** [JSON.parse (JSON.stringify v)] is [v]. *)
Lemma JSON_parse_stringify (v : json) :
  integral v -> JSON_parse (JSON_stringify v) = Some v.
Proof.
  intros Hi. unfold JSON_parse.
  pose proof (parseValue_stringify v Hi (S (String.length (JSON_stringify v)))
                EmptyString) as Hp.
  rewrite append_nil_r in Hp. rewrite Hp; trivial.
  pose proof (size_le_length v Hi). lia.
Qed.

Lemma integral_coins (coins : list Coin.t) :
  integral (JArr (map jsonOfCoin coins)).
Proof. induction coins as [| c cs IH]; cbn in *; auto. Qed.

Lemma integral_cache (c : Cache.t) : integral (jsonOfCache c).
Proof.
  pose proof (integral_coins (Cache.coins c)) as H.
  cbn in *. intuition reflexivity.
Qed.

Lemma cellOfJson_jsonOfCell (c : Cell.t) : cellOfJson (jsonOfCell c) = Some c.
Proof. now destruct c. Qed.

Lemma coinsOfJson_jsonOfCoin (coins : list Coin.t) :
  forall oid, coinsOfJson oid (map jsonOfCoin coins) = Some (freshCopies oid coins).
Proof.
  induction coins as [| c cs IH]; intros oid; [reflexivity |].
  cbn [map coinsOfJson freshCopies]. rewrite IH.
  unfold coinOfJson, jsonOfCoin. cbn -[cellOfJson jsonOfCell].
  now rewrite cellOfJson_jsonOfCell.
Qed.

Lemma cacheOfJson_jsonOfCache (oid : nat) (c : Cache.t) :
  cacheOfJson oid (jsonOfCache c)
  = Some (Cache.mk (Cache.cell c) (freshCopies oid (Cache.coins c))).
Proof.
  unfold cacheOfJson, jsonOfCache. cbn -[cellOfJson jsonOfCell coinsOfJson].
  now rewrite cellOfJson_jsonOfCell, coinsOfJson_jsonOfCoin.
Qed.

Lemma freshCopies_fields (coins : list Coin.t) :
  forall oid, map Coin.fields (freshCopies oid coins) = map Coin.fields coins.
Proof. induction coins as [| c cs IH]; intros oid; cbn; [| rewrite IH]; reflexivity. Qed.

Lemma freshCopies_length (coins : list Coin.t) :
  forall oid, List.length (freshCopies oid coins) = List.length coins.
Proof. induction coins as [| c cs IH]; intros oid; cbn; [| rewrite IH]; reflexivity. Qed.

(** What [fromMomento] returns on a memento written by [toMomento]. *)
Lemma fromMomento_toMomento (c : Cache.t) (g : Game) :
  fromMomento (toMomento c) g
  = Returned (Cache.mk (Cache.cell c) (freshCopies (nextOid g) (Cache.coins c)))
      (setNextOid (nextOid g + List.length (Cache.coins c)) g).
Proof.
  unfold fromMomento, toMomento.
  rewrite JSON_parse_stringify by apply integral_cache.
  rewrite cacheOfJson_jsonOfCache. cbn [Cache.coins].
  now rewrite freshCopies_length.
Qed.

Lemma truthy_toMomento (c : Cache.t) : truthy (Some (toMomento c)) = true.
Proof. reflexivity. Qed.

Lemma jsonOfCoin_fields (coins : list Coin.t) :
  map jsonOfCoin coins =
  map (fun f => JObj [("cell", jsonOfCell (fst f)); ("serial", jsonOfInt (snd f))])
    (map Coin.fields coins).
Proof. now rewrite map_map. Qed.

(** The memento does not depend on the identities of the coin objects. *)
Lemma toMomento_fields (a b : Cache.t) : structEq a b -> toMomento a = toMomento b.
Proof.
  intros [Hc Hf]. unfold toMomento, jsonOfCache.
  now rewrite Hc, !jsonOfCoin_fields, Hf.
Qed.

Lemma cellToString_inj (a b : Cell.t) : cellToString a = cellToString b -> a = b.
Proof.
  destruct a as [ai aj], b as [bi bj]. unfold cellToString. cbn [Cell.i Cell.j].
  intros E.
  pose proof (parseNumber_stringOfZ ai ("," ++ stringOfZ aj) eq_refl) as Ha.
  pose proof (parseNumber_stringOfZ bi ("," ++ stringOfZ bj) eq_refl) as Hb.
  rewrite E, Hb in Ha. injection Ha as Hi Hj.
  pose proof (parseNumber_stringOfZ aj EmptyString eq_refl) as Ha.
  pose proof (parseNumber_stringOfZ bj EmptyString eq_refl) as Hb'.
  rewrite <- Hj, Hb' in Ha. injection Ha as Hj'. congruence.
Qed.

End CodecFacts.

(** Claim C2.  For every cache [c], whatever its cell and its coins (so
    also after [collect] has removed coins or [deposit] has added some),
    [fromMomento (toMomento c)] returns a cache that is structurally
    equal to [c]: the same cell and, coin for coin, the same fields. *)
Theorem memento_round_trip (c : Cache.t) (g : Game) :
  exists c' g',
    fromMomento (toMomento c) g = Returned c' g' /\ structEq c' c.
Proof.
  eexists _, _. split; [apply fromMomento_toMomento |].
  split; [reflexivity | apply freshCopies_fields].
Qed.

(** ** The visible neighbourhood and the coins of a cache *)

Section RangeFacts.


Lemma range_In (a b x : Z) : In x (range a b) <-> a <= x < b.
Proof.
  unfold range. rewrite in_map_iff. split.
  - intros (k & <- & Hk). apply in_seq in Hk. lia.
  - intros H. exists (Z.to_nat (x - a)). split; [lia |]. apply in_seq. lia.
Qed.

Lemma range_NoDup (a b : Z) : NoDup (range a b).
Proof.
  unfold range. generalize (seq_NoDup (Z.to_nat (b - a)) 0).
  generalize (seq 0 (Z.to_nat (b - a))). intros l Hl.
  induction Hl as [| k l Hk Hl IH]; cbn; constructor; trivial.
  rewrite in_map_iff. intros (k' & E & Hk'). assert (k' = k) by lia. now subst.
Qed.


End RangeFacts.

Section VisibleCells.

Variable coord : LatLng.t.
Let oi := Qfloor (LatLng.lat coord / TILE_DEGREES).
Let oj := Qfloor (LatLng.lng coord / TILE_DEGREES).

Lemma getVisibleCells_In (c : Cell.t) :
  In c (getVisibleCells coord) <->
  (oi - NEIGHBORHOOD_SIZE <= Cell.i c < oi + NEIGHBORHOOD_SIZE /\
   oj - NEIGHBORHOOD_SIZE <= Cell.j c < oj + NEIGHBORHOOD_SIZE).
Proof.
  unfold getVisibleCells. fold oi oj. rewrite in_flat_map. split.
  - intros (i & Hi & Hc). apply in_map_iff in Hc as (j & <- & Hj).
    apply range_In in Hi, Hj. cbn [Cell.i Cell.j]. lia.
  - intros [Hi Hj]. exists (Cell.i c). split; [now apply range_In |].
    apply in_map_iff. exists (Cell.j c). split; [now destruct c | now apply range_In].
Qed.


Lemma getVisibleCells_NoDup : NoDup (getVisibleCells coord).
Proof.
  unfold getVisibleCells. fold oi oj.
  generalize (range_NoDup (oi - NEIGHBORHOOD_SIZE) (oi + NEIGHBORHOOD_SIZE)).
  generalize (range (oi - NEIGHBORHOOD_SIZE) (oi + NEIGHBORHOOD_SIZE)). intros l Hl.
  induction Hl as [| i l Hi Hl IH]; [constructor |].
  cbn [flat_map]. apply NoDup_app; trivial.
  - generalize (range_NoDup (oj - NEIGHBORHOOD_SIZE) (oj + NEIGHBORHOOD_SIZE)).
    generalize (range (oj - NEIGHBORHOOD_SIZE) (oj + NEIGHBORHOOD_SIZE)). intros m Hm.
    induction Hm as [| j m Hj Hm IHm]; cbn; constructor; trivial.
    rewrite in_map_iff. intros (j' & E & Hj'). injection E as ->. contradiction.
  - intros c Hc Hc'. apply in_map_iff in Hc as (j & <- & _).
    apply in_flat_map in Hc' as (i' & Hi' & Hc').
    apply in_map_iff in Hc' as (j' & E & _). injection E as -> _. contradiction.
Qed.

End VisibleCells.


Section CoinGeneration.

Variable luck : string -> Q.




End CoinGeneration.



Local Open Scope list_scope.

(** ** [collect] and [deposit] *)

Section MapFacts.
Context {V : Type}.

Lemma get_set_same (k : string) (v : V) (m : JsMap.t V) :
  JsMap.get k (JsMap.set k v m) = Some v.
Proof.
  induction m as [| [k' v'] m IH]; cbn.
  - now rewrite String.eqb_refl.
  - destruct (String.eqb_spec k k') as [-> | Hne]; cbn.
    + now rewrite String.eqb_refl.
    + destruct (String.eqb_spec k k'); [contradiction | exact IH].
Qed.

Lemma get_set_other (k k' : string) (v : V) (m : JsMap.t V) :
  k <> k' -> JsMap.get k (JsMap.set k' v m) = JsMap.get k m.
Proof.
  intros Hne. induction m as [| [k0 v0] m IH]; cbn.
  - destruct (String.eqb_spec k k'); [contradiction | reflexivity].
  - destruct (String.eqb_spec k' k0) as [-> | Hne0]; cbn.
    + destruct (String.eqb_spec k k0); [contradiction | reflexivity].
    + destruct (String.eqb_spec k k0); [reflexivity | exact IH].
Qed.

Lemma set_absent (k : string) (v : V) (m : JsMap.t V) :
  JsMap.get k m = None -> JsMap.set k v m = (m ++ [(k, v)])%list.
Proof.
  induction m as [| [k' v'] m IH]; cbn; trivial.
  destruct (String.eqb_spec k k'); [discriminate |].
  intros H. now rewrite IH.
Qed.

Lemma get_None_keys (k : string) (m : JsMap.t V) :
  JsMap.get k m = None <-> ~ In k (JsMap.keys m).
Proof.
  induction m as [| [k' v'] m IH]; cbn; [tauto |].
  destruct (String.eqb_spec k k') as [-> | Hne].
  - split; [discriminate | tauto].
  - rewrite IH. unfold JsMap.keys. split; [intros H [E | E]; congruence || tauto | tauto].
Qed.

End MapFacts.

Section CoinFacts.

Lemma Cell_eqb_eq (a b : Cell.t) : Cell.eqb a b = true <-> a = b.
Proof.
  destruct a, b. unfold Cell.eqb. cbn. rewrite andb_true_iff, !Z.eqb_eq.
  split; [intros [-> ->]; reflexivity | intros E; injection E; auto].
Qed.

(** Two references are the same object exactly when they are equal. *)
Lemma same_eq (a b : Coin.t) : Coin.same a b = true <-> a = b.
Proof.
  destruct a as [o c s], b as [o' c' s']. unfold Coin.same. cbn.
  rewrite !andb_true_iff, Nat.eqb_eq, Cell_eqb_eq, Z.eqb_eq.
  split; [intros [[-> ->] ->]; reflexivity | intros E; injection E; auto].
Qed.

Lemma indexOfFrom_absent (coin : Coin.t) (l : list Coin.t) :
  forall k, (forall x, In x l -> x <> coin) -> indexOfFrom coin l k = -1.
Proof.
  induction l as [| x l IH]; intros k H; cbn; trivial.
  destruct (Coin.same x coin) eqn:E.
  - apply same_eq in E. exfalso. apply (H x); [now left | assumption].
  - apply IH. intros y Hy. apply H. now right.
Qed.

Lemma indexOfFrom_first (coin : Coin.t) (pre post : list Coin.t) :
  forall k, ~ In coin pre ->
    indexOfFrom coin (pre ++ coin :: post) k = k + Z.of_nat (List.length pre).
Proof.
  induction pre as [| x pre IH]; intros k H; cbn [app indexOfFrom List.length].
  - replace (Coin.same coin coin) with true by (symmetry; now apply same_eq). lia.
  - destruct (Coin.same x coin) eqn:E.
    + apply same_eq in E. exfalso. apply H. now left.
    + rewrite IH by (intros Hin; apply H; now right). lia.
Qed.

Lemma splice1_middle {A : Type} (pre post : list A) (x : A) :
  splice1 (pre ++ x :: post) (Z.of_nat (List.length pre)) = pre ++ post.
Proof.
  unfold splice1. rewrite Nat2Z.id.
  rewrite firstn_app, firstn_all, Nat.sub_diag, firstn_O, app_nil_r.
  f_equal. change (S (List.length pre)) with (1 + List.length pre)%nat.
  rewrite <- skipn_skipn.
  rewrite skipn_app, skipn_all, Nat.sub_diag. reflexivity.
Qed.

Lemma nth_error_store {A : Type} (l : list A) (a : nat) (x y : A) :
  nth_error l a = Some x ->
  nth_error (firstn a l ++ y :: skipn (S a) l) a = Some y.
Proof.
  intros H. assert (a < List.length l)%nat by (apply nth_error_Some; congruence).
  rewrite nth_error_app2; rewrite length_firstn; [| lia].
  replace (a - Nat.min a (List.length l))%nat with O by lia. reflexivity.
Qed.

Lemma store_same {A : Type} (l : list A) (a : nat) (x : A) :
  nth_error l a = Some x -> firstn a l ++ x :: skipn (S a) l = l.
Proof.
  revert a. induction l as [| y l IH]; intros [| a] H; try discriminate.
  - now injection H as ->.
  - cbn in *. f_equal. now apply IH.
Qed.

End CoinFacts.

Section Collect.

(** What [collect] does to the cache object, the inventory and the
    registry. *)
Lemma collect_returns (coin : Coin.t) (a : nat) (c : Cache.t) (g : Game) :
  nth_error (cacheObjs g) a = Some c ->
  let c' :=
    if indexOf coin (Cache.coins c) >? -1
    then Cache.mk (Cache.cell c) (splice1 (Cache.coins c) (indexOf coin (Cache.coins c)))
    else c in
  exists g',
    collect coin a g = Returned tt g' /\
    playerInventory g' = playerInventory g ++ [coin] /\
    cacheObjs g' = firstn a (cacheObjs g) ++ c' :: skipn (S a) (cacheObjs g) /\
    caches g' = JsMap.set (cellToString (Cache.cell c')) (toMomento c') (caches g) /\
    cacheMarkers g' = cacheMarkers g /\
    mapLayers g' = mapLayers g /\
    playerLocation g' = playerLocation g /\
    playerMovementHistory g' = playerMovementHistory g.
Proof.
  intros H c'. unfold collect, withCache, bind, modify. cbn [cacheObjs setPlayerInventory].
  rewrite H. eexists. split; [reflexivity |]. cbn. repeat split.
Qed.

(** [collect] of a coin that is in the cache: its first occurrence
    leaves the cache object and the cache is saved again. *)
Lemma collect_present
    (coin : Coin.t) (a : nat) (c : Cache.t) (g : Game) (pre post : list Coin.t) :
  nth_error (cacheObjs g) a = Some c ->
  Cache.coins c = pre ++ coin :: post ->
  ~ In coin pre ->
  let c' := Cache.mk (Cache.cell c) (pre ++ post) in
  exists g',
    collect coin a g = Returned tt g' /\
    nth_error (cacheObjs g') a = Some c' /\
    playerInventory g' = playerInventory g ++ [coin] /\
    caches g' = JsMap.set (cellToString (Cache.cell c)) (toMomento c') (caches g) /\
    cacheMarkers g' = cacheMarkers g.
Proof.
  intros Ha Hc Hpre c'.
  destruct (collect_returns coin a c g Ha) as (g' & Hr & Hi & Ho & Hs & Hm & _).
  unfold indexOf in Ho, Hs. rewrite Hc, indexOfFrom_first in Ho, Hs by assumption.
  replace (0 + Z.of_nat (List.length pre) >? -1) with true in Ho, Hs
    by (symmetry; apply Z.gtb_lt; lia).
  rewrite Z.add_0_l, splice1_middle in Ho, Hs.
  exists g'. repeat split; trivial.
  rewrite Ho. eapply nth_error_store; eassumption.
Qed.

End Collect.

Example startedGame_cache :
  cacheObjs startedGame
  = [Cache.mk homeCell [Coin.mk 0 homeCell 0; Coin.mk 1 homeCell 1]] /\
  playerInventory startedGame = [] /\
  JsMap.keys (caches startedGame) = [cellToString homeCell].
Proof. repeat split; reflexivity. Qed.

(** Claim C4.  When no coin of the cache has the fields (cell and
    serial) of [coin], [collect coin cache] returns normally and leaves
    the cache object, and every object of the heap, as it was; the
    registry entry of the cache's cell is the memento of the unchanged
    cache. *)
Theorem collect_absent_coin_leaves_cache
    (coin : Coin.t) (a : nat) (c : Cache.t) (g : Game) :
  nth_error (cacheObjs g) a = Some c ->
  (forall x, In x (Cache.coins c) -> Coin.fields x <> Coin.fields coin) ->
  exists g',
    collect coin a g = Returned tt g' /\
    cacheObjs g' = cacheObjs g /\
    nth_error (cacheObjs g') a = Some c /\
    JsMap.get (cellToString (Cache.cell c)) (caches g') = Some (toMomento c).
Proof.
  intros Ha Habs.
  destruct (collect_returns coin a c g Ha) as (g' & Hr & _ & Ho & Hc & _).
  unfold indexOf in Ho, Hc.
  rewrite indexOfFrom_absent in Ho, Hc
    by (intros x Hx ->; now apply (Habs coin Hx)).
  change (-1 >? -1) with false in Ho, Hc. cbv iota in Ho, Hc.
  rewrite store_same in Ho by assumption.
  exists g'. repeat split; trivial.
  - now rewrite Ho.
  - rewrite Hc. apply get_set_same.
Qed.

(** Claim C4 in [startedGame], for a coin with serial 5. *)
Lemma collect_absent_coin_leaves_cache_witness :
  exists g',
    collect (Coin.mk 7 homeCell 5) 0 startedGame = Returned tt g' /\
    cacheObjs g' = cacheObjs startedGame /\
    nth_error (cacheObjs g') 0
    = Some (Cache.mk homeCell [Coin.mk 0 homeCell 0; Coin.mk 1 homeCell 1]) /\
    JsMap.get (cellToString homeCell) (caches g')
    = Some (toMomento (Cache.mk homeCell [Coin.mk 0 homeCell 0; Coin.mk 1 homeCell 1])).
Proof.
  apply (collect_absent_coin_leaves_cache (Coin.mk 7 homeCell 5) 0
           (Cache.mk homeCell [Coin.mk 0 homeCell 0; Coin.mk 1 homeCell 1])
           startedGame).
  - reflexivity.
  - intros x [<- | [<- | []]]; discriminate.
Defined.




Section Conservation.

Lemma mementoCoins_toMomento (c : Cache.t) :
  mementoCoins (toMomento c) = List.length (Cache.coins c).
Proof.
  unfold mementoCoins, toMomento.
  rewrite JSON_parse_stringify by apply integral_cache.
  rewrite cacheOfJson_jsonOfCache. cbn [Cache.coins]. apply freshCopies_length.
Qed.

Lemma sum_set (f : string -> nat) (k old v : string) (m : JsMap.t string) :
  JsMap.get k m = Some old ->
  (list_sum (map (fun e => f (snd e)) (JsMap.set k v m)) + f old
   = list_sum (map (fun e => f (snd e)) m) + f v)%nat.
Proof.
  induction m as [| [k' v'] m IH]; cbn; [discriminate |].
  destruct (String.eqb_spec k k') as [-> | Hne]; cbn.
  - intros [= ->]. lia.
  - intros H. specialize (IH H). unfold list_sum in *. lia.
Qed.

Lemma deposit_returns (a : nat) (c : Cache.t) (g : Game) :
  nth_error (cacheObjs g) a = Some c ->
  let c' := Cache.mk (Cache.cell c) (Cache.coins c ++ rev (playerInventory g)) in
  exists g',
    deposit a g = Returned tt g' /\
    playerInventory g' = [] /\
    nth_error (cacheObjs g') a = Some c' /\
    caches g' = JsMap.set (cellToString (Cache.cell c)) (toMomento c') (caches g).
Proof.
  intros H c'. unfold deposit, withCache. rewrite H.
  eexists. split; [reflexivity |]. cbn. repeat split.
  eapply nth_error_store; eassumption.
Qed.

(** [collect] of a coin that is in the cache moves one coin: the total
    is unchanged. *)
Lemma collect_present_conserves
    (coin : Coin.t) (a : nat) (c : Cache.t) (g : Game) (pre post : list Coin.t) :
  nth_error (cacheObjs g) a = Some c ->
  Cache.coins c = pre ++ coin :: post ->
  ~ In coin pre ->
  JsMap.get (cellToString (Cache.cell c)) (caches g) = Some (toMomento c) ->
  totalCoins (finalState (collect coin a g)) = totalCoins g.
Proof.
  intros Ha Hc Hpre Hreg.
  destruct (collect_present coin a c g pre post Ha Hc Hpre)
    as (g' & -> & _ & Hi & Hs & _).
  cbn [finalState]. unfold totalCoins. rewrite Hi, Hs, length_app. cbn [List.length].
  pose proof (sum_set mementoCoins _ _
                (toMomento (Cache.mk (Cache.cell c) (pre ++ post))) _ Hreg) as E.
  rewrite !mementoCoins_toMomento, Hc in E. cbn [Cache.coins] in E.
  rewrite !length_app in E. cbn [List.length] in E. lia.
Qed.

(** [deposit] moves the whole inventory: the total is unchanged. *)
Lemma deposit_conserves (a : nat) (c : Cache.t) (g : Game) :
  nth_error (cacheObjs g) a = Some c ->
  JsMap.get (cellToString (Cache.cell c)) (caches g) = Some (toMomento c) ->
  totalCoins (finalState (deposit a g)) = totalCoins g.
Proof.
  intros Ha Hreg.
  destruct (deposit_returns a c g Ha) as (g' & -> & Hi & _ & Hs).
  cbn [finalState]. unfold totalCoins. rewrite Hi, Hs. cbn [List.length].
  pose proof (sum_set mementoCoins _ _
                (toMomento (Cache.mk (Cache.cell c)
                              (Cache.coins c ++ rev (playerInventory g)))) _ Hreg) as E.
  rewrite !mementoCoins_toMomento in E. cbn [Cache.coins] in E.
  rewrite length_app, length_rev in E. lia.
Qed.

End Conservation.


(** ** [spawnCache] *)

Section SpawnCache.

Variable luck : string -> Q.

Lemma spawnCache_fresh (cell : Cell.t) (g : Game) :
  truthy (JsMap.get (cellToString cell) (caches g)) = false ->
  spawnCache luck cell g =
  Returned tt
    (installed cell (generated luck cell (nextOid g))
       (setCaches
          (JsMap.set (cellToString cell)
             (toMomento (generated luck cell (nextOid g))) (caches g))
          (setNextOid (nextOid g + Z.to_nat (numCoins luck cell)) g))).
Proof.
  intros H. unfold spawnCache, bind, gets. rewrite H. reflexivity.
Qed.

Lemma spawnCache_load (cell : Cell.t) (g : Game) :
  truthy (JsMap.get (cellToString cell) (caches g)) = true ->
  spawnCache luck cell g =
  match fromMomento (textOf (JsMap.get (cellToString cell) (caches g))) g with
  | Returned cache gm => Returned tt (installed cell cache gm)
  | Thrown e gm => Thrown e gm
  end.
Proof.
  intros H. unfold spawnCache, bind, gets. rewrite H. cbn [negb].
  destruct (fromMomento _ g); reflexivity.
Qed.

Lemma generated_fields (cell : Cell.t) (oid : nat) :
  structEq (generated luck cell oid) (generated luck cell 0).
Proof.
  split; [reflexivity |]. unfold generated. cbn [Cache.coins].
  now rewrite !map_map.
Qed.

Lemma toMomento_generated (cell : Cell.t) (oid : nat) :
  toMomento (generated luck cell oid) = initialMemento luck cell.
Proof. apply toMomento_fields, generated_fields. Qed.

End SpawnCache.

Section FromMomento.

Lemma coinOfJson_oid (v : json) (n n' : nat) (c : Coin.t) :
  coinOfJson n v = Some c ->
  coinOfJson n' v = Some (Coin.mk n' (Coin.cell c) (Coin.serial c)).
Proof.
  unfold coinOfJson.
  destruct v as [| | | | | [| [k1 a] [| [k2 b] [| ? ?]]]]; try discriminate.
  destruct (_ && _); [| discriminate].
  destruct (cellOfJson a), (intOfJson b); try discriminate.
  now intros [= <-].
Qed.

Lemma coinsOfJson_oid (vs : list json) :
  forall n n' cs, coinsOfJson n vs = Some cs ->
    coinsOfJson n' vs = Some (freshCopies n' cs).
Proof.
  induction vs as [| v vs IH]; intros n n' cs; cbn [coinsOfJson].
  - now intros [= <-].
  - destruct (coinOfJson n v) as [c |] eqn:Ec; [| discriminate].
    destruct (coinsOfJson (S n) vs) as [cs' |] eqn:Ecs; [| discriminate].
    intros [= <-]. rewrite (coinOfJson_oid _ _ n' _ Ec), (IH _ (S n') _ Ecs).
    reflexivity.
Qed.

Lemma cacheOfJson_oid (v : json) (n n' : nat) (c : Cache.t) :
  cacheOfJson n v = Some c ->
  cacheOfJson n' v = Some (Cache.mk (Cache.cell c) (freshCopies n' (Cache.coins c))).
Proof.
  unfold cacheOfJson.
  destruct v as [| | | | | [| [k1 a] [| [k2 b] ms]]]; try discriminate.
  destruct b as [| | | | vs |]; try discriminate.
  destruct ms; try discriminate.
  destruct (_ && _); [| discriminate].
  destruct (cellOfJson a); [| discriminate].
  destruct (coinsOfJson n vs) as [cs |] eqn:Ecs; [| discriminate].
  intros [= <-]. now rewrite (coinsOfJson_oid _ _ n' _ Ecs).
Qed.

(** A memento that [fromMomento] reads once it reads again, in any
    state, into a cache with the same fields. *)
Lemma fromMomento_again (m : string) (g g1 : Game) (c : Cache.t) (h : Game) :
  fromMomento m g = Returned c g1 ->
  fromMomento m h =
  Returned (Cache.mk (Cache.cell c) (freshCopies (nextOid h) (Cache.coins c)))
    (setNextOid (nextOid h + List.length (Cache.coins c)) h).
Proof.
  unfold fromMomento. destruct (JSON_parse m) as [v |]; [| discriminate].
  destruct (cacheOfJson (nextOid g) v) as [c0 |] eqn:E; [| discriminate].
  intros [= <- _]. rewrite (cacheOfJson_oid _ _ (nextOid h) _ E).
  cbn [Cache.coins]. now rewrite freshCopies_length.
Qed.

Lemma fromMomento_frame (m : string) (g g1 : Game) (c : Cache.t) :
  fromMomento m g = Returned c g1 ->
  g1 = setNextOid (nextOid g + List.length (Cache.coins c)) g.
Proof.
  unfold fromMomento. destruct (JSON_parse m) as [v |]; [| discriminate].
  destruct (cacheOfJson (nextOid g) v) as [c0 |]; [| discriminate].
  now intros [= <- <-].
Qed.

Lemma fromMomento_thrown (m : string) (g g1 : Game) (e : Exn) :
  fromMomento m g = Thrown e g1 -> g1 = g.
Proof.
  unfold fromMomento. destruct (JSON_parse m) as [v |]; [| now intros [= _ <-]].
  destruct (cacheOfJson (nextOid g) v) as [c0 |]; [discriminate | now intros [= _ <-]].
Qed.

End FromMomento.

Section MarkerCount.
Context {V : Type}.

Lemma entriesOf_absent (k : string) (m : JsMap.t V) :
  ~ In k (JsMap.keys m) -> entriesOf k m = [].
Proof.
  induction m as [| [k' v'] m IH]; cbn; trivial.
  intros H. destruct (String.eqb_spec k' k) as [-> | Hne]; [tauto |].
  apply IH. tauto.
Qed.

Lemma entriesOf_set (k : string) (v : V) (m : JsMap.t V) :
  NoDup (JsMap.keys m) -> entriesOf k (JsMap.set k v m) = [(k, v)].
Proof.
  induction m as [| [k' v'] m IH]; cbn; intros Hnd.
  - now rewrite String.eqb_refl.
  - inversion Hnd as [| ? ? Hk Hm]; subst.
    destruct (String.eqb_spec k k') as [-> | Hne]; cbn.
    + rewrite String.eqb_refl. f_equal. now apply entriesOf_absent.
    + destruct (String.eqb_spec k' k); [congruence | now apply IH].
Qed.

Lemma keys_set (k : string) (v : V) (m : JsMap.t V) :
  JsMap.keys (JsMap.set k v m) =
  if JsMap.has k m then JsMap.keys m else JsMap.keys m ++ [k].
Proof.
  unfold JsMap.has. induction m as [| [k' v'] m IH]; cbn; trivial.
  destruct (String.eqb_spec k k') as [-> | Hne]; cbn; trivial.
  unfold JsMap.keys in *. rewrite IH. now destruct (JsMap.get k m).
Qed.

Lemma NoDup_keys_set (k : string) (v : V) (m : JsMap.t V) :
  NoDup (JsMap.keys m) -> NoDup (JsMap.keys (JsMap.set k v m)).
Proof.
  intros H. rewrite keys_set. unfold JsMap.has.
  destruct (JsMap.get k m) eqn:E; trivial.
  apply get_None_keys in E. apply NoDup_app; trivial.
  - repeat constructor. intros [].
  - intros a Ha [<- | []]. contradiction.
Qed.

End MarkerCount.

(** Claim C5 as stated fails.  After one [spawnCache] of the home cell
    a second one registers a rectangle that is not the existing marker,
    and the map goes from one rectangle to two. *)
Lemma spawnCache_twice_not_a_noop :
  exists g2 r1 r2,
    spawnCache luckHome homeCell spawnedOnce = Returned tt g2 /\
    JsMap.get (cellToString homeCell) (cacheMarkers spawnedOnce) = Some r1 /\
    JsMap.get (cellToString homeCell) (cacheMarkers g2) = Some r2 /\
    r2 <> r1 /\
    mapLayers spawnedOnce = [r1] /\
    mapLayers g2 = [r1; r2].
Proof.
  eexists _, _, _. split; [vm_compute; reflexivity |].
  split; [vm_compute; reflexivity |]. split; [vm_compute; reflexivity |].
  split; [discriminate |]. split; reflexivity.
Qed.

(** Claim C5, as amended.  A second [spawnCache] of a cell whose first
    [spawnCache] returned also returns.  Afterwards the marker registry
    has exactly one entry for the cell and the cache registry is what it
    was, but the call is not a no-op: the entry holds a new rectangle in
    place of the existing one, and both rectangles are on the map. *)
Theorem spawnCache_twice_replaces_marker
    (luck : string -> Q) (cell : Cell.t) (g g1 : Game) :
  NoDup (JsMap.keys (cacheMarkers g)) ->
  spawnCache luck cell g = Returned tt g1 ->
  exists g2 r1 r2,
    spawnCache luck cell g1 = Returned tt g2 /\
    JsMap.get (cellToString cell) (cacheMarkers g1) = Some r1 /\
    entriesOf (cellToString cell) (cacheMarkers g2) = [(cellToString cell, r2)] /\
    caches g2 = caches g1 /\
    Rectangle.rid r2 <> Rectangle.rid r1 /\
    In r1 (mapLayers g2) /\ In r2 (mapLayers g2).
Proof.
  intros Hnd H1.
  assert (Hshape : exists cache h,
            g1 = installed cell cache h /\ cacheMarkers h = cacheMarkers g /\
            exists c0 h0 h1, fromMomento
                      (textOf (JsMap.get (cellToString cell) (caches h))) h0
                    = Returned c0 h1 /\
            truthy (JsMap.get (cellToString cell) (caches h)) = true).
  { destruct (truthy (JsMap.get (cellToString cell) (caches g))) eqn:Et.
    - rewrite spawnCache_load in H1 by assumption.
      destruct (fromMomento _ g) as [cache gm | e gm] eqn:Ef; [| discriminate].
      injection H1 as <-. exists cache, gm.
      pose proof (fromMomento_frame _ _ _ _ Ef) as ->. cbn [cacheMarkers caches setNextOid].
      repeat split; trivial. exists cache, g. eexists. split; [| assumption].
      exact Ef.
    - rewrite spawnCache_fresh in H1 by assumption. injection H1 as <-.
      eexists _, _. split; [reflexivity |]. split; [reflexivity |].
      cbn [caches setCaches setNextOid]. rewrite get_set_same. cbn [textOf].
      eexists _, g, _. split; [apply fromMomento_toMomento | reflexivity]. }
  destruct Hshape as (cache & h & -> & Hm & c0 & h0 & h1 & Hf & Ht).
  rewrite spawnCache_load by exact Ht.
  cbn [caches installed setCacheMarkers setLocalStorage setMapLayers setNextRid setCacheObjs].
  rewrite (fromMomento_again _ _ _ _ (installed cell cache h) Hf).
  eexists _, (cacheRectangle cell h), _. split; [reflexivity |].
  split; [cbn; apply get_set_same |].
  split; [cbn [installed cacheMarkers setCacheMarkers setNextOid];
          apply entriesOf_set, NoDup_keys_set; now rewrite Hm |].
  split; [reflexivity |].
  split; [cbn; lia |].
  cbn. rewrite !in_app_iff. cbn. tauto.
Qed.

(** Claim C5, as amended, for the home cell at module start. *)
Lemma spawnCache_twice_replaces_marker_witness :
  exists g2 r1 r2,
    spawnCache luckHome homeCell spawnedOnce = Returned tt g2 /\
    JsMap.get (cellToString homeCell) (cacheMarkers spawnedOnce) = Some r1 /\
    entriesOf (cellToString homeCell) (cacheMarkers g2) = [(cellToString homeCell, r2)] /\
    caches g2 = caches spawnedOnce /\
    Rectangle.rid r2 <> Rectangle.rid r1 /\
    In r1 (mapLayers g2) /\ In r2 (mapLayers g2).
Proof.
  apply (spawnCache_twice_replaces_marker luckHome homeCell (moduleStart []) spawnedOnce).
  - constructor.
  - vm_compute. reflexivity.
Defined.

(** ** [loadLocalStorage] *)

Section Monad.

Lemma finalState_bind {A B : Type} (m : M A) (k : A -> M B) (g : Game) :
  finalState (bind m k g) =
  match m g with
  | Returned a g' => finalState (k a g')
  | Thrown _ g' => g'
  end.
Proof. unfold bind. now destruct (m g). Qed.

(** A property of the state that every iteration keeps is kept by the
    loop, whether it ends or throws. *)
Lemma forEach_invariant {A : Type} (P : Game -> Prop) (body : A -> M unit)
    (l : list A) :
  (forall x g, In x l -> P g -> P (finalState (body x g))) ->
  forall g, P g -> P (finalState (forEach l body g)).
Proof.
  induction l as [| x l IH]; intros Hb g Hg; cbn [forEach]; [exact Hg |].
  rewrite finalState_bind.
  pose proof (Hb x g (or_introl eq_refl) Hg) as Hx.
  destruct (body x g) as [[] g' | e g']; cbn in Hx; [| exact Hx].
  apply IH; [| exact Hx]. intros y h Hy. apply Hb. now right.
Qed.

End Monad.

Section LoadLocalStorage.



Lemma loadPlayerLocationRecord_frame (g : Game) :
  exists p h,
    finalState (loadPlayerLocationRecord g) =
    setPlayerLocation p (setPlayerMovementHistory h g).
Proof.
  unfold loadPlayerLocationRecord, bind, gets, modify, throw.
  destruct (truthy _);
    [| exists (playerLocation g), (playerMovementHistory g); now destruct g].
  destruct (JSON_parse _) as [[| | | | vs |] |];
    try (exists (playerLocation g), (playerMovementHistory g); now destruct g).
  destruct (latLngsOfJson vs) as [pts |];
    [| exists (playerLocation g), (playerMovementHistory g); now destruct g].
  destruct (last (map Some pts) None) as [p |].
  - eexists _, _. reflexivity.
  - exists (playerLocation g), pts. now destruct g.
Qed.

Lemma loadCachesRecord_missing (g : Game) :
  truthy (JsMap.get "caches" (localStorage g)) = false ->
  loadCachesRecord g = Returned tt g.
Proof. intros H. unfold loadCachesRecord, bind, gets. now rewrite H. Qed.

Lemma loadInventoryRecord_missing (g : Game) :
  truthy (JsMap.get "inventory" (localStorage g)) = false ->
  loadInventoryRecord g = Returned tt g.
Proof. intros H. unfold loadInventoryRecord, bind, gets. now rewrite H. Qed.

Lemma loadPlayerLocationRecord_missing (g : Game) :
  truthy (JsMap.get "playerLocation" (localStorage g)) = false ->
  loadPlayerLocationRecord g = Returned tt g.
Proof. intros H. unfold loadPlayerLocationRecord, bind, gets. now rewrite H. Qed.





Lemma loadLocalStorage_all_missing (g : Game) :
  truthy (JsMap.get "caches" (localStorage g)) = false ->
  truthy (JsMap.get "inventory" (localStorage g)) = false ->
  truthy (JsMap.get "playerLocation" (localStorage g)) = false ->
  loadLocalStorage g = Returned tt g.
Proof.
  intros H1 H2 H3. unfold loadLocalStorage, bind.
  rewrite loadCachesRecord_missing, loadInventoryRecord_missing by assumption.
  now apply loadPlayerLocationRecord_missing.
Qed.


End LoadLocalStorage.

(** ** [updateCaches], [initGame] and the reset button *)

(** Reduces the projections of a state built with the setters. *)
Ltac fields :=
  cbn [playerLocation playerInventory playerMovementHistory caches
       cacheMarkers mapLayers cacheObjs nextOid nextRid localStorage
       setPlayerLocation setPlayerInventory setPlayerMovementHistory
       setCaches setCacheMarkers setMapLayers setCacheObjs setNextOid
       setNextRid setLocalStorage installed finalState] in *.

Section Loops.

Lemma forEach_total {A : Type} (body : A -> M unit) (l : list A) :
  (forall x g, exists g', body x g = Returned tt g') ->
  forall g, exists g', forEach l body g = Returned tt g'.
Proof.
  intros Hb. induction l as [| x l IH]; intros g; cbn [forEach].
  - now exists g.
  - unfold bind. destruct (Hb x g) as [g1 ->]. apply IH.
Qed.

Lemma returned_final {A : Type} (o : Outcome A) (a : A) (g : Game) :
  o = Returned a g -> finalState o = g.
Proof. now intros ->. Qed.

Lemma despawnStep_total (vs : list string) (e : string * Rectangle.t) (g : Game) :
  exists g', despawnStep vs e g = Returned tt g'.
Proof. unfold despawnStep. destruct (negb _); eexists; reflexivity. Qed.

Lemma despawn_returns (g : Game) :
  forEach (cacheMarkers g)
    (despawnStep (map cellToString (getVisibleCells (playerLocation g)))) g
  = Returned tt (afterDespawn g).
Proof.
  unfold afterDespawn.
  destruct (forEach_total _ (cacheMarkers g)
              (despawnStep_total
                 (map cellToString (getVisibleCells (playerLocation g)))) g)
    as [g' ->].
  reflexivity.
Qed.

(** The despawn loop assigns the marker registry and the map layers. *)
Lemma afterDespawn_frame (g : Game) :
  exists ms ls, afterDespawn g = setCacheMarkers ms (setMapLayers ls g).
Proof.
  unfold afterDespawn.
  apply (forEach_invariant
           (fun h => exists ms ls, h = setCacheMarkers ms (setMapLayers ls g)));
    [| exists (cacheMarkers g), (mapLayers g); now destruct g].
  intros e h _ (ms & ls & ->). unfold despawnStep.
  destruct (negb _); eexists _, _; reflexivity.
Qed.

End Loops.

Section UpdateCaches.

Variable luck : string -> Q.

Lemma updateCaches_eq (g : Game) :
  updateCaches luck g =
  forEach (newCellsOf luck (afterDespawn g)) (spawnCache luck) (afterDespawn g).
Proof.
  unfold updateCaches, bind, gets.
  fold (despawnStep (map cellToString (getVisibleCells (playerLocation g)))).
  rewrite despawn_returns. unfold newCellsOf.
  destruct (afterDespawn_frame g) as (ms & ls & ->). reflexivity.
Qed.

(** The guard of [updateCaches]: it spawns no cell that has a marker,
    and no cell twice. *)
Lemma updateCaches_spawns_unmarked (g : Game) :
  NoDup (newCellsOf luck g) /\
  forall c, In c (newCellsOf luck g) ->
    JsMap.get (cellToString c) (cacheMarkers g) = None.
Proof.
  split; [apply NoDup_filter, getVisibleCells_NoDup |].
  intros c Hc. apply filter_In in Hc as [_ Hc].
  apply andb_true_iff in Hc as [Hc _]. unfold JsMap.has in Hc.
  now destruct (JsMap.get (cellToString c) (cacheMarkers g)).
Qed.

(** What [spawnCache] leaves alone, however it ends. *)
Lemma spawnCache_frame (cell : Cell.t) (g : Game) :
  let g' := finalState (spawnCache luck cell g) in
  playerLocation g' = playerLocation g /\
  playerInventory g' = playerInventory g /\
  playerMovementHistory g' = playerMovementHistory g /\
  (forall k, k <> "caches" ->
     JsMap.get k (localStorage g') = JsMap.get k (localStorage g)).
Proof.
  destruct (truthy (JsMap.get (cellToString cell) (caches g))) eqn:Et.
  - rewrite spawnCache_load by assumption.
    destruct (fromMomento _ g) as [cache gm | e gm] eqn:Ef.
    + apply fromMomento_frame in Ef. subst gm. cbn. repeat split.
      intros k Hk. now apply get_set_other.
    + apply fromMomento_thrown in Ef. subst gm. cbn. repeat split.
  - rewrite spawnCache_fresh by assumption. cbn. repeat split.
    intros k Hk. now apply get_set_other.
Qed.

Lemma spawnAll_frame (cells : list Cell.t) (g : Game) :
  let g' := finalState (forEach cells (spawnCache luck) g) in
  playerLocation g' = playerLocation g /\
  playerInventory g' = playerInventory g /\
  playerMovementHistory g' = playerMovementHistory g /\
  (forall k, k <> "caches" ->
     JsMap.get k (localStorage g') = JsMap.get k (localStorage g)).
Proof.
  apply (forEach_invariant
           (fun h => playerLocation h = playerLocation g /\
                     playerInventory h = playerInventory g /\
                     playerMovementHistory h = playerMovementHistory g /\
                     (forall k, k <> "caches" ->
                        JsMap.get k (localStorage h) = JsMap.get k (localStorage g))));
    [| repeat split].
  intros c h _ (H1 & H2 & H3 & H4).
  destruct (spawnCache_frame c h) as (F1 & F2 & F3 & F4).
  repeat split; try congruence. intros k Hk. now rewrite F4, H4.
Qed.

Lemma updateCaches_frame (g : Game) :
  let g' := finalState (updateCaches luck g) in
  playerLocation g' = playerLocation g /\
  playerInventory g' = playerInventory g /\
  playerMovementHistory g' = playerMovementHistory g /\
  (forall k, k <> "caches" ->
     JsMap.get k (localStorage g') = JsMap.get k (localStorage g)).
Proof.
  rewrite updateCaches_eq.
  destruct (spawnAll_frame (newCellsOf luck (afterDespawn g)) (afterDespawn g))
    as (F1 & F2 & F3 & F4).
  destruct (afterDespawn_frame g) as (ms & ls & E). rewrite E in *.
  cbn in *. repeat split; assumption.
Qed.

(** Spawning cells none of which is in the registry yet: each gets its
    initial memento, in order, and nothing throws. *)
Lemma spawnAll_fresh (cells : list Cell.t) :
  NoDup cells ->
  forall g,
    (forall c, In c cells -> JsMap.get (cellToString c) (caches g) = None) ->
    (forall c, In c cells -> JsMap.get (cellToString c) (cacheMarkers g) = None) ->
    exists g',
      forEach cells (spawnCache luck) g = Returned tt g' /\
      caches g' =
        caches g ++ map (fun c => (cellToString c, initialMemento luck c)) cells /\
      JsMap.keys (cacheMarkers g') =
        JsMap.keys (cacheMarkers g) ++ map cellToString cells /\
      (cells <> [] ->
       JsMap.get "caches" (localStorage g') = Some (cachesRecord (caches g'))).
Proof.
  induction 1 as [| c cells Hc Hnd IH]; intros g Hreg Hmark.
  - exists g. cbn. rewrite !app_nil_r. repeat split. congruence.
  - cbn [forEach]. unfold bind.
    pose proof (Hreg c (or_introl eq_refl)) as Hr.
    pose proof (Hmark c (or_introl eq_refl)) as Hm.
    rewrite spawnCache_fresh by now rewrite Hr.
    rewrite toMomento_generated.
    set (g1 := installed c _ _).
    assert (Hc1 : caches g1 = caches g ++ [(cellToString c, initialMemento luck c)])
      by (subst g1; fields; now apply set_absent).
    assert (Hk1 : JsMap.keys (cacheMarkers g1)
                  = JsMap.keys (cacheMarkers g) ++ [cellToString c]).
    { subst g1. fields. rewrite keys_set. unfold JsMap.has. now rewrite Hm. }
    assert (Hne : forall c', In c' cells -> cellToString c' <> cellToString c).
    { intros c' Hc' E. apply cellToString_inj in E. now subst. }
    destruct (IH g1) as (g' & Hrun & Hcs & Hks & Hst).
    { intros c' Hc'. subst g1. fields. rewrite get_set_other by now apply Hne.
      apply Hreg. now right. }
    { intros c' Hc'. subst g1. fields. rewrite get_set_other by now apply Hne.
      apply Hmark. now right. }
    exists g'. split; [exact Hrun |].
    split; [rewrite Hcs, Hc1, <- app_assoc; reflexivity |].
    split; [rewrite Hks, Hk1, <- app_assoc; reflexivity |].
    intros _. destruct cells as [| c' cells'].
    + cbn in Hrun. injection Hrun as <-. subst g1. fields. apply get_set_same.
    + apply Hst. discriminate.
Qed.

Lemma resetCaches_returns (g : Game) :
  exists ls,
    resetCaches g = Returned tt (setCacheMarkers [] (setMapLayers ls (setCaches [] g))).
Proof.
  unfold resetCaches, bind, gets. unfold modify at 1.
  match goal with
  | |- context [forEach ?l ?b ?s] =>
      destruct (forEach_total b l (fun x h => ex_intro _ _ eq_refl) s) as [g' Hrun];
      assert (Hf : exists ls, g' = setMapLayers ls (setCaches [] g))
  end.
  { apply returned_final in Hrun. rewrite <- Hrun.
    apply (forEach_invariant (fun h => exists ls, h = setMapLayers ls (setCaches [] g)));
      [| exists (mapLayers g); reflexivity].
    intros e h _ [ls ->]. eexists. reflexivity. }
  destruct Hf as [ls ->]. exists ls. now rewrite Hrun.
Qed.

(** [initGame] when local storage is empty. *)
Lemma initGame_empty_storage (g : Game) :
  localStorage g = [] ->
  exists g',
    initGame luck g = Returned tt g' /\
    playerInventory g' = [] /\
    playerLocation g' = initialPlayerLocation /\
    playerMovementHistory g' = [initialPlayerLocation] /\
    caches g' = map (fun c => (cellToString c, initialMemento luck c)) (homeCaches luck) /\
    JsMap.keys (cacheMarkers g') = map cellToString (homeCaches luck) /\
    JsMap.get "playerLocation" (localStorage g') = None /\
    JsMap.get "inventory" (localStorage g') = Some "[]"%string /\
    JsMap.get "caches" (localStorage g') =
      match homeCaches luck with
      | [] => None
      | _ :: _ => Some (cachesRecord (caches g'))
      end.
Proof.
  intros Hs. unfold initGame, loadDataFromLocalStorage.
  unfold bind at 1. unfold initializeUI at 1, bind at 1, modify at 1 2.
  unfold bind at 1. unfold resetPlayerState at 1, bind at 1, modify at 1 2.
  unfold bind at 1.
  match goal with
  | |- context [resetCaches ?h] => pose proof (resetCaches_returns h) as [ls Hrc]
  end.
  rewrite Hrc. clear Hrc.
  match goal with
  | |- context [(loadLocalStorage ;; _) ?h] => set (s := h)
  end.
  assert (S1 : playerInventory s = []) by reflexivity.
  assert (S2 : playerLocation s = initialPlayerLocation) by reflexivity.
  assert (S3 : playerMovementHistory s = [initialPlayerLocation]) by reflexivity.
  assert (S4 : caches s = []) by reflexivity.
  assert (S5 : cacheMarkers s = []) by reflexivity.
  assert (S6 : localStorage s = []) by exact Hs.
  clearbody s.
  unfold bind at 1.
  rewrite loadLocalStorage_all_missing by (rewrite S6; reflexivity).
  unfold bind at 1. rewrite updateCaches_eq.
  assert (Hd : afterDespawn s = s).
  { unfold afterDespawn. rewrite S5. reflexivity. }
  rewrite Hd.
  assert (Hn : newCellsOf luck s = homeCaches luck).
  { unfold newCellsOf, homeCaches. rewrite S5, S2. reflexivity. }
  rewrite Hn.
  destruct (spawnAll_fresh (homeCaches luck)) with (g := s)
    as (g' & Hrun & Hcs & Hks & Hst).
  { apply NoDup_filter, getVisibleCells_NoDup. }
  { intros c _. now rewrite S4. }
  { intros c _. now rewrite S5. }
  rewrite Hrun.
  destruct (spawnAll_frame (homeCaches luck) s) as (F1 & F2 & F3 & F4).
  rewrite Hrun in F1, F2, F3, F4. cbn [finalState] in F1, F2, F3, F4.
  rewrite S4 in Hcs. rewrite S5 in Hks. cbn [app JsMap.keys map] in Hcs, Hks.
  eexists. split; [reflexivity |].
  cbn [playerInventory playerLocation playerMovementHistory caches cacheMarkers
       localStorage setLocalStorage].
  rewrite F1, F2, F3, S1, S2, S3.
  repeat split; trivial.
  - rewrite get_set_other by discriminate. rewrite F4 by discriminate.
    now rewrite S6.
  - rewrite get_set_same. reflexivity.
  - rewrite get_set_other by discriminate.
    destruct (homeCaches luck) as [| c cs] eqn:Eh.
    + cbn [forEach] in Hrun. injection Hrun as <-. now rewrite S6.
    + apply Hst. discriminate.
Qed.

End UpdateCaches.



(** ** Missing and corrupt records *)

Section InitGame.

Variable luck : string -> Q.

(** [initGame] up to the point where it loads local storage. *)
Lemma initGame_prefix (g : Game) :
  exists s,
    initGame luck g = (loadLocalStorage ;; updateCaches luck ;; displayInventory) s /\
    playerInventory s = [] /\
    playerLocation s = initialPlayerLocation /\
    playerMovementHistory s = [initialPlayerLocation] /\
    caches s = [] /\
    cacheMarkers s = [] /\
    localStorage s = localStorage g.
Proof.
  unfold initGame, loadDataFromLocalStorage.
  unfold bind at 1. unfold initializeUI at 1, bind at 1, modify at 1 2.
  unfold bind at 1. unfold resetPlayerState at 1, bind at 1, modify at 1 2.
  unfold bind at 1.
  match goal with
  | |- context [resetCaches ?h] => pose proof (resetCaches_returns h) as [ls Hrc]
  end.
  rewrite Hrc. clear Hrc.
  eexists. split; [reflexivity |]. repeat split.
Qed.



End InitGame.




(** ** Despawning *)

Section MapMore.
Context {V : Type}.

Lemma get_In (k : string) (v : V) (m : JsMap.t V) :
  JsMap.get k m = Some v -> In (k, v) m.
Proof.
  induction m as [| [k' v'] m IH]; cbn; [discriminate |].
  destruct (String.eqb_spec k k') as [-> | Hne].
  - intros [= ->]. now left.
  - intros H. right. now apply IH.
Qed.

Lemma In_set (k k' : string) (v v' : V) (m : JsMap.t V) :
  In (k, v) (JsMap.set k' v' m) -> (k, v) = (k', v') \/ In (k, v) m.
Proof.
  induction m as [| [k0 v0] m IH]; cbn.
  - intros [E | []]. left. congruence.
  - destruct (String.eqb_spec k' k0) as [-> | Hne]; cbn.
    + intros [E | H]; [left; congruence | right; now right].
    + intros [E | H]; [right; now left |].
      destruct (IH H) as [E | H']; [now left | right; now right].
Qed.

Lemma get_delete_other (k k' : string) (m : JsMap.t V) :
  JsMap.get k m = None -> JsMap.get k (JsMap.delete k' m) = None.
Proof.
  induction m as [| [k0 v0] m IH]; cbn; trivial.
  destruct (String.eqb_spec k k0) as [-> | Hne]; [discriminate |].
  intros H. destruct (String.eqb_spec k' k0); trivial. cbn.
  destruct (String.eqb_spec k k0); [contradiction | now apply IH].
Qed.

Lemma entriesOf_get (k : string) (m : JsMap.t V) :
  entriesOf k m = [] <-> JsMap.get k m = None.
Proof.
  induction m as [| [k0 v0] m IH]; cbn; [tauto |].
  rewrite (String.eqb_sym k0 k).
  destruct (String.eqb_spec k k0); [split; discriminate | exact IH].
Qed.

Lemma entriesOf_delete_same (k : string) (m : JsMap.t V) :
  List.length (entriesOf k (JsMap.delete k m)) = pred (List.length (entriesOf k m)).
Proof.
  induction m as [| [k0 v0] m IH]; cbn; trivial.
  rewrite (String.eqb_sym k0 k).
  destruct (String.eqb_spec k k0) as [-> | Hne]; cbn; trivial.
  rewrite (String.eqb_sym k0 k).
  destruct (String.eqb_spec k k0); [contradiction | exact IH].
Qed.

Lemma entriesOf_delete_other (k k' : string) (m : JsMap.t V) :
  k <> k' -> entriesOf k (JsMap.delete k' m) = entriesOf k m.
Proof.
  intros Hne. induction m as [| [k0 v0] m IH]; cbn; trivial.
  destruct (String.eqb_spec k' k0) as [-> | Hne0]; cbn.
  - destruct (String.eqb_spec k0 k); [congruence | reflexivity].
  - destruct (String.eqb_spec k0 k); [f_equal |]; exact IH.
Qed.

End MapMore.

Section Despawn.

Variable vs : list string.
Variable k : string.

(** The despawn loop never adds a marker. *)
Lemma despawn_loop_keeps_absent (l : list (string * Rectangle.t)) (g : Game) :
  JsMap.get k (cacheMarkers g) = None ->
  JsMap.get k (cacheMarkers (finalState (forEach l (despawnStep vs) g))) = None.
Proof.
  apply (forEach_invariant (fun h => JsMap.get k (cacheMarkers h) = None)).
  intros e h _ Hh. unfold despawnStep.
  destruct (negb _); [| exact Hh]. cbn. now apply get_delete_other.
Qed.

(** A marker whose key is not in the visible set does not survive the
    loop over the entries of the marker registry. *)
Lemma despawn_loop_removes (l : list (string * Rectangle.t)) :
  existsb (String.eqb k) vs = false ->
  forall g,
    (List.length (entriesOf k (cacheMarkers g)) <= List.length (entriesOf k l))%nat ->
    JsMap.get k (cacheMarkers (finalState (forEach l (despawnStep vs) g))) = None.
Proof.
  intros Hk. induction l as [| [k' r] l IH]; intros g Hc.
  - cbn in Hc |- *. apply entriesOf_get.
    destruct (entriesOf k (cacheMarkers g)); [reflexivity | cbn in Hc; lia].
  - cbn [forEach]. rewrite finalState_bind.
    unfold despawnStep at 1. cbn [fst snd].
    destruct (existsb (String.eqb k') vs) eqn:Ev; cbn [negb].
    + cbn [ret]. apply IH. cbn [entriesOf filter fst] in Hc.
      destruct (String.eqb_spec k' k) as [-> | Hne]; [congruence | exact Hc].
    + unfold bind, modify. apply IH. fields. cbn [entriesOf filter fst] in Hc.
      destruct (String.eqb_spec k' k) as [-> | Hne].
      * rewrite entriesOf_delete_same. cbn [List.length] in Hc.
        fold (entriesOf k l) in Hc. unfold removeLayer in *. fields. lia.
      * rewrite entriesOf_delete_other by congruence.
        fold (entriesOf k l) in Hc. unfold removeLayer. fields. exact Hc.
Qed.

End Despawn.

Section Visible.

Lemma key_not_visible (cell : Cell.t) (coord : LatLng.t) :
  ~ In cell (getVisibleCells coord) ->
  existsb (String.eqb (cellToString cell)) (map cellToString (getVisibleCells coord))
  = false.
Proof.
  intros H. destruct (existsb _ _) eqn:E; trivial. exfalso. apply H.
  apply existsb_exists in E as (s & Hs & Heq).
  apply in_map_iff in Hs as (c & <- & Hc).
  apply String.eqb_eq, cellToString_inj in Heq. now subst.
Qed.

Lemma afterDespawn_not_visible (cell : Cell.t) (g : Game) :
  ~ In cell (getVisibleCells (playerLocation g)) ->
  JsMap.get (cellToString cell) (cacheMarkers (afterDespawn g)) = None.
Proof.
  intros H. unfold afterDespawn.
  apply despawn_loop_removes; [now apply key_not_visible | lia].
Qed.

Lemma afterDespawn_absent (k : string) (g : Game) :
  JsMap.get k (cacheMarkers g) = None ->
  JsMap.get k (cacheMarkers (afterDespawn g)) = None.
Proof. apply despawn_loop_keeps_absent. Qed.

Lemma afterDespawn_rest (g : Game) :
  caches (afterDespawn g) = caches g /\
  cacheObjs (afterDespawn g) = cacheObjs g /\
  playerLocation (afterDespawn g) = playerLocation g.
Proof. destruct (afterDespawn_frame g) as (ms & ls & ->). repeat split. Qed.

End Visible.

(** ** Respawning *)

Section Registry.

Lemma toMomento_inj (a b : Cache.t) : toMomento a = toMomento b -> structEq a b.
Proof.
  intros E.
  pose proof (fromMomento_toMomento a (moduleStart [])) as Ha.
  pose proof (fromMomento_toMomento b (moduleStart [])) as Hb.
  rewrite E, Hb in Ha. injection Ha as Hc Hf _.
  split; [congruence |].
  rewrite <- (freshCopies_fields (Cache.coins a) 0),
          <- (freshCopies_fields (Cache.coins b) 0).
  now rewrite Hf.
Qed.

Lemma registryOk_set (g : Game) (c : Cache.t) (h : Game) :
  registryOk g ->
  caches h = JsMap.set (cellToString (Cache.cell c)) (toMomento c) (caches g) ->
  registryOk h.
Proof.
  intros Hg Hh k m Hin. rewrite Hh in Hin.
  destruct (In_set _ _ _ _ _ Hin) as [[= -> ->] | H]; [now exists c | now apply Hg].
Qed.

Lemma registryOk_same (g h : Game) :
  registryOk g -> caches h = caches g -> registryOk h.
Proof. intros Hg Hh k m Hin. rewrite Hh in Hin. now apply Hg. Qed.

End Registry.

Section SpawnOk.

Variable luck : string -> Q.

(** [spawnCache] on a well-formed registry: it returns, the new cache
    object is a cache of the cell, the registry holds its memento, and
    no other entry of the registry changes. *)
Lemma spawnCache_ok (cell : Cell.t) (g : Game) :
  registryOk g ->
  exists g' c,
    spawnCache luck cell g = Returned tt g' /\
    registryOk g' /\
    cacheObjs g' = cacheObjs g ++ [c] /\
    Cache.cell c = cell /\
    JsMap.get (cellToString cell) (caches g') = Some (toMomento c) /\
    (forall k m, JsMap.get k (caches g) = Some m -> JsMap.get k (caches g') = Some m) /\
    cacheMarkers g' =
      JsMap.set (cellToString cell)
        (Rectangle.mk (nextRid g)
           (Rectangle.southWest (cacheRectangle cell g))
           (Rectangle.northEast (cacheRectangle cell g))
           (List.length (cacheObjs g)))
        (cacheMarkers g) /\
    playerLocation g' = playerLocation g.
Proof.
  intros Hok.
  destruct (JsMap.get (cellToString cell) (caches g)) as [m |] eqn:Eg.
  - destruct (Hok _ _ (get_In _ _ _ Eg)) as (c0 & -> & Hk).
    apply cellToString_inj in Hk.
    rewrite spawnCache_load by (rewrite Eg; reflexivity).
    rewrite Eg. cbn [textOf]. rewrite fromMomento_toMomento.
    eexists _, _. split; [reflexivity |].
    split; [now apply (registryOk_same g) |].
    split; [reflexivity |]. split; [now cbn |].
    split; [fields; rewrite Eg; f_equal; apply toMomento_fields;
            split; [reflexivity | cbn; now rewrite freshCopies_fields] |].
    split; [now fields |]. split; reflexivity.
  - rewrite spawnCache_fresh by (rewrite Eg; reflexivity).
    eexists _, _. split; [reflexivity |].
    split; [apply (registryOk_set g (generated luck cell (nextOid g))); trivial |].
    split; [reflexivity |]. split; [reflexivity |].
    split; [fields; apply get_set_same |].
    split; [| split; reflexivity].
    intros k m Hk. fields. rewrite get_set_other; trivial.
    intros ->. congruence.
Qed.

(** Spawning cells other than [cell] leaves the marker and the registry
    entry of [cell] alone, and every cache object where it is. *)
Lemma spawnAll_other (cell : Cell.t) (cells : list Cell.t) :
  ~ In cell cells ->
  forall g, registryOk g ->
    exists g' extra,
      forEach cells (spawnCache luck) g = Returned tt g' /\
      registryOk g' /\
      cacheObjs g' = cacheObjs g ++ extra /\
      JsMap.get (cellToString cell) (cacheMarkers g')
      = JsMap.get (cellToString cell) (cacheMarkers g) /\
      (forall k m, JsMap.get k (caches g) = Some m -> JsMap.get k (caches g') = Some m).
Proof.
  induction cells as [| x cells IH]; intros Hn g Hok.
  - exists g, []. rewrite app_nil_r. repeat split; trivial.
  - cbn [forEach]. unfold bind.
    destruct (spawnCache_ok x g Hok) as (g1 & c & -> & Hok1 & Ho1 & _ & _ & Hp1 & Hm1 & _).
    destruct (IH (fun H => Hn (or_intror H)) g1 Hok1)
      as (g' & extra & Hrun & Hok' & Ho' & Hm' & Hp').
    exists g', (c :: extra). split; [exact Hrun |]. split; [exact Hok' |].
    split; [rewrite Ho', Ho1, <- app_assoc; reflexivity |].
    split; [| intros k m Hk; apply Hp', Hp1, Hk].
    rewrite Hm', Hm1. apply get_set_other.
    intros E. apply cellToString_inj in E. apply Hn. now left.
Qed.

(** Spawning a list of cells that contains [cell], whose memento is in
    the registry: the marker of [cell] ends up bound to a cache object
    read from that memento. *)
Lemma spawnAll_restores (cell : Cell.t) (c0 : Cache.t) (cells : list Cell.t) :
  NoDup cells -> In cell cells ->
  forall g, registryOk g ->
    JsMap.get (cellToString cell) (caches g) = Some (toMomento c0) ->
    exists g' r c,
      forEach cells (spawnCache luck) g = Returned tt g' /\
      registryOk g' /\
      JsMap.get (cellToString cell) (cacheMarkers g') = Some r /\
      nth_error (cacheObjs g') (Rectangle.popupCache r) = Some c /\
      structEq c c0 /\
      JsMap.get (cellToString cell) (caches g') = Some (toMomento c0).
Proof.
  induction 1 as [| x cells Hx Hnd IH]; intros Hin g Hok Hreg; [destruct Hin |].
  cbn [forEach]. unfold bind.
  destruct (spawnCache_ok x g Hok)
    as (g1 & c & -> & Hok1 & Ho1 & Hc1 & Hr1 & Hp1 & Hm1 & _).
  destruct Hin as [-> | Hin].
  - destruct (spawnAll_other cell cells Hx g1 Hok1)
      as (g' & extra & Hrun & Hok' & Ho' & Hm' & Hp').
    exists g', (Rectangle.mk (nextRid g)
                  (Rectangle.southWest (cacheRectangle cell g))
                  (Rectangle.northEast (cacheRectangle cell g))
                  (List.length (cacheObjs g))), c.
    split; [exact Hrun |]. split; [exact Hok' |].
    split; [rewrite Hm', Hm1; apply get_set_same |].
    split; [cbn [Rectangle.popupCache]; rewrite Ho', Ho1, <- app_assoc;
            rewrite nth_error_app2 by lia; now rewrite Nat.sub_diag |].
    split; [apply toMomento_inj; rewrite (Hp1 _ _ Hreg) in Hr1; congruence |].
    now apply Hp', Hp1.
  - apply IH; trivial. now apply Hp1.
Qed.

(** From a well-formed registry no spawn throws, and the registry stays
    well formed. *)
Lemma spawnAll_ok (cells : list Cell.t) :
  forall g, registryOk g ->
    exists g', forEach cells (spawnCache luck) g = Returned tt g' /\ registryOk g'.
Proof.
  induction cells as [| x cells IH]; intros g Hok.
  - now exists g.
  - cbn [forEach]. unfold bind.
    destruct (spawnCache_ok x g Hok) as (g1 & c & -> & Hok1 & _).
    apply IH, Hok1.
Qed.

Lemma updateCaches_ok (g : Game) :
  registryOk g ->
  exists g', updateCaches luck g = Returned tt g' /\ registryOk g'.
Proof.
  intros Hok. rewrite updateCaches_eq. apply spawnAll_ok.
  destruct (afterDespawn_rest g) as (Dc & _). now apply (registryOk_same g).
Qed.

(** The center button on a cell that has a marker spawns nothing: the
    marker registry, the map and the cache registry stay as they are. *)
Lemma centerClick_marked (coin : Coin.t) (g : Game) (r : Rectangle.t) :
  JsMap.get (cellToString (Coin.cell coin)) (cacheMarkers g) = Some r ->
  let g' := finalState (centerClick luck coin g) in
  cacheMarkers g' = cacheMarkers g /\ mapLayers g' = mapLayers g /\
  caches g' = caches g /\ cacheObjs g' = cacheObjs g.
Proof.
  intros Hm. unfold centerClick, bind, gets.
  destruct (JsMap.get (cellToString (Coin.cell coin)) (caches g)) as [m |];
    [| repeat split].
  destruct (fromMomento m g) as [c gm | e gm] eqn:Ef.
  - apply fromMomento_frame in Ef. subst gm.
    cbn [cacheMarkers setNextOid]. rewrite Hm. repeat split.
  - apply fromMomento_thrown in Ef. subst gm. repeat split.
Qed.

End SpawnOk.

Section MovePlayer.

Variable luck : string -> Q.

Lemma movePlayer_eq (i j : Q) (g : Game) :
  exists h,
    movePlayer luck i j g = updateCaches luck h /\
    playerLocation h = LatLng.mk i j /\
    caches h = caches g /\
    cacheMarkers h = cacheMarkers g /\
    cacheObjs h = cacheObjs g.
Proof. eexists. split; [reflexivity |]. repeat split. Qed.

(** A move to a place from which [cell] is not visible: the marker of
    [cell] is gone, its registry entry and the cache objects stay. *)
Lemma movePlayer_away (cell : Cell.t) (i j : Q) (g : Game) (m : string) :
  registryOk g ->
  ~ In cell (getVisibleCells (LatLng.mk i j)) ->
  JsMap.get (cellToString cell) (caches g) = Some m ->
  exists g',
    movePlayer luck i j g = Returned tt g' /\
    registryOk g' /\
    JsMap.get (cellToString cell) (cacheMarkers g') = None /\
    JsMap.get (cellToString cell) (caches g') = Some m.
Proof.
  intros Hok Hv Hreg.
  destruct (movePlayer_eq i j g) as (h & -> & Hl & Hc & Hm & Ho).
  rewrite updateCaches_eq.
  destruct (afterDespawn_rest h) as (Dc & Do & Dl).
  assert (Hn : ~ In cell (newCellsOf luck (afterDespawn h))).
  { unfold newCellsOf. rewrite filter_In, Dl, Hl. tauto. }
  destruct (spawnAll_other luck cell _ Hn (afterDespawn h))
    as (g' & extra & Hrun & Hok' & _ & Hm' & Hp').
  { apply (registryOk_same g); trivial. congruence. }
  exists g'. split; [exact Hrun |]. split; [exact Hok' |].
  split; [rewrite Hm'; apply afterDespawn_not_visible; now rewrite Hl |].
  apply Hp'. now rewrite Dc, Hc.
Qed.

(** A move to a place from which [cell] is visible, when [cell] has no
    marker, passes the spawn test and has a memento in the registry. *)
Lemma movePlayer_back (cell : Cell.t) (c0 : Cache.t) (i j : Q) (g : Game) :
  registryOk g ->
  In cell (getVisibleCells (LatLng.mk i j)) ->
  Qltb (luck (cellToString cell)) CACHE_SPAWN_PROBABILITY = true ->
  JsMap.get (cellToString cell) (cacheMarkers g) = None ->
  JsMap.get (cellToString cell) (caches g) = Some (toMomento c0) ->
  exists g' r c,
    movePlayer luck i j g = Returned tt g' /\
    registryOk g' /\
    JsMap.get (cellToString cell) (cacheMarkers g') = Some r /\
    nth_error (cacheObjs g') (Rectangle.popupCache r) = Some c /\
    structEq c c0 /\
    JsMap.get (cellToString cell) (caches g') = Some (toMomento c0).
Proof.
  intros Hok Hv Hl Hmk Hreg.
  destruct (movePlayer_eq i j g) as (h & -> & Hloc & Hc & Hm & Ho).
  rewrite updateCaches_eq.
  destruct (afterDespawn_rest h) as (Dc & Do & Dl).
  apply spawnAll_restores.
  - apply NoDup_filter, getVisibleCells_NoDup.
  - unfold newCellsOf. rewrite filter_In, Dl, Hloc. split; [exact Hv |].
    unfold JsMap.has. rewrite afterDespawn_absent by congruence. now rewrite Hl.
  - apply (registryOk_same g); trivial. congruence.
  - now rewrite Dc, Hc.
Qed.

Lemma movePlayer_ok (i j : Q) (g : Game) :
  registryOk g ->
  exists g', movePlayer luck i j g = Returned tt g' /\ registryOk g'.
Proof.
  intros Hok. destruct (movePlayer_eq i j g) as (h & -> & _ & Hc & _).
  apply updateCaches_ok. now apply (registryOk_same g).
Qed.

End MovePlayer.

Section RegistryInvariant.

(** [collect] and [deposit] save the memento of the cache under the key
    of its cell: the registry stays well formed. *)
Lemma collect_ok (coin : Coin.t) (a : nat) (g : Game) :
  registryOk g ->
  exists g', collect coin a g = Returned tt g' /\ registryOk g'.
Proof.
  intros Hok. destruct (nth_error (cacheObjs g) a) as [c |] eqn:Ha.
  - destruct (collect_returns coin a c g Ha) as (g' & Hr & _ & _ & Hs & _).
    exists g'. split; [exact Hr |]. eapply registryOk_set; eassumption.
  - unfold collect, bind, modify, withCache. cbn [cacheObjs setPlayerInventory].
    rewrite Ha. eexists. split; [reflexivity |]. exact Hok.
Qed.

Lemma deposit_ok (a : nat) (g : Game) :
  registryOk g ->
  exists g', deposit a g = Returned tt g' /\ registryOk g'.
Proof.
  intros Hok. unfold deposit, withCache.
  destruct (nth_error (cacheObjs g) a) as [c |] eqn:Ha; [| now exists g].
  eexists. split; [reflexivity |].
  eapply (registryOk_set g (Cache.mk (Cache.cell c)
                              (Cache.coins c ++ rev (playerInventory g))));
    [exact Hok | reflexivity].
Qed.

(** A game opened on empty storage starts with a well-formed registry. *)
Lemma initGame_ok (luck : string -> Q) (g : Game) :
  localStorage g = [] ->
  exists g', initGame luck g = Returned tt g' /\ registryOk g'.
Proof.
  intros Hs. destruct (initGame_empty_storage luck g Hs) as (g' & Hr & _ & _ & _ & Hc & _).
  exists g'. split; [exact Hr |]. intros k m Hin. rewrite Hc in Hin.
  apply in_map_iff in Hin as (c & [= <- <-] & _).
  now exists (generated luck c 0).
Qed.

End RegistryInvariant.

(** ** Respawn fidelity *)

(** Claim C1.  For every cell: a [spawnCache] that finds no memento
    creates it from the cell's coordinates alone ([initialMemento]); a
    [spawnCache] that finds a saved memento loads it, builds a cache
    with the same fields and leaves the registry as it is; no
    [spawnCache], of whatever cell, changes a memento that is in the
    registry; and after spawning the cell, collecting one coin of its
    cache, moving to where the cell is outside the neighbourhood (its
    marker is removed) and moving back, the cache bound to the new
    marker holds the original coins without the collected one. *)
Theorem memento_created_once_and_restored
    (luck : string -> Q) (cell : Cell.t) :
  (* the first spawn creates the memento from the coordinates *)
  (forall g,
     truthy (JsMap.get (cellToString cell) (caches g)) = false ->
     exists g',
       spawnCache luck cell g = Returned tt g' /\
       JsMap.get (cellToString cell) (caches g') = Some (initialMemento luck cell) /\
       nth_error (cacheObjs g') (List.length (cacheObjs g))
       = Some (generated luck cell (nextOid g))) /\
  (* a later spawn loads the saved memento and leaves the registry alone *)
  (forall g c0,
     JsMap.get (cellToString cell) (caches g) = Some (toMomento c0) ->
     exists g' c,
       spawnCache luck cell g = Returned tt g' /\
       caches g' = caches g /\
       nth_error (cacheObjs g') (List.length (cacheObjs g)) = Some c /\
       structEq c c0) /\
  (* no spawn, of any cell, overwrites a memento that is there *)
  (forall cell' g k m,
     JsMap.get k (caches g) = Some m -> truthy (Some m) = true ->
     JsMap.get k (caches (finalState (spawnCache luck cell' g))) = Some m) /\
  (* spawn, collect one coin, move out of range, move back *)
  (forall g far_i far_j near_i near_j,
     registryOk g ->
     ~ In cell (getVisibleCells (LatLng.mk far_i far_j)) ->
     In cell (getVisibleCells (LatLng.mk near_i near_j)) ->
     Qltb (luck (cellToString cell)) CACHE_SPAWN_PROBABILITY = true ->
     exists g1 c0,
       spawnCache luck cell g = Returned tt g1 /\
       nth_error (cacheObjs g1) (List.length (cacheObjs g)) = Some c0 /\
       Cache.cell c0 = cell /\
       forall coin pre post,
         Cache.coins c0 = pre ++ coin :: post -> ~ In coin pre ->
         exists g2 g3 g4 r c,
           collect coin (List.length (cacheObjs g)) g1 = Returned tt g2 /\
           movePlayer luck far_i far_j g2 = Returned tt g3 /\
           JsMap.get (cellToString cell) (cacheMarkers g3) = None /\
           movePlayer luck near_i near_j g3 = Returned tt g4 /\
           JsMap.get (cellToString cell) (cacheMarkers g4) = Some r /\
           nth_error (cacheObjs g4) (Rectangle.popupCache r) = Some c /\
           Cache.cell c = cell /\
           map Coin.fields (Cache.coins c) = map Coin.fields (pre ++ post)).
Proof.
  split; [| split; [| split]].
  - intros g Hf. rewrite spawnCache_fresh by assumption.
    eexists. split; [reflexivity |]. split.
    + fields. rewrite get_set_same. now rewrite toMomento_generated.
    + fields. rewrite nth_error_app2 by lia. now rewrite Nat.sub_diag.
  - intros g c0 Hreg.
    rewrite spawnCache_load by (rewrite Hreg; reflexivity).
    rewrite Hreg. cbn [textOf]. rewrite fromMomento_toMomento.
    eexists _, _. split; [reflexivity |]. split; [reflexivity |]. split.
    + fields. rewrite nth_error_app2 by lia. now rewrite Nat.sub_diag.
    + split; [reflexivity | apply freshCopies_fields].
  - intros cell' g k m Hk Ht.
    destruct (truthy (JsMap.get (cellToString cell') (caches g))) eqn:Et.
    + rewrite spawnCache_load by assumption.
      destruct (fromMomento _ g) as [cache gm | e gm] eqn:Ef.
      * apply fromMomento_frame in Ef. subst gm. exact Hk.
      * apply fromMomento_thrown in Ef. now subst gm.
    + rewrite spawnCache_fresh by assumption. fields.
      rewrite get_set_other; trivial. intros ->. rewrite Hk in Et. congruence.
  - intros g far_i far_j near_i near_j Hok Hfar Hnear Hluck.
    destruct (spawnCache_ok luck cell g Hok)
      as (g1 & c0 & Hrun & Hok1 & Ho1 & Hc1 & Hr1 & _ & Hm1 & _).
    exists g1, c0. split; [exact Hrun |].
    assert (Ha : nth_error (cacheObjs g1) (List.length (cacheObjs g)) = Some c0).
    { rewrite Ho1, nth_error_app2 by lia. now rewrite Nat.sub_diag. }
    split; [exact Ha |]. split; [exact Hc1 |].
    intros coin pre post Hcoins Hpre.
    destruct (collect_present coin _ c0 g1 pre post Ha Hcoins Hpre)
      as (g2 & Hcol & _ & _ & Hs2 & Hm2).
    rewrite Hc1 in Hs2.
    assert (Hok2 : registryOk g2).
    { now apply (registryOk_set g1 (Cache.mk cell (pre ++ post))). }
    assert (Hreg2 : JsMap.get (cellToString cell) (caches g2)
                    = Some (toMomento (Cache.mk cell (pre ++ post)))).
    { rewrite Hs2. apply get_set_same. }
    destruct (movePlayer_away luck cell far_i far_j g2 _ Hok2 Hfar Hreg2)
      as (g3 & Hmv3 & Hok3 & Hmk3 & Hreg3).
    destruct (movePlayer_back luck cell _ near_i near_j g3 Hok3 Hnear Hluck Hmk3 Hreg3)
      as (g4 & r & c & Hmv4 & _ & Hmk4 & Hobj4 & [Hcell Hfields] & _).
    exists g2, g3, g4, r, c. repeat split; trivial.
Qed.

Section Witnesses.

Lemma far_floor : Qfloor (40 / TILE_DEGREES)%Q = 400000.
Proof. reflexivity. Qed.

Lemma home_floor :
  Qfloor (LatLng.lat initialPlayerLocation / TILE_DEGREES)%Q = 369894 /\
  Qfloor (LatLng.lng initialPlayerLocation / TILE_DEGREES)%Q = -1220628.
Proof. split; reflexivity. Qed.

End Witnesses.

(** Claim C1, the respawn scenario for the home cell: the player moves
    to latitude 40, longitude -122 and back home. *)
Lemma memento_created_once_and_restored_witness :
  exists g1 c0,
    spawnCache luckHome homeCell (moduleStart []) = Returned tt g1 /\
    nth_error (cacheObjs g1) (List.length (cacheObjs (moduleStart []))) = Some c0 /\
    Cache.cell c0 = homeCell /\
    forall coin pre post,
      Cache.coins c0 = pre ++ coin :: post -> ~ In coin pre ->
      exists g2 g3 g4 r c,
        collect coin (List.length (cacheObjs (moduleStart []))) g1 = Returned tt g2 /\
        movePlayer luckHome 40 (-122) g2 = Returned tt g3 /\
        JsMap.get (cellToString homeCell) (cacheMarkers g3) = None /\
        movePlayer luckHome (LatLng.lat initialPlayerLocation)
          (LatLng.lng initialPlayerLocation) g3 = Returned tt g4 /\
        JsMap.get (cellToString homeCell) (cacheMarkers g4) = Some r /\
        nth_error (cacheObjs g4) (Rectangle.popupCache r) = Some c /\
        Cache.cell c = homeCell /\
        map Coin.fields (Cache.coins c) = map Coin.fields (pre ++ post).
Proof.
  apply (proj2 (proj2 (proj2 (memento_created_once_and_restored luckHome homeCell)))).
  - intros k m [].
  - intros H. apply getVisibleCells_In in H. cbn [LatLng.lat LatLng.lng] in H.
    rewrite far_floor in H. unfold NEIGHBORHOOD_SIZE, homeCell in H.
    cbn [Cell.i Cell.j] in H. lia.
  - apply getVisibleCells_In. cbn [LatLng.lat LatLng.lng].
    destruct home_floor as [-> ->].
    unfold NEIGHBORHOOD_SIZE, homeCell. cbn [Cell.i Cell.j]. lia.
  - vm_compute. reflexivity.
Defined.

(** ** Sessions *)

Section Synced.

Lemma In_first (coin : Coin.t) (l : list Coin.t) :
  In coin l -> exists pre post, l = pre ++ coin :: post /\ ~ In coin pre.
Proof.
  induction l as [| x l IH]; intros H; [destruct H |].
  destruct (Coin.same x coin) eqn:E.
  - apply same_eq in E. subst x. exists [], l. split; [reflexivity | intros []].
  - destruct H as [-> | H].
    + replace (Coin.same coin coin) with true in E by (symmetry; now apply same_eq).
      discriminate.
    + destruct (IH H) as (pre & post & -> & Hn).
      exists (x :: pre), post. split; [reflexivity |].
      intros [-> | H']; [| contradiction].
      replace (Coin.same coin coin) with true in E by (symmetry; now apply same_eq).
      discriminate.
Qed.

Lemma nth_error_store_other {A : Type} (l : list A) (a b : nat) (y : A) :
  (a < List.length l)%nat -> a <> b ->
  nth_error (firstn a l ++ y :: skipn (S a) l) b = nth_error l b.
Proof.
  revert a b. induction l as [| x l IH]; intros a b Ha Hab; [cbn in Ha; lia |].
  destruct a as [| a]; destruct b as [| b]; cbn; trivial; try lia.
  apply IH; cbn in Ha; lia.
Qed.

Lemma In_get_NoDup {V : Type} (k : string) (v : V) (m : JsMap.t V) :
  NoDup (JsMap.keys m) -> In (k, v) m -> JsMap.get k m = Some v.
Proof.
  induction m as [| [k' v'] m IH]; cbn; intros Hnd Hin; [destruct Hin |].
  inversion Hnd as [| ? ? Hk Hm]; subst.
  destruct Hin as [[= -> ->] | Hin].
  - now rewrite String.eqb_refl.
  - destruct (String.eqb_spec k k') as [-> | Hne]; [| now apply IH].
    exfalso. apply Hk. change k' with (fst (k', v)). now apply in_map.
Qed.

(** Saving a cache object again, after it has changed, keeps the markers
    in step with the registry. *)
Lemma synced_store (g g' : Game) (a : nat) (c c' : Cache.t) (k : string) (r : Rectangle.t) :
  synced g ->
  JsMap.get k (cacheMarkers g) = Some r ->
  Rectangle.popupCache r = a ->
  nth_error (cacheObjs g) a = Some c ->
  Cache.cell c' = Cache.cell c ->
  cacheObjs g' = firstn a (cacheObjs g) ++ c' :: skipn (S a) (cacheObjs g) ->
  caches g' = JsMap.set (cellToString (Cache.cell c)) (toMomento c') (caches g) ->
  cacheMarkers g' = cacheMarkers g ->
  synced g'.
Proof.
  intros [Hnd Hs] Hk Hr Ha Hcell Ho Hc Hm.
  assert (Hlt : (a < List.length (cacheObjs g))%nat)
    by (apply nth_error_Some; congruence).
  destruct (Hs k r (get_In _ _ _ Hk)) as (c1 & Hc1 & Hkey & _).
  rewrite Hr, Ha in Hc1. injection Hc1 as <-.
  split; [now rewrite Hm |].
  intros k' r' Hin. rewrite Hm in Hin.
  destruct (Hs k' r' Hin) as (c2 & Hc2 & Hkey2 & Hreg2).
  destruct (Nat.eq_dec (Rectangle.popupCache r') a) as [Ea | Na].
  - rewrite Ea, Ha in Hc2. injection Hc2 as <-.
    exists c'. rewrite Ho, Hc, Ea. split; [eapply nth_error_store; eassumption |].
    split; [congruence |]. rewrite Hkey2. apply get_set_same.
  - exists c2. rewrite Ho, Hc. split; [| split; trivial].
    + rewrite nth_error_store_other by auto. exact Hc2.
    + rewrite get_set_other; trivial.
      intros E. apply Na. rewrite <- Hr.
      assert (E' : k' = k) by congruence.
      rewrite E' in Hin. pose proof (In_get_NoDup _ _ _ Hnd Hin) as Hk'.
      congruence.
Qed.

Lemma collect_full (coin : Coin.t) (a : nat) (c : Cache.t) (g : Game)
    (pre post : list Coin.t) :
  nth_error (cacheObjs g) a = Some c ->
  Cache.coins c = pre ++ coin :: post ->
  ~ In coin pre ->
  exists g',
    collect coin a g = Returned tt g' /\
    cacheObjs g' = firstn a (cacheObjs g)
                   ++ Cache.mk (Cache.cell c) (pre ++ post) :: skipn (S a) (cacheObjs g) /\
    caches g' = JsMap.set (cellToString (Cache.cell c))
                  (toMomento (Cache.mk (Cache.cell c) (pre ++ post))) (caches g) /\
    cacheMarkers g' = cacheMarkers g.
Proof.
  intros Ha Hc Hpre.
  destruct (collect_returns coin a c g Ha) as (g' & Hr & _ & Ho & Hs & Hm & _).
  unfold indexOf in Ho, Hs. rewrite Hc, indexOfFrom_first in Ho, Hs by assumption.
  replace (0 + Z.of_nat (List.length pre) >? -1) with true in Ho, Hs
    by (symmetry; apply Z.gtb_lt; lia).
  rewrite Z.add_0_l, splice1_middle in Ho, Hs.
  exists g'. repeat split; trivial.
Qed.

Lemma deposit_full (a : nat) (c : Cache.t) (g : Game) :
  nth_error (cacheObjs g) a = Some c ->
  let c' := Cache.mk (Cache.cell c) (Cache.coins c ++ rev (playerInventory g)) in
  exists g',
    deposit a g = Returned tt g' /\
    cacheObjs g' = firstn a (cacheObjs g) ++ c' :: skipn (S a) (cacheObjs g) /\
    caches g' = JsMap.set (cellToString (Cache.cell c)) (toMomento c') (caches g) /\
    cacheMarkers g' = cacheMarkers g.
Proof.
  intros H c'. unfold deposit, withCache. rewrite H.
  eexists. split; [reflexivity |]. repeat split.
Qed.

End Synced.

Section SyncedSpawn.

Variable luck : string -> Q.

Lemma spawnCache_synced (cell : Cell.t) (g : Game) :
  registryOk g -> synced g ->
  exists g', spawnCache luck cell g = Returned tt g' /\ registryOk g' /\ synced g'.
Proof.
  intros Hok [Hnd Hs].
  destruct (spawnCache_ok luck cell g Hok)
    as (g' & c & Hrun & Hok' & Ho & Hcell & Hreg & Hp & Hm & _).
  exists g'. split; [exact Hrun |]. split; [exact Hok' |].
  split; [rewrite Hm; now apply NoDup_keys_set |].
  intros k r Hin. rewrite Hm in Hin.
  destruct (In_set _ _ _ _ _ Hin) as [[= -> ->] | Hold].
  - exists c. cbn [Rectangle.popupCache]. rewrite Ho, Hcell.
    split; [rewrite nth_error_app2 by lia; now rewrite Nat.sub_diag |].
    split; [reflexivity | exact Hreg].
  - destruct (Hs k r Hold) as (c1 & Hc1 & Hk1 & Hr1).
    exists c1. rewrite Ho. split; [| split; [exact Hk1 | now apply Hp]].
    rewrite nth_error_app1; [exact Hc1 |]. apply nth_error_Some. congruence.
Qed.

Lemma spawnAll_synced (cells : list Cell.t) :
  forall g, registryOk g -> synced g ->
    exists g',
      forEach cells (spawnCache luck) g = Returned tt g' /\ registryOk g' /\ synced g'.
Proof.
  induction cells as [| x cells IH]; intros g Hok Hs.
  - now exists g.
  - cbn [forEach]. unfold bind.
    destruct (spawnCache_synced x g Hok Hs) as (g1 & -> & Hok1 & Hs1).
    now apply IH.
Qed.

Lemma afterDespawn_synced (g : Game) : synced g -> synced (afterDespawn g).
Proof.
  intros [Hnd Hs]. unfold afterDespawn.
  set (vs := map cellToString (getVisibleCells (playerLocation g))).
  assert (H : (fun h => caches h = caches g /\ cacheObjs h = cacheObjs g /\
                 NoDup (JsMap.keys (cacheMarkers h)) /\
                 forall k r, In (k, r) (cacheMarkers h) -> In (k, r) (cacheMarkers g))
              (finalState (forEach (cacheMarkers g) (despawnStep vs) g))).
  { apply forEach_invariant; [| repeat split; trivial].
    intros e h _ (Hc & Ho & Hn & Hsub). unfold despawnStep.
    destruct (negb _); [| repeat split; trivial].
    cbn. repeat split; trivial.
    - clear - Hn. induction (cacheMarkers h) as [| [k' v'] m IH]; cbn; trivial.
      inversion Hn as [| ? ? Hk Hm]; subst.
      destruct (String.eqb_spec (fst e) k'); trivial.
      cbn. constructor; [| now apply IH].
      intros Hin. apply Hk. clear - Hin.
      induction m as [| [k0 v0] m IH]; cbn in *; trivial.
      destruct (String.eqb_spec (fst e) k0); [now right |].
      destruct Hin as [E | Hin]; [left; exact E | right; now apply IH].
    - intros k r Hin. apply Hsub. clear - Hin.
      induction (cacheMarkers h) as [| [k0 v0] m IH]; cbn in *; trivial.
      destruct (String.eqb_spec (fst e) k0); [now right |].
      destruct Hin as [E | Hin]; [now left | right; now apply IH]. }
  cbv beta in H. destruct H as (Hc & Ho & Hn & Hsub). split; [exact Hn |].
  intros k r Hin. rewrite Hc, Ho. now apply Hs, Hsub.
Qed.

Lemma updateCaches_synced (g : Game) :
  registryOk g -> synced g ->
  exists g', updateCaches luck g = Returned tt g' /\ registryOk g' /\ synced g'.
Proof.
  intros Hok Hs. rewrite updateCaches_eq. apply spawnAll_synced.
  - destruct (afterDespawn_rest g) as (Dc & _). now apply (registryOk_same g).
  - now apply afterDespawn_synced.
Qed.

Lemma synced_same (g h : Game) :
  synced g -> cacheMarkers h = cacheMarkers g -> cacheObjs h = cacheObjs g ->
  caches h = caches g -> synced h.
Proof. intros [Hn Hs] Hm Ho Hc. split; rewrite ?Hm, ?Ho, ?Hc; trivial. Qed.

End SyncedSpawn.

(** A game opened on empty storage starts with a well-formed registry
    and its markers in step with it. *)
Lemma initGame_synced (luck : string -> Q) (g : Game) :
  localStorage g = [] ->
  exists g', initGame luck g = Returned tt g' /\ registryOk g' /\ synced g'.
Proof.
  intros Hs0.
  destruct (initGame_prefix luck g) as (s & -> & _ & _ & _ & Hc & Hm & Hs).
  unfold bind at 1.
  rewrite loadLocalStorage_all_missing by (rewrite Hs, Hs0; reflexivity).
  unfold bind at 1.
  destruct (updateCaches_synced luck s) as (g' & -> & Hok' & Hs').
  - intros k m Hin. rewrite Hc in Hin. destruct Hin.
  - split; rewrite Hm; [constructor | intros k r []].
  - eexists. split; [reflexivity |].
    split; [exact Hok' | exact Hs'].
Qed.

(** Every listener but that of the centre button returns; it keeps the
    registry well formed and the markers in step with it and, when it is
    a collect or a deposit, leaves the total number of coins as it
    is. *)
Lemma perform_returns (luck : string -> Q) (e : Event) (g : Game) :
  registryOk g -> synced g -> isCenter e = false ->
  exists g',
    perform luck e g = Returned tt g' /\ registryOk g' /\ synced g' /\
    (isTransfer e = true -> totalCoins g' = totalCoins g).
Proof.
  intros Hok Hs He.
  destruct e as [lat lng | key n | key | coin | confirmed];
    cbn [perform isTransfer]; [| | | discriminate |].
  - destruct (movePlayer_eq luck lat lng g) as (h & -> & _ & Hc & Hm & Ho).
    destruct (updateCaches_synced luck h) as (g' & Hrun & Hok' & Hs').
    + now apply (registryOk_same g).
    + now apply (synced_same g).
    + exists g'. split; [exact Hrun |]. split; [exact Hok' |].
      split; [exact Hs' | intros [=]].
  - unfold popupOf. destruct (JsMap.get key (cacheMarkers g)) as [r |] eqn:Hk;
      [| exists g; auto].
    destruct (nth_error (cacheObjs g) (Rectangle.popupCache r)) as [c |] eqn:Ha;
      [| exists g; auto].
    destruct (nth_error (Cache.coins c) n) as [coin |] eqn:Hn;
      [| exists g; auto].
    destruct (In_first coin (Cache.coins c) (nth_error_In _ _ Hn))
      as (pre & post & Hc & Hpre).
    destruct (collect_full coin _ c g pre post Ha Hc Hpre) as (g' & Hrun & Ho & Hreg & Hm).
    exists g'. split; [exact Hrun |].
    split; [apply (registryOk_set g (Cache.mk (Cache.cell c) (pre ++ post))); assumption |].
    split; [apply (synced_store g g' (Rectangle.popupCache r) c
                     (Cache.mk (Cache.cell c) (pre ++ post)) key r); trivial |].
    intros _. rewrite <- (collect_present_conserves coin _ c g pre post Ha Hc Hpre).
    + now rewrite Hrun.
    + destruct Hs as [_ Hs]. destruct (Hs key r (get_In _ _ _ Hk)) as (c1 & Hc1 & Hk1 & Hr1).
      rewrite Ha in Hc1. injection Hc1 as <-. now rewrite <- Hk1.
  - unfold popupOf. destruct (JsMap.get key (cacheMarkers g)) as [r |] eqn:Hk;
      [| exists g; auto].
    destruct (nth_error (cacheObjs g) (Rectangle.popupCache r)) as [c |] eqn:Ha;
      [| exists g; auto].
    destruct (deposit_full _ c g Ha) as (g' & Hrun & Ho & Hreg & Hm).
    exists g'. split; [exact Hrun |].
    split; [apply (registryOk_set g (Cache.mk (Cache.cell c)
                                     (Cache.coins c ++ rev (playerInventory g))));
            assumption |].
    split; [apply (synced_store g g' (Rectangle.popupCache r) c
                     (Cache.mk (Cache.cell c)
                        (Cache.coins c ++ rev (playerInventory g))) key r); trivial |].
    intros _. rewrite <- (deposit_conserves _ c g Ha).
    + now rewrite Hrun.
    + destruct Hs as [_ Hs]. destruct (Hs key r (get_In _ _ _ Hk)) as (c1 & Hc1 & Hk1 & Hr1).
      rewrite Ha in Hc1. injection Hc1 as <-. now rewrite <- Hk1.
  - unfold resetClick. destruct confirmed; cbn [negb].
    + unfold bind at 1, modify.
      destruct (initGame_synced luck (setLocalStorage [] g) eq_refl)
        as (g' & Hrun & Hok' & Hs').
      exists g'. split; [exact Hrun |]. split; [exact Hok' |].
      split; [exact Hs' | intros [=]].
    + exists g. split; [reflexivity |]. split; [exact Hok |].
      split; [exact Hs | intros [=]].
Qed.

(** The listener of the centre button, whether it returns or throws. *)
Lemma centerClick_synced (luck : string -> Q) (coin : Coin.t) (g : Game) :
  registryOk g -> synced g ->
  registryOk (finalState (centerClick luck coin g)) /\
  synced (finalState (centerClick luck coin g)).
Proof.
  intros Hok Hs. unfold centerClick, bind, gets.
  destruct (JsMap.get (cellToString (Coin.cell coin)) (caches g)) as [m |] eqn:Hg;
    [| now split].
  destruct (Hok _ _ (get_In _ _ _ Hg)) as (c0 & -> & _).
  rewrite fromMomento_toMomento.
  set (h := setNextOid _ g).
  assert (Hokh : registryOk h) by now apply (registryOk_same g).
  assert (Hsh : synced h) by now apply (synced_same g).
  destruct (JsMap.get (cellToString (Coin.cell coin)) (cacheMarkers h)) as [r |];
    [now split |].
  destruct (spawnCache_synced luck (Coin.cell coin) h Hokh Hsh) as (g' & -> & ? & ?).
  now split.
Qed.

(** Every event of a session keeps the registry well formed and the
    markers in step with it and, when it is a collect or a deposit,
    leaves the total number of coins as it is. *)
Theorem session_step (luck : string -> Q) (e : Event) (g : Game) :
  registryOk g -> synced g ->
  registryOk (finalState (perform luck e g)) /\
  synced (finalState (perform luck e g)) /\
  (isTransfer e = true -> totalCoins (finalState (perform luck e g)) = totalCoins g).
Proof.
  intros Hok Hs. destruct (isCenter e) eqn:He.
  - destruct e; try discriminate. cbn [perform isTransfer].
    destruct (centerClick_synced luck coin g Hok Hs) as [? ?].
    split; [assumption |]. split; [assumption | intros [=]].
  - destruct (perform_returns luck e g Hok Hs He) as (g' & -> & ? & ? & ?).
    cbn [finalState]. split; [assumption |]. split; assumption.
Qed.

(** Whatever the player does, the registry stays well formed and the
    markers in step with it. *)
Theorem session_invariant (luck : string -> Q) (es : list Event) :
  forall g, registryOk g -> synced g ->
    registryOk (session luck es g) /\ synced (session luck es g).
Proof.
  unfold session. induction es as [| e es IH]; intros g Hok Hs; [now split |].
  cbn [fold_left].
  destruct (session_step luck e g Hok Hs) as (Hok1 & Hs1 & _).
  now apply IH.
Qed.

(** Over any run of collect and deposit buttons the total number of
    coins, in the registry and in the inventory, stays what it was. *)
Theorem session_conserves (luck : string -> Q) (es : list Event) :
  forallb isTransfer es = true ->
  forall g, registryOk g -> synced g ->
    totalCoins (session luck es g) = totalCoins g.
Proof.
  unfold session. induction es as [| e es IH]; intros Hes g Hok Hs; [reflexivity |].
  cbn [forallb] in Hes. apply andb_prop in Hes as [He Hes].
  cbn [fold_left].
  destruct (session_step luck e g Hok Hs) as (Hok1 & Hs1 & Ht).
  rewrite (IH Hes _ Hok1 Hs1). now apply Ht.
Qed.

(** Property X18.  In a game opened on empty storage, after whatever the
    player has done in it, the collect and deposit buttons of the popups
    pressed from then on leave the total number of coins, those of the
    caches in the registry and those of the inventory, as it is. *)
Theorem play_conserves (luck : string -> Q) (g : Game) (before es : list Event) :
  localStorage g = [] ->
  forallb isTransfer es = true ->
  let opened := finalState (initGame luck g) in
  let played := session luck before opened in
  totalCoins (session luck es played) = totalCoins played.
Proof.
  intros Hs0 Hes opened played.
  destruct (initGame_synced luck g Hs0) as (g0 & Hrun & Hok & Hs).
  assert (E : opened = g0) by (unfold opened; now rewrite Hrun).
  destruct (session_invariant luck before opened) as [Hok1 Hs1];
    [now rewrite E | now rewrite E |].
  now apply session_conserves.
Qed.

(** ** Keys, mementos and transfers *)

(** Property X1.  [cellToString] gives two cells the same key only when they
    are the same cell: no two cells share an entry of the registry or of the
    marker registry. *)
Theorem cellToString_same_key (a b : Cell.t) :
  cellToString a = cellToString b <-> a = b.
Proof. split; [apply cellToString_inj | now intros ->]. Qed.

(** Property X2.  Two caches have the same memento exactly when they have
    the same cell and, coin for coin, the same cells and serials: a memento
    keeps the fields of a cache and nothing of the identity of its coin
    objects. *)
Theorem toMomento_same_memento (a b : Cache.t) :
  toMomento a = toMomento b <-> structEq a b.
Proof. split; [apply toMomento_inj | apply toMomento_fields]. Qed.

Section MapSet.
Context {V : Type}.

Lemma set_same_value (k : string) (v : V) (m : JsMap.t V) :
  JsMap.get k m = Some v -> JsMap.set k v m = m.
Proof.
  induction m as [| [k' v'] m IH]; cbn; [discriminate |].
  destruct (String.eqb_spec k k') as [-> | Hne].
  - now intros [= ->].
  - intros H. now rewrite IH.
Qed.

End MapSet.



(** Property X4.  An empty string under the key of a cell counts as no
    entry: [spawnCache] generates the coins of the cell anew and writes
    their memento over it. *)
Theorem spawnCache_empty_entry (luck : string -> Q) (cell : Cell.t) (g : Game) :
  JsMap.get (cellToString cell) (caches g) = Some EmptyString ->
  exists g',
    spawnCache luck cell g = Returned tt g' /\
    JsMap.get (cellToString cell) (caches g') = Some (initialMemento luck cell) /\
    nth_error (cacheObjs g') (List.length (cacheObjs g))
    = Some (generated luck cell (nextOid g)).
Proof.
  intros Hget. rewrite spawnCache_fresh by now rewrite Hget.
  eexists. split; [reflexivity |]. split.
  - cbn [installed caches setCacheMarkers setLocalStorage setMapLayers setNextRid
           setCacheObjs setCaches setNextOid].
    rewrite get_set_same. now rewrite toMomento_generated.
  - cbn [installed cacheObjs setCacheMarkers setLocalStorage setMapLayers setNextRid
           setCacheObjs setCaches setNextOid].
    rewrite nth_error_app2 by lia. now rewrite Nat.sub_diag.
Qed.

Lemma spawnCache_empty_entry_witness :
  exists g',
    spawnCache luckHome homeCell
      (setCaches [(cellToString homeCell, EmptyString)] (moduleStart [])) = Returned tt g' /\
    JsMap.get (cellToString homeCell) (caches g') = Some (initialMemento luckHome homeCell) /\
    nth_error (cacheObjs g')
      (List.length (cacheObjs (setCaches [(cellToString homeCell, EmptyString)]
                                 (moduleStart []))))
    = Some (generated luckHome homeCell
              (nextOid (setCaches [(cellToString homeCell, EmptyString)] (moduleStart [])))).
Proof.
  apply (spawnCache_empty_entry luckHome homeCell). reflexivity.
Defined.

(** Property X5.  [collect] of a coin of the cache followed by [deposit]
    into the same cache: the inventory is empty, and the cache holds the
    coins it had, the collected coin moved behind them and before the coins
    the player held, those in the reverse of the order they were collected
    in; the registry holds the memento of just that. *)
Theorem collect_then_deposit
    (coin : Coin.t) (a : nat) (c : Cache.t) (g : Game) (pre post : list Coin.t) :
  nth_error (cacheObjs g) a = Some c ->
  Cache.coins c = pre ++ coin :: post ->
  ~ In coin pre ->
  let c2 := Cache.mk (Cache.cell c)
              (pre ++ post ++ coin :: rev (playerInventory g)) in
  exists g2,
    (collect coin a ;; deposit a) g = Returned tt g2 /\
    playerInventory g2 = [] /\
    nth_error (cacheObjs g2) a = Some c2 /\
    JsMap.get (cellToString (Cache.cell c)) (caches g2) = Some (toMomento c2).
Proof.
  intros Ha Hc Hpre c2.
  destruct (collect_present coin a c g pre post Ha Hc Hpre)
    as (g1 & Hrun & Ha1 & Hi1 & _).
  unfold bind at 1. rewrite Hrun.
  destruct (deposit_returns a _ g1 Ha1) as (g2 & Hrun2 & Hi2 & Ha2 & Hs2).
  exists g2. split; [exact Hrun2 |]. split; [exact Hi2 |].
  cbn [Cache.cell Cache.coins] in Ha2, Hs2.
  rewrite Hi1, rev_app_distr, <- app_assoc in Ha2, Hs2. cbn [rev app] in Ha2, Hs2.
  split; [exact Ha2 |]. rewrite Hs2. apply get_set_same.
Qed.

Lemma collect_then_deposit_witness :
  exists g2,
    (collect (Coin.mk 0 homeCell 0) 0 ;; deposit 0) startedGame = Returned tt g2 /\
    playerInventory g2 = [] /\
    nth_error (cacheObjs g2) 0
    = Some (Cache.mk
              (Cache.cell (Cache.mk homeCell [Coin.mk 0 homeCell 0; Coin.mk 1 homeCell 1]))
              ([] ++ [Coin.mk 1 homeCell 1]
                  ++ Coin.mk 0 homeCell 0 :: rev (playerInventory startedGame))) /\
    JsMap.get
      (cellToString
         (Cache.cell (Cache.mk homeCell [Coin.mk 0 homeCell 0; Coin.mk 1 homeCell 1])))
      (caches g2)
    = Some (toMomento
              (Cache.mk
                 (Cache.cell (Cache.mk homeCell [Coin.mk 0 homeCell 0; Coin.mk 1 homeCell 1]))
                 ([] ++ [Coin.mk 1 homeCell 1]
                     ++ Coin.mk 0 homeCell 0 :: rev (playerInventory startedGame)))).
Proof.
  apply (collect_then_deposit (Coin.mk 0 homeCell 0) 0
           (Cache.mk homeCell [Coin.mk 0 homeCell 0; Coin.mk 1 homeCell 1])
           startedGame [] [Coin.mk 1 homeCell 1]).
  - reflexivity.
  - reflexivity.
  - intros [].
Defined.

(** Property X6.  [deposit] with an empty inventory, into a cache whose
    memento is the registry entry of its cell, moves nothing: the cache
    objects, the registry and the inventory are what they were. *)
Theorem deposit_empty_inventory (a : nat) (c : Cache.t) (g : Game) :
  nth_error (cacheObjs g) a = Some c ->
  playerInventory g = [] ->
  JsMap.get (cellToString (Cache.cell c)) (caches g) = Some (toMomento c) ->
  exists g',
    deposit a g = Returned tt g' /\
    cacheObjs g' = cacheObjs g /\
    caches g' = caches g /\
    playerInventory g' = [] /\
    cacheMarkers g' = cacheMarkers g.
Proof.
  intros Ha Hi Hreg.
  destruct (deposit_full a c g Ha) as (g' & Hrun & Ho & Hs & Hm).
  destruct (deposit_returns a c g Ha) as (g'' & Hrun' & Hi' & _).
  assert (g'' = g') by congruence. subst g''.
  assert (E : Cache.mk (Cache.cell c) (Cache.coins c ++ rev (playerInventory g)) = c)
    by (rewrite Hi, app_nil_r; now destruct c).
  rewrite E in Ho, Hs.
  exists g'. split; [exact Hrun |].
  split; [rewrite Ho; now apply store_same |].
  split; [rewrite Hs; now apply set_same_value |].
  split; [exact Hi' | exact Hm].
Qed.

Lemma deposit_empty_inventory_witness :
  exists g',
    deposit 0 startedGame = Returned tt g' /\
    cacheObjs g' = cacheObjs startedGame /\
    caches g' = caches startedGame /\
    playerInventory g' = [] /\
    cacheMarkers g' = cacheMarkers startedGame.
Proof.
  apply (deposit_empty_inventory 0
           (Cache.mk homeCell [Coin.mk 0 homeCell 0; Coin.mk 1 homeCell 1])).
  - reflexivity.
  - reflexivity.
  - reflexivity.
Defined.

(** ** Saved records read back *)

Section Records.

Lemma integral_entries (registry : JsMap.t string) :
  integral (JArr (jsonOfEntries registry)).
Proof. induction registry as [| e r IH]; cbn in *; auto. Qed.

Lemma truthy_array (vs : list json) :
  truthy (Some (JSON_stringify (JArr vs))) = true.
Proof. destruct vs; reflexivity. Qed.

Lemma setAll_distinct (entries : JsMap.t string) :
  forall registry,
    NoDup (JsMap.keys (registry ++ entries)) ->
    setAll entries registry = registry ++ entries.
Proof.
  induction entries as [| [k v] es IH]; intros registry Hnd; cbn [setAll fold_left].
  - now rewrite app_nil_r.
  - assert (Hk : JsMap.get k registry = None).
    { apply get_None_keys. intros Hin.
      unfold JsMap.keys in Hnd. rewrite map_app in Hnd. cbn [map fst] in Hnd.
      apply NoDup_remove_2 in Hnd. apply Hnd, in_or_app. now left. }
    cbn [fst snd]. rewrite set_absent by exact Hk.
    change (fold_left _ es ?r) with (setAll es r).
    rewrite IH; rewrite <- app_assoc; [reflexivity | exact Hnd].
Qed.

(** The loop of the first block of [loadLocalStorage] over the pairs
    that [saveCaches] printed. *)
Lemma load_entries (entries : JsMap.t string) :
  forall h,
    forEach (jsonOfEntries entries)
      (fun cache =>
         match cache with
         | JArr (JStr k :: JStr v :: _) =>
             modify (fun g => setCaches (JsMap.set k v (caches g)) g)
         | _ => throw IllTyped
         end) h
    = Returned tt (setCaches (setAll entries (caches h)) h).
Proof.
  induction entries as [| [k v] es IH]; intros h.
  - cbn. now destruct h.
  - cbn [jsonOfEntries map forEach fst snd]. unfold bind at 1, modify at 1.
    fold (jsonOfEntries es). rewrite IH. reflexivity.
Qed.

(** The loop of the second block over the coins that [saveInventory]
    printed. *)
Lemma load_coins (coins : list Coin.t) :
  forall h,
    forEach (map jsonOfCoin coins) pushParsedCoin h
    = Returned tt
        (setPlayerInventory (playerInventory h ++ freshCopies (nextOid h) coins)
           (setNextOid (nextOid h + List.length coins) h)).
Proof.
  induction coins as [| c cs IH]; intros h.
  - cbn [map forEach freshCopies List.length]. rewrite app_nil_r, Nat.add_0_r.
    now destruct h.
  - cbn [map forEach]. unfold bind at 1, pushParsedCoin at 1.
    assert (E : coinOfJson (nextOid h) (jsonOfCoin c)
                = Some (Coin.mk (nextOid h) (Coin.cell c) (Coin.serial c))).
    { unfold coinOfJson, jsonOfCoin. cbn -[cellOfJson jsonOfCell].
      now rewrite cellOfJson_jsonOfCell. }
    rewrite E, IH.
    cbn [playerInventory nextOid setPlayerInventory setNextOid freshCopies List.length].
    rewrite <- app_assoc. cbn [app].
    replace (S (nextOid h) + List.length cs)%nat
      with (nextOid h + S (List.length cs))%nat by lia.
    reflexivity.
Qed.

End Records.

Section Saved.

(** The first block of [loadLocalStorage] on the text [saveCaches]
    writes for a registry. *)
Lemma loadCachesRecord_saved (registry : JsMap.t string) (h : Game) :
  JsMap.get "caches" (localStorage h) = Some (cachesRecord registry) ->
  loadCachesRecord h = Returned tt (setCaches (setAll registry (caches h)) h).
Proof.
  intros Hget. unfold loadCachesRecord, bind at 1, gets at 1.
  rewrite Hget. unfold cachesRecord. rewrite truthy_array.
  cbn [textOf]. rewrite JSON_parse_stringify by apply integral_entries.
  apply load_entries.
Qed.

(** The second block on the text [saveInventory] writes for a list of
    coins. *)
Lemma loadInventoryRecord_saved (coins : list Coin.t) (h : Game) :
  JsMap.get "inventory" (localStorage h)
  = Some (JSON_stringify (JArr (map jsonOfCoin coins))) ->
  loadInventoryRecord h
  = Returned tt
      (setPlayerInventory (playerInventory h ++ freshCopies (nextOid h) coins)
         (setNextOid (nextOid h + List.length coins) h)).
Proof.
  intros Hget. unfold loadInventoryRecord, bind at 1, gets at 1.
  rewrite Hget, truthy_array.
  cbn [textOf]. rewrite JSON_parse_stringify by apply integral_coins.
  apply load_coins.
Qed.

End Saved.

(** Property X7.  What [saveCaches] writes, the first block of
    [loadLocalStorage] reads back: on an empty registry it rebuilds the
    registry that was saved, entry for entry and in the same order, whatever
    the keys and the mementos are. *)
Theorem loadLocalStorage_reads_saveCaches (g h : Game) :
  NoDup (JsMap.keys (caches g)) ->
  JsMap.get "caches" (localStorage h)
  = JsMap.get "caches" (localStorage (finalState (saveCaches g))) ->
  caches h = [] ->
  exists h',
    loadCachesRecord h = Returned tt h' /\
    caches h' = caches g /\
    playerInventory h' = playerInventory h /\
    playerLocation h' = playerLocation h /\
    localStorage h' = localStorage h.
Proof.
  intros Hnd Hrec Hempty.
  rewrite (loadCachesRecord_saved (caches g)).
  - eexists. split; [reflexivity |].
    cbn [caches setCaches]. rewrite Hempty, setAll_distinct by exact Hnd.
    repeat split.
  - rewrite Hrec. cbn [saveCaches modify finalState localStorage setLocalStorage].
    apply get_set_same.
Qed.

Lemma loadLocalStorage_reads_saveCaches_witness :
  exists h',
    loadCachesRecord (setCaches [] startedGame) = Returned tt h' /\
    caches h' = caches startedGame /\
    playerInventory h' = playerInventory (setCaches [] startedGame) /\
    playerLocation h' = playerLocation (setCaches [] startedGame) /\
    localStorage h' = localStorage (setCaches [] startedGame).
Proof.
  apply (loadLocalStorage_reads_saveCaches startedGame (setCaches [] startedGame)).
  - repeat constructor. intros [].
  - reflexivity.
  - reflexivity.
Defined.

(** Property X8.  What [saveInventory] writes, the second block of
    [loadLocalStorage] reads back: it pushes onto the inventory one new coin
    object for each coin that was saved, with the same cell and serial, in
    the same order. *)
Theorem loadLocalStorage_reads_saveInventory (g h : Game) :
  JsMap.get "inventory" (localStorage h)
  = JsMap.get "inventory" (localStorage (finalState (saveInventory g))) ->
  exists h',
    loadInventoryRecord h = Returned tt h' /\
    playerInventory h' = playerInventory h ++ freshCopies (nextOid h) (playerInventory g) /\
    map Coin.fields (playerInventory h')
    = map Coin.fields (playerInventory h ++ playerInventory g) /\
    caches h' = caches h /\
    localStorage h' = localStorage h.
Proof.
  intros Hrec.
  rewrite (loadInventoryRecord_saved (playerInventory g)).
  - eexists. split; [reflexivity |].
    cbn [playerInventory setPlayerInventory caches localStorage setNextOid].
    split; [reflexivity |]. split; [| split; reflexivity].
    now rewrite !map_app, freshCopies_fields.
  - rewrite Hrec. cbn [saveInventory modify finalState localStorage setLocalStorage].
    apply get_set_same.
Qed.

Lemma loadLocalStorage_reads_saveInventory_witness :
  exists h',
    loadInventoryRecord (setPlayerInventory [] playingGame) = Returned tt h' /\
    playerInventory h'
    = playerInventory (setPlayerInventory [] playingGame)
      ++ freshCopies (nextOid (setPlayerInventory [] playingGame))
           (playerInventory playingGame) /\
    map Coin.fields (playerInventory h')
    = map Coin.fields (playerInventory (setPlayerInventory [] playingGame)
                       ++ playerInventory playingGame) /\
    caches h' = caches (setPlayerInventory [] playingGame) /\
    localStorage h' = localStorage (setPlayerInventory [] playingGame).
Proof.
  apply (loadLocalStorage_reads_saveInventory playingGame
           (setPlayerInventory [] playingGame)).
  reflexivity.
Defined.

(** ** Markers after [updateCaches] *)

Section MapHas.
Context {V : Type}.

Lemma has_set_same (k : string) (v : V) (m : JsMap.t V) :
  JsMap.has k (JsMap.set k v m) = true.
Proof. unfold JsMap.has. now rewrite get_set_same. Qed.

Lemma has_set_mono (k k' : string) (v : V) (m : JsMap.t V) :
  JsMap.has k m = true -> JsMap.has k (JsMap.set k' v m) = true.
Proof.
  destruct (String.eqb_spec k k') as [-> | Hne]; [intros _; apply has_set_same |].
  unfold JsMap.has. now rewrite get_set_other.
Qed.

Lemma get_delete_neq (k k' : string) (m : JsMap.t V) :
  k <> k' -> JsMap.get k (JsMap.delete k' m) = JsMap.get k m.
Proof.
  intros Hne. induction m as [| [k0 v0] m IH]; cbn; trivial.
  destruct (String.eqb_spec k' k0) as [-> | H0].
  - destruct (String.eqb_spec k k0); [contradiction | reflexivity].
  - cbn. now rewrite IH.
Qed.

Lemma keys_get (k : string) (m : JsMap.t V) :
  In k (JsMap.keys m) -> JsMap.get k m <> None.
Proof. intros Hin Hn. now apply get_None_keys in Hn. Qed.

End MapHas.

Section UpdateCachesMore.

Variable luck : string -> Q.

Lemma existsb_eqb_In (k : string) (l : list string) :
  existsb (String.eqb k) l = true <-> In k l.
Proof.
  rewrite existsb_exists. split.
  - intros (x & Hx & E). apply String.eqb_eq in E. now subst.
  - intros H. exists k. split; [exact H | apply String.eqb_refl].
Qed.

(** The markers after [spawnCache], whether it returns or throws. *)
Lemma spawnCache_markers (cell : Cell.t) (g : Game) :
  cacheMarkers (finalState (spawnCache luck cell g)) = cacheMarkers g \/
  exists r,
    cacheMarkers (finalState (spawnCache luck cell g))
    = JsMap.set (cellToString cell) r (cacheMarkers g).
Proof.
  destruct (truthy (JsMap.get (cellToString cell) (caches g))) eqn:Ht.
  - rewrite spawnCache_load by exact Ht.
    destruct (fromMomento _ g) as [c gm | e gm] eqn:Ef.
    + apply fromMomento_frame in Ef. subst gm. right. eexists. reflexivity.
    + apply fromMomento_thrown in Ef. subst gm. now left.
  - rewrite spawnCache_fresh by exact Ht. right. eexists. reflexivity.
Qed.

Lemma spawnAll_marker_keys (cells : list Cell.t) (g : Game) :
  forall k,
    In k (JsMap.keys (cacheMarkers (finalState (forEach cells (spawnCache luck) g)))) ->
    In k (JsMap.keys (cacheMarkers g)) \/ In k (map cellToString cells).
Proof.
  apply (forEach_invariant
           (fun h => forall k, In k (JsMap.keys (cacheMarkers h)) ->
                      In k (JsMap.keys (cacheMarkers g)) \/ In k (map cellToString cells)));
    [| now left].
  intros c h Hc Hh k Hk.
  destruct (spawnCache_markers c h) as [E | [r E]]; rewrite E in Hk; [now apply Hh |].
  rewrite keys_set in Hk. destruct (JsMap.has _ _); [now apply Hh |].
  apply in_app_or in Hk as [Hk | [<- | []]]; [now apply Hh |].
  right. now apply in_map.
Qed.

Lemma afterDespawn_keys_visible (g : Game) (k : string) :
  In k (JsMap.keys (cacheMarkers (afterDespawn g))) -> In k (visibleKeys g).
Proof.
  intros Hin. apply existsb_eqb_In.
  destruct (existsb (String.eqb k) (visibleKeys g)) eqn:E; trivial.
  exfalso. apply keys_get in Hin. apply Hin.
  now apply despawn_loop_removes.
Qed.

Lemma newCellsOf_visible (g : Game) (c : Cell.t) :
  In c (newCellsOf luck g) -> In (cellToString c) (visibleKeys g).
Proof. intros H. apply filter_In in H as [H _]. now apply in_map. Qed.

Lemma visibleKeys_afterDespawn (g : Game) : visibleKeys (afterDespawn g) = visibleKeys g.
Proof. unfold visibleKeys. now destruct (afterDespawn_rest g) as (_ & _ & ->). Qed.

Lemma updateCaches_keys_visible (g : Game) (k : string) :
  In k (JsMap.keys (cacheMarkers (finalState (updateCaches luck g)))) ->
  In k (visibleKeys g).
Proof.
  rewrite updateCaches_eq. intros Hk.
  apply spawnAll_marker_keys in Hk as [Hk | Hk].
  - now apply afterDespawn_keys_visible.
  - apply in_map_iff in Hk as (c & <- & Hc).
    rewrite <- visibleKeys_afterDespawn. now apply newCellsOf_visible.
Qed.

(** The spawn loop marks each of its cells and keeps the marks there
    are. *)
Lemma spawnAll_marks (cells : list Cell.t) :
  forall g, registryOk g ->
    exists g',
      forEach cells (spawnCache luck) g = Returned tt g' /\
      registryOk g' /\
      (forall k, JsMap.has k (cacheMarkers g) = true ->
                 JsMap.has k (cacheMarkers g') = true) /\
      (forall c, In c cells -> JsMap.has (cellToString c) (cacheMarkers g') = true).
Proof.
  induction cells as [| x cells IH]; intros g Hok.
  - exists g. repeat split; trivial. intros c [].
  - cbn [forEach]. unfold bind.
    destruct (spawnCache_ok luck x g Hok) as (g1 & c1 & -> & Hok1 & _ & _ & _ & _ & Hm & _).
    destruct (IH g1 Hok1) as (g' & Hrun & Hok' & Hmono & Hall).
    exists g'. split; [exact Hrun |]. split; [exact Hok' |]. split.
    + intros k Hk. apply Hmono. rewrite Hm. now apply has_set_mono.
    + intros c [<- | Hc]; [| now apply Hall].
      apply Hmono. rewrite Hm. apply has_set_same.
Qed.

Lemma updateCaches_marks_lucky (g : Game) :
  registryOk g ->
  exists g',
    updateCaches luck g = Returned tt g' /\
    registryOk g' /\
    playerLocation g' = playerLocation g /\
    forall c, In c (getVisibleCells (playerLocation g)) ->
      Qltb (luck (cellToString c)) CACHE_SPAWN_PROBABILITY = true ->
      JsMap.has (cellToString c) (cacheMarkers g') = true.
Proof.
  intros Hok. rewrite updateCaches_eq.
  destruct (afterDespawn_rest g) as (Dc & _ & Dl).
  destruct (spawnAll_marks (newCellsOf luck (afterDespawn g)) (afterDespawn g))
    as (g' & Hrun & Hok' & Hmono & Hall); [now apply (registryOk_same g) |].
  exists g'. split; [exact Hrun |]. split; [exact Hok' |]. split.
  - pose proof (updateCaches_frame luck g) as F. rewrite updateCaches_eq, Hrun in F.
    apply F.
  - intros c Hc Hl.
    destruct (JsMap.has (cellToString c) (cacheMarkers (afterDespawn g))) eqn:Hh;
      [now apply Hmono |].
    apply Hall. apply filter_In. rewrite Dl, Hh, Hl. now split.
Qed.

Lemma forEach_skips {A : Type} (body : A -> M unit) (l : list A) (g : Game) :
  (forall x, In x l -> body x g = Returned tt g) ->
  forEach l body g = Returned tt g.
Proof.
  induction l as [| x l IH]; intros H; [reflexivity |].
  cbn [forEach]. unfold bind. rewrite (H x (or_introl eq_refl)).
  apply IH. intros y Hy. apply H. now right.
Qed.

(** With every marker visible the despawn loop does nothing. *)
Lemma afterDespawn_nothing (g : Game) :
  (forall k, In k (JsMap.keys (cacheMarkers g)) -> In k (visibleKeys g)) ->
  afterDespawn g = g.
Proof.
  intros H. unfold afterDespawn. rewrite forEach_skips; [reflexivity |].
  intros e He. unfold despawnStep.
  replace (existsb (String.eqb (fst e))
             (map cellToString (getVisibleCells (playerLocation g)))) with true;
    [reflexivity |].
  symmetry. apply existsb_eqb_In. apply H. now apply in_map.
Qed.

Lemma filter_none {A : Type} (f : A -> bool) (l : list A) :
  (forall x, In x l -> f x = false) -> filter f l = [].
Proof.
  induction l as [| x l IH]; intros H; cbn; trivial.
  rewrite (H x (or_introl eq_refl)). apply IH. intros y Hy. apply H. now right.
Qed.

(** Visible markers stay through the despawn loop. *)
Lemma afterDespawn_keeps (g : Game) (k : string) (r : Rectangle.t) :
  In k (visibleKeys g) ->
  JsMap.get k (cacheMarkers g) = Some r ->
  JsMap.get k (cacheMarkers (afterDespawn g)) = Some r.
Proof.
  intros Hv Hg. unfold afterDespawn.
  apply (forEach_invariant (fun h => JsMap.get k (cacheMarkers h) = Some r));
    [| exact Hg].
  intros e h _ Hh. unfold despawnStep.
  destruct (existsb (String.eqb (fst e)) _) eqn:E; cbn [negb]; [exact Hh |].
  cbn. rewrite get_delete_neq; [exact Hh |].
  intros ->. apply existsb_eqb_In in Hv. unfold visibleKeys in Hv. congruence.
Qed.

End UpdateCachesMore.

(** Property X9.  After [updateCaches], whether it returns or throws, every
    marker is the marker of a cell that is visible from the player's
    location. *)
Theorem updateCaches_markers_visible (luck : string -> Q) (g : Game) :
  Forall (fun k => In k (visibleKeys g))
    (JsMap.keys (cacheMarkers (finalState (updateCaches luck g)))).
Proof. apply Forall_forall. intros k. apply updateCaches_keys_visible. Qed.

(** Property X10.  On a registry of mementos [updateCaches] returns, and
    then every visible cell whose seed passes the spawn test has a marker. *)
Theorem updateCaches_marks_visible_lucky (luck : string -> Q) (g : Game) :
  registryOk g ->
  exists g',
    updateCaches luck g = Returned tt g' /\
    Forall (fun c =>
              Qltb (luck (cellToString c)) CACHE_SPAWN_PROBABILITY = true ->
              JsMap.has (cellToString c) (cacheMarkers g') = true)
      (getVisibleCells (playerLocation g)).
Proof.
  intros Hok.
  destruct (updateCaches_marks_lucky luck g Hok) as (g' & Hrun & _ & _ & H).
  exists g'. split; [exact Hrun |]. apply Forall_forall. exact H.
Qed.

Lemma updateCaches_marks_visible_lucky_witness :
  exists g',
    updateCaches luckHome (moduleStart []) = Returned tt g' /\
    Forall (fun c =>
              Qltb (luckHome (cellToString c)) CACHE_SPAWN_PROBABILITY = true ->
              JsMap.has (cellToString c) (cacheMarkers g') = true)
      (getVisibleCells (playerLocation (moduleStart []))).
Proof.
  apply (updateCaches_marks_visible_lucky luckHome (moduleStart [])).
  intros k m [].
Defined.

(** Property X11.  [updateCaches] run a second time at the same place
    changes nothing: it finds no marker to remove and no cell to spawn, and
    leaves the state exactly as the first run left it. *)
Theorem updateCaches_twice (luck : string -> Q) (g : Game) :
  registryOk g ->
  exists g',
    updateCaches luck g = Returned tt g' /\
    updateCaches luck g' = Returned tt g'.
Proof.
  intros Hok.
  destruct (updateCaches_marks_lucky luck g Hok) as (g' & Hrun & Hok' & Hloc & Hall).
  exists g'. split; [exact Hrun |].
  assert (Hvis : forall k, In k (JsMap.keys (cacheMarkers g')) -> In k (visibleKeys g')).
  { intros k Hk. unfold visibleKeys. rewrite Hloc.
    apply (updateCaches_keys_visible luck g). now rewrite Hrun. }
  rewrite updateCaches_eq, afterDespawn_nothing by exact Hvis.
  unfold newCellsOf. rewrite filter_none; [reflexivity |].
  intros c Hc. rewrite Hloc in Hc.
  destruct (Qltb (luck (cellToString c)) CACHE_SPAWN_PROBABILITY) eqn:Hl;
    [| apply andb_false_r].
  now rewrite (Hall c Hc Hl).
Qed.

Lemma updateCaches_twice_witness :
  exists g',
    updateCaches luckHome (moduleStart []) = Returned tt g' /\
    updateCaches luckHome g' = Returned tt g'.
Proof.
  apply (updateCaches_twice luckHome (moduleStart [])).
  intros k m [].
Defined.

(** Property X12.  [updateCaches] keeps the marker of a cell that is still
    visible: the same rectangle, whose popup still shows the same cache
    object. *)
Theorem updateCaches_keeps_visible_marker
    (luck : string -> Q) (g : Game) (cell : Cell.t) (r : Rectangle.t) :
  registryOk g ->
  In cell (getVisibleCells (playerLocation g)) ->
  JsMap.get (cellToString cell) (cacheMarkers g) = Some r ->
  exists g',
    updateCaches luck g = Returned tt g' /\
    JsMap.get (cellToString cell) (cacheMarkers g') = Some r /\
    forall c,
      nth_error (cacheObjs g) (Rectangle.popupCache r) = Some c ->
      nth_error (cacheObjs g') (Rectangle.popupCache r) = Some c.
Proof.
  intros Hok Hvis Hget. rewrite updateCaches_eq.
  destruct (afterDespawn_rest g) as (Dc & Do & Dl).
  assert (Hd : JsMap.get (cellToString cell) (cacheMarkers (afterDespawn g)) = Some r).
  { apply afterDespawn_keeps; [| exact Hget]. unfold visibleKeys. now apply in_map. }
  destruct (spawnAll_other luck cell (newCellsOf luck (afterDespawn g)))
    with (g := afterDespawn g) as (g' & extra & Hrun & _ & Ho & Hm & _).
  - intros Hin. apply filter_In in Hin as [_ Hin].
    unfold JsMap.has in Hin. now rewrite Hd in Hin.
  - now apply (registryOk_same g).
  - exists g'. split; [exact Hrun |]. split; [now rewrite Hm |].
    intros c Hc. rewrite Ho, Do, nth_error_app1; [exact Hc |].
    apply nth_error_Some. congruence.
Qed.

Lemma updateCaches_keeps_visible_marker_witness :
  exists g',
    updateCaches luckHome startedGame = Returned tt g' /\
    JsMap.get (cellToString homeCell) (cacheMarkers g')
    = Some (cacheRectangle homeCell (moduleStart [])) /\
    forall c,
      nth_error (cacheObjs startedGame)
        (Rectangle.popupCache (cacheRectangle homeCell (moduleStart []))) = Some c ->
      nth_error (cacheObjs g')
        (Rectangle.popupCache (cacheRectangle homeCell (moduleStart []))) = Some c.
Proof.
  apply (updateCaches_keeps_visible_marker luckHome startedGame homeCell).
  - intros k m [[= <- <-] | []].
    exists (Cache.mk homeCell [Coin.mk 0 homeCell 0; Coin.mk 1 homeCell 1]).
    split; reflexivity.
  - apply getVisibleCells_In.
    change (playerLocation startedGame) with initialPlayerLocation.
    destruct home_floor as [-> ->]. cbn [Cell.i Cell.j homeCell]. unfold NEIGHBORHOOD_SIZE. lia.
  - reflexivity.
Defined.

(** ** What a game keeps between listeners *)

Section MapAux.
Context {V : Type}.

Lemma get_set_mono (k k' : string) (v : V) (m : JsMap.t V) :
  JsMap.get k m <> None -> JsMap.get k (JsMap.set k' v m) <> None.
Proof.
  destruct (String.eqb_spec k k') as [-> | Hne].
  - rewrite get_set_same. discriminate.
  - now rewrite get_set_other.
Qed.

Lemma In_delete (e : string * V) (k : string) (m : JsMap.t V) :
  In e (JsMap.delete k m) -> In e m.
Proof.
  induction m as [| [k0 v0] m IH]; cbn; trivial.
  destruct (String.eqb_spec k k0); [now right |].
  intros [E | H]; [now left | right; now apply IH].
Qed.

Lemma In_delete_other (e : string * V) (k : string) (m : JsMap.t V) :
  fst e <> k -> In e m -> In e (JsMap.delete k m).
Proof.
  intros Hne. induction m as [| [k0 v0] m IH]; cbn; trivial.
  destruct (String.eqb_spec k k0) as [-> | H0].
  - intros [<- | H]; [now cbn in Hne | exact H].
  - intros [E | H]; [now left | right; now apply IH].
Qed.

Lemma NoDup_keys_delete (k : string) (m : JsMap.t V) :
  NoDup (JsMap.keys m) -> NoDup (JsMap.keys (JsMap.delete k m)).
Proof.
  induction m as [| [k0 v0] m IH]; cbn; trivial.
  intros Hn. inversion Hn as [| ? ? Hk Hm]; subst.
  destruct (String.eqb_spec k k0); trivial.
  cbn. constructor; [| now apply IH].
  intros Hin. apply Hk. apply in_map_iff in Hin as ([k1 v1] & <- & H1).
  apply In_delete in H1. change (fst (k1, v1)) with (fst (k1, v1)).
  now apply in_map.
Qed.

Lemma get_nonempty (k : string) (v : V) (m : JsMap.t V) :
  JsMap.get k m = Some v -> m <> [].
Proof. now destruct m. Qed.

End MapAux.

Section Layers.

Lemma filter_all {A : Type} (f : A -> bool) (l : list A) :
  (forall x, In x l -> f x = true) -> filter f l = l.
Proof.
  induction l as [| x l IH]; intros H; cbn; trivial.
  rewrite (H x (or_introl eq_refl)). f_equal. apply IH. intros y Hy. apply H. now right.
Qed.

(** Rectangles taken off the map leave the others distinct. *)
Lemma rids_filter (keep : Rectangle.t -> bool) (layers : list Rectangle.t) :
  NoDup (map Rectangle.rid layers) ->
  NoDup (map Rectangle.rid (filter keep layers)).
Proof.
  induction layers as [| r layers IH]; intros Hn; [exact Hn |].
  cbn [map] in Hn. apply NoDup_cons_iff in Hn as [Hr Hn].
  cbn [filter]. destruct (keep r); [| now apply IH].
  cbn [map]. apply NoDup_cons; [| now apply IH].
  intros Hin. apply Hr. apply in_map_iff in Hin as (y & <- & Hy).
  apply filter_In in Hy as [Hy _]. now apply in_map.
Qed.

(** Deleting the marker of a key and removing its rectangle from the
    map is the same change on both sides. *)
Lemma delete_filter (k : string) (r : Rectangle.t) (m : JsMap.t Rectangle.t) :
  NoDup (JsMap.keys m) ->
  NoDup (map Rectangle.rid (map snd m)) ->
  In (k, r) m ->
  filter (fun x => negb (Nat.eqb (Rectangle.rid x) (Rectangle.rid r))) (map snd m)
  = map snd (JsMap.delete k m).
Proof.
  induction m as [| [k0 r0] m IH]; intros Hk Hr Hin; [destruct Hin |].
  inversion Hk as [| ? ? Hk0 Hkm]; subst. cbn [map snd] in Hr.
  inversion Hr as [| ? ? Hr0 Hrm]; subst.
  cbn [map snd filter JsMap.delete].
  destruct (String.eqb_spec k k0) as [-> | Hne].
  - assert (r = r0).
    { destruct Hin as [[= ->] | Hin]; trivial.
      exfalso. apply Hk0. change k0 with (fst (k0, r)). now apply in_map. }
    subst r0. rewrite Nat.eqb_refl. cbn [negb].
    apply filter_all. intros x Hx.
    apply negb_true_iff, Nat.eqb_neq. intros E. apply Hr0. rewrite <- E. now apply in_map.
  - destruct Hin as [[= -> ->] | Hin]; [contradiction |].
    assert (Hd : Rectangle.rid r0 <> Rectangle.rid r).
    { intros E. apply Hr0. rewrite E. apply in_map.
      change r with (snd (k, r)). now apply in_map. }
    apply Nat.eqb_neq in Hd. rewrite Hd. cbn [negb map snd]. f_equal.
    now apply IH.
Qed.

Lemma despawnStep_layered (vs : list string) (e : string * Rectangle.t) (h : Game) :
  NoDup (JsMap.keys (cacheMarkers h)) ->
  In e (cacheMarkers h) ->
  layered h ->
  layered (finalState (despawnStep vs e h)).
Proof.
  intros Hk Hin (Hl & Hn & Hf). unfold despawnStep.
  destruct (negb _); [| now repeat split].
  cbn. unfold layered, removeLayer. fields. destruct e as [k r]. cbn [fst snd] in *.
  split; [| split].
  - rewrite Hl. apply delete_filter; trivial. now rewrite <- Hl.
  - now apply rids_filter.
  - apply Forall_forall. intros x Hx. apply filter_In in Hx as [Hx _].
    rewrite Forall_forall in Hf. now apply Hf.
Qed.

Lemma despawnStep_markers (vs : list string) (e : string * Rectangle.t) (h : Game) :
  cacheMarkers (finalState (despawnStep vs e h)) = cacheMarkers h \/
  cacheMarkers (finalState (despawnStep vs e h)) = JsMap.delete (fst e) (cacheMarkers h).
Proof. unfold despawnStep. destruct (negb _); [now right | now left]. Qed.

Lemma despawn_loop_layered (vs : list string) (l : list (string * Rectangle.t)) :
  NoDup (JsMap.keys l) ->
  forall h,
    (forall e, In e l -> In e (cacheMarkers h)) ->
    NoDup (JsMap.keys (cacheMarkers h)) ->
    layered h ->
    layered (finalState (forEach l (despawnStep vs) h)).
Proof.
  induction l as [| e l IH]; intros Hnd h Hin Hk Hl; [exact Hl |].
  cbn [forEach]. rewrite finalState_bind.
  destruct (despawnStep_total vs e h) as [h' Hrun]. rewrite Hrun.
  pose proof (despawnStep_layered vs e h Hk (Hin e (or_introl eq_refl)) Hl) as Hl'.
  pose proof (despawnStep_markers vs e h) as Hm.
  rewrite Hrun in Hl', Hm. cbn [finalState] in Hl', Hm.
  inversion Hnd as [| ? ? He Hnd']; subst.
  apply IH; trivial.
  - intros x Hx. destruct Hm as [-> | ->]; [apply Hin; now right |].
    apply In_delete_other; [| apply Hin; now right].
    intros E. apply He. rewrite <- E. now apply in_map.
  - destruct Hm as [-> | ->]; [exact Hk | now apply NoDup_keys_delete].
Qed.

Lemma afterDespawn_layered (g : Game) :
  NoDup (JsMap.keys (cacheMarkers g)) -> layered g -> layered (afterDespawn g).
Proof.
  intros Hk Hl. unfold afterDespawn. apply despawn_loop_layered; trivial.
Qed.

End Layers.

Section Homed.

Lemma fields_In (coin : Coin.t) (a b : list Coin.t) :
  map Coin.fields a = map Coin.fields b -> In coin a ->
  exists coin', In coin' b /\ Coin.cell coin' = Coin.cell coin.
Proof.
  intros E Hin. apply (in_map Coin.fields) in Hin. rewrite E in Hin.
  apply in_map_iff in Hin as (coin' & Hf & Hin'). exists coin'. split; trivial.
  unfold Coin.fields in Hf. congruence.
Qed.

(** The registry after a cache has been saved under the key of its
    cell. *)
Lemma homed_store (g g' : Game) (c' : Cache.t) :
  homed g ->
  caches g' = JsMap.set (cellToString (Cache.cell c')) (toMomento c') (caches g) ->
  (forall coin, In coin (Cache.coins c') ->
     hasEntry (Coin.cell coin) g \/ Coin.cell coin = Cache.cell c') ->
  (forall coin, In coin (playerInventory g') ->
     hasEntry (Coin.cell coin) g \/ Coin.cell coin = Cache.cell c') ->
  homed g'.
Proof.
  intros [Hi Hc] Hs Hcoins Hinv.
  assert (Hup : forall cell,
             hasEntry cell g \/ cell = Cache.cell c' -> hasEntry cell g').
  { intros cell [H | ->]; unfold hasEntry in *; rewrite Hs.
    - now apply get_set_mono.
    - rewrite get_set_same. discriminate. }
  split.
  - intros coin Hin. now apply Hup, Hinv.
  - intros k c coin Hin Hcoin. rewrite Hs in Hin.
    destruct (In_set _ _ _ _ _ Hin) as [E | Hold].
    + apply (f_equal snd) in E. cbn [snd] in E.
      apply toMomento_inj in E as [_ E].
      destruct (fields_In coin _ _ E Hcoin) as (coin' & Hin' & <-).
      now apply Hup, Hcoins.
    + apply Hup. left. eapply Hc; eassumption.
Qed.

Lemma homed_same (g h : Game) :
  homed g -> caches h = caches g -> playerInventory h = playerInventory g -> homed h.
Proof.
  intros [Hi Hc] Ec Ei. unfold homed, hasEntry. rewrite Ec, Ei. now split.
Qed.

End Homed.

Section SpawnKept.

Variable luck : string -> Q.

(** The state [spawnCache] returns on a registry of mementos. *)
Lemma spawnCache_exact (cell : Cell.t) (g : Game) :
  registryOk g ->
  exists c h,
    spawnCache luck cell g = Returned tt (installed cell c h) /\
    Cache.cell c = cell /\
    playerLocation h = playerLocation g /\
    playerInventory h = playerInventory g /\
    playerMovementHistory h = playerMovementHistory g /\
    cacheMarkers h = cacheMarkers g /\
    mapLayers h = mapLayers g /\
    cacheObjs h = cacheObjs g /\
    nextRid h = nextRid g /\
    localStorage h = localStorage g /\
    JsMap.get (cellToString cell) (caches h) <> None /\
    (caches h = caches g \/
     caches h = JsMap.set (cellToString cell) (toMomento c) (caches g) /\
     forall coin, In coin (Cache.coins c) -> Coin.cell coin = cell).
Proof.
  intros Hok.
  destruct (JsMap.get (cellToString cell) (caches g)) as [m |] eqn:Eg.
  - destruct (Hok _ _ (get_In _ _ _ Eg)) as (c0 & -> & Hk).
    apply cellToString_inj in Hk.
    rewrite spawnCache_load by (rewrite Eg; reflexivity).
    rewrite Eg. cbn [textOf]. rewrite fromMomento_toMomento.
    eexists _, _. split; [reflexivity |].
    split; [now cbn |]. do 8 (split; [reflexivity |]).
    split; [fields; rewrite Eg; discriminate | now left].
  - rewrite spawnCache_fresh by (rewrite Eg; reflexivity).
    eexists _, _. split; [reflexivity |].
    split; [reflexivity |]. do 8 (split; [reflexivity |]).
    split; [fields; rewrite get_set_same; discriminate |].
    right. split; [reflexivity |].
    intros coin Hin. unfold generated in Hin. cbn [Cache.coins] in Hin.
    apply in_map_iff in Hin as (n & <- & _). reflexivity.
Qed.

Lemma NoDup_snoc {A : Type} (l : list A) (x : A) :
  NoDup l -> ~ In x l -> NoDup (l ++ [x]).
Proof.
  induction l as [| y l IH]; intros Hn Hx; cbn.
  - constructor; [intros [] | constructor].
  - inversion Hn as [| ? ? Hy Hl]; subst. constructor.
    + intros Hin. apply in_app_or in Hin as [Hin | [-> | []]]; [contradiction |].
      apply Hx. now left.
    + apply IH; trivial. intros Hin. apply Hx. now right.
Qed.

(** [spawnCache] of a cell that has no marker. *)
Lemma spawnCache_kept (cell : Cell.t) (g : Game) :
  kept g ->
  JsMap.get (cellToString cell) (cacheMarkers g) = None ->
  exists g' r,
    spawnCache luck cell g = Returned tt g' /\
    kept g' /\
    cacheMarkers g' = JsMap.set (cellToString cell) r (cacheMarkers g).
Proof.
  intros (Hok & Hs & (Hl & Hn & Hf) & Hh & Hst & Hnk) Hnone.
  destruct (spawnCache_synced luck cell g Hok Hs) as (g' & Hrun & Hok' & Hs').
  destruct (spawnCache_exact cell g Hok)
    as (c & h & Hrun' & Hcell & El & Ei & Eh & Em & Ey & Eo & Er & Est & Hne & Hreg).
  assert (g' = installed cell c h) by congruence. subst g'.
  exists (installed cell c h), (cacheRectangle cell h).
  split; [exact Hrun |]. split; [| fields; now rewrite Em].
  split; [exact Hok' |]. split; [exact Hs' |]. split; [| split; [| split]].
  - unfold layered. fields. rewrite Em, Ey, Er.
    rewrite set_absent by exact Hnone. rewrite map_app. cbn [map snd].
    split; [now rewrite Hl |]. split.
    + rewrite map_app. cbn [map]. apply NoDup_snoc; trivial.
      unfold cacheRectangle. cbn [Rectangle.rid]. rewrite Er.
      intros Hin. apply in_map_iff in Hin as (x & Ex & Hx).
      rewrite Forall_forall in Hf. specialize (Hf x Hx). lia.
    + apply Forall_app. split.
      * eapply Forall_impl; [| exact Hf]. cbn. intros; lia.
      * constructor; [| constructor]. unfold cacheRectangle. cbn [Rectangle.rid].
        rewrite Er. lia.
  - destruct Hreg as [Ec | [Ec Hcoins]].
    + apply (homed_same g); trivial.
    + apply (homed_store g _ c); trivial.
      * fields. now rewrite Hcell.
      * intros coin Hin. right. rewrite Hcell. now apply Hcoins.
      * intros coin Hin. left. fields. rewrite Ei in Hin. now apply Hh.
  - unfold cachesStored. fields. rewrite get_set_same.
    destruct (caches h); [now contradiction Hne |]. reflexivity.
  - fields. destruct Hreg as [-> | [-> _]]; [exact Hnk | now apply NoDup_keys_set].
Qed.

Lemma spawnAll_kept (cells : list Cell.t) :
  NoDup cells ->
  forall g,
    (forall c, In c cells -> JsMap.get (cellToString c) (cacheMarkers g) = None) ->
    kept g ->
    exists g', forEach cells (spawnCache luck) g = Returned tt g' /\ kept g'.
Proof.
  induction cells as [| x cells IH]; intros Hnd g Hnone Hk; [now exists g |].
  inversion Hnd as [| ? ? Hx Hnd']; subst.
  cbn [forEach]. unfold bind.
  destruct (spawnCache_kept x g Hk (Hnone x (or_introl eq_refl)))
    as (g1 & r & -> & Hk1 & Hm).
  apply IH; trivial.
  intros c Hc. rewrite Hm, get_set_other; [apply Hnone; now right |].
  intros E. apply cellToString_inj in E. now subst.
Qed.

Lemma afterDespawn_kept (g : Game) : kept g -> kept (afterDespawn g).
Proof.
  intros (Hok & Hs & Hl & Hh & Hst & Hnk).
  pose proof (afterDespawn_synced g Hs) as Hs'.
  pose proof (afterDespawn_layered g (proj1 Hs) Hl) as Hl'.
  destruct (afterDespawn_frame g) as (ms & ls & E). rewrite E in *.
  repeat split; trivial; try apply Hs'; try apply Hl'; try apply Hh.
Qed.

Lemma updateCaches_kept (g : Game) :
  kept g -> exists g', updateCaches luck g = Returned tt g' /\ kept g'.
Proof.
  intros Hk. rewrite updateCaches_eq.
  destruct (updateCaches_spawns_unmarked luck (afterDespawn g)) as [Hnd Hnone].
  apply spawnAll_kept; trivial. now apply afterDespawn_kept.
Qed.

End SpawnKept.

Section Transfers.

Lemma collect_rest (coin : Coin.t) (a : nat) (c : Cache.t) (g : Game) :
  nth_error (cacheObjs g) a = Some c ->
  exists g',
    collect coin a g = Returned tt g' /\
    mapLayers g' = mapLayers g /\
    nextRid g' = nextRid g /\
    playerLocation g' = playerLocation g /\
    playerMovementHistory g' = playerMovementHistory g /\
    localStorage g' =
      JsMap.set "inventory"
        (JSON_stringify (JArr (map jsonOfCoin (playerInventory g'))))
        (JsMap.set "caches" (cachesRecord (caches g')) (localStorage g)).
Proof.
  intros H. unfold collect, withCache, bind, modify. cbn [cacheObjs setPlayerInventory].
  rewrite H. eexists. split; [reflexivity |]. repeat split.
Qed.

Lemma deposit_rest (a : nat) (c : Cache.t) (g : Game) :
  nth_error (cacheObjs g) a = Some c ->
  exists g',
    deposit a g = Returned tt g' /\
    mapLayers g' = mapLayers g /\
    nextRid g' = nextRid g /\
    playerLocation g' = playerLocation g /\
    playerMovementHistory g' = playerMovementHistory g /\
    localStorage g' =
      JsMap.set "inventory"
        (JSON_stringify (JArr (map jsonOfCoin (playerInventory g'))))
        (JsMap.set "caches" (cachesRecord (caches g')) (localStorage g)).
Proof.
  intros H. unfold deposit, withCache. rewrite H.
  eexists. split; [reflexivity |]. repeat split.
Qed.

(** A cache saved again by the popup of its marker, with coins that
    were in it or in the inventory. *)
Lemma transfer_sound (g g' : Game) (c c' : Cache.t) :
  sound g -> registryOk g' -> synced g' ->
  JsMap.get (cellToString (Cache.cell c)) (caches g) = Some (toMomento c) ->
  Cache.cell c' = Cache.cell c ->
  caches g' = JsMap.set (cellToString (Cache.cell c)) (toMomento c') (caches g) ->
  (forall coin, In coin (Cache.coins c') ->
     In coin (Cache.coins c) \/ In coin (playerInventory g)) ->
  (forall coin, In coin (playerInventory g') ->
     In coin (Cache.coins c) \/ In coin (playerInventory g)) ->
  cacheMarkers g' = cacheMarkers g ->
  mapLayers g' = mapLayers g ->
  nextRid g' = nextRid g ->
  playerLocation g' = playerLocation g ->
  playerMovementHistory g' = playerMovementHistory g ->
  localStorage g' =
    JsMap.set "inventory"
      (JSON_stringify (JArr (map jsonOfCoin (playerInventory g'))))
      (JsMap.set "caches" (cachesRecord (caches g')) (localStorage g)) ->
  sound g'.
Proof.
  intros ((Hok & Hs & Hl & Hh & Hst & Hnk) & Hinv & Htr & Ht) Hok' Hs' Hreg Hcell Hc
         Hcoins Hheld Em Ey Er El Eh Est.
  assert (Hknown : forall coin,
             In coin (Cache.coins c) \/ In coin (playerInventory g) ->
             hasEntry (Coin.cell coin) g).
  { intros coin [Hin | Hin].
    - eapply (proj2 Hh); [apply get_In; exact Hreg | exact Hin].
    - now apply (proj1 Hh). }
  split; [split; [exact Hok' |]; split; [exact Hs' |]; split; [| split; [| split]] |].
  - unfold layered. now rewrite Ey, Em, Er.
  - apply (homed_store g g' c'); trivial.
    + now rewrite Hcell.
    + intros coin Hin. left. now apply Hknown, Hcoins.
    + intros coin Hin. left. now apply Hknown, Hheld.
  - unfold cachesStored. rewrite Est, get_set_other by discriminate.
    rewrite get_set_same.
    assert (Hne : JsMap.get (cellToString (Cache.cell c)) (caches g') <> None)
      by (rewrite Hc, get_set_same; discriminate).
    destruct (caches g'); [now contradiction Hne | reflexivity].
  - rewrite Hc. now apply NoDup_keys_set.
  - split; [| split].
    + unfold inventoryStored. rewrite Est. apply get_set_same.
    + unfold trailStored. rewrite Est, Eh.
      rewrite !get_set_other by discriminate. exact Htr.
    + unfold trailed. now rewrite Eh, El.
Qed.

End Transfers.

Section Frames.

Lemma sound_nextOid (n : nat) (g : Game) : sound g -> sound (setNextOid n g).
Proof. intros H. exact H. Qed.

Lemma kept_storage (storage : JsMap.t string) (g : Game) :
  kept g ->
  JsMap.get "caches" storage = JsMap.get "caches" (localStorage g) ->
  kept (setLocalStorage storage g).
Proof.
  intros (Hok & Hs & Hl & Hh & Hst & Hnk) E.
  split; [exact Hok |]. split; [exact Hs |]. split; [exact Hl |]. split; [exact Hh |].
  split; [| exact Hnk].
  unfold cachesStored. fields. now rewrite E.
Qed.

End Frames.

Section Listeners.

Variable luck : string -> Q.

Lemma updateCaches_sound (g : Game) :
  kept g -> inventoryStored g -> trailStored g -> trailed g ->
  exists g', updateCaches luck g = Returned tt g' /\ sound g'.
Proof.
  intros Hk Hinv Htr Ht.
  destruct (updateCaches_kept luck g Hk) as (g' & Hrun & Hk').
  pose proof (updateCaches_frame luck g) as F. rewrite Hrun in F.
  cbn [finalState] in F. destruct F as (Fl & Fi & Fh & Fs).
  exists g'. split; [exact Hrun |]. split; [exact Hk' |]. split; [| split].
  - unfold inventoryStored. rewrite Fi, Fs by discriminate. exact Hinv.
  - unfold trailStored. rewrite Fh, Fs by discriminate. exact Htr.
  - unfold trailed. now rewrite Fh, Fl.
Qed.

Lemma movePlayer_sound (lat lng : Q) (g : Game) :
  sound g -> exists g', movePlayer luck lat lng g = Returned tt g' /\ sound g'.
Proof.
  intros ((Hok & Hs & Hl & Hh & Hst & Hnk) & Hinv & Htr & Ht).
  unfold movePlayer, bind at 1, modify at 1, bind at 1, modify at 1, bind at 1,
    savePlayerLocation, modify at 1.
  fields.
  match goal with
  | |- exists g', updateCaches luck ?h g' = _ /\ _ => idtac
  | |- exists g', updateCaches luck ?h = _ /\ _ => apply (updateCaches_sound h)
  end.
  - split; [exact Hok |]. split; [exact Hs |]. split; [exact Hl |]. split; [exact Hh |].
    split; [| exact Hnk].
    unfold cachesStored. fields. rewrite get_set_other by discriminate. exact Hst.
  - unfold inventoryStored. fields. rewrite get_set_other by discriminate. exact Hinv.
  - left. fields. apply get_set_same.
  - eexists. fields. reflexivity.
Qed.

Lemma spawnCache_sound (cell : Cell.t) (g : Game) :
  sound g ->
  JsMap.get (cellToString cell) (cacheMarkers g) = None ->
  exists g', spawnCache luck cell g = Returned tt g' /\ sound g'.
Proof.
  intros (Hk & Hinv & Htr & Ht) Hnone.
  destruct (spawnCache_kept luck cell g Hk Hnone) as (g' & r & Hrun & Hk' & _).
  pose proof (spawnCache_frame luck cell g) as F. rewrite Hrun in F.
  cbn [finalState] in F. destruct F as (Fl & Fi & Fh & Fs).
  exists g'. split; [exact Hrun |]. split; [exact Hk' |]. split; [| split].
  - unfold inventoryStored. rewrite Fi, Fs by discriminate. exact Hinv.
  - unfold trailStored. rewrite Fh, Fs by discriminate. exact Htr.
  - unfold trailed. now rewrite Fh, Fl.
Qed.

(** The listener of a centre button, whether it returns or throws; it
    returns when the registry has the home cell of the coin. *)
Lemma centerClick_sound (coin : Coin.t) (g : Game) :
  sound g ->
  sound (finalState (centerClick luck coin g)) /\
  (hasEntry (Coin.cell coin) g -> exists g', centerClick luck coin g = Returned tt g').
Proof.
  intros Hg. unfold centerClick, bind, gets, hasEntry.
  destruct (JsMap.get (cellToString (Coin.cell coin)) (caches g)) as [m |] eqn:Eg;
    [| split; [exact Hg | intros H; now contradiction H]].
  destruct (proj1 (proj1 Hg) _ _ (get_In _ _ _ Eg)) as (c0 & -> & _).
  rewrite fromMomento_toMomento.
  set (h := setNextOid _ g).
  assert (Hh : sound h) by now apply sound_nextOid.
  destruct (JsMap.get (cellToString (Coin.cell coin)) (cacheMarkers h)) as [r |] eqn:Em.
  - split; [exact Hh | intros _; now eexists].
  - destruct (spawnCache_sound (Coin.cell coin) h Hh Em) as (g' & Hrun & Hg').
    rewrite Hrun. split; [exact Hg' | intros _; now eexists].
Qed.

Lemma removeAll_layers (l : list (string * Rectangle.t)) :
  forall h,
    (forall x, In x (mapLayers h) ->
       In (Rectangle.rid x) (map (fun e => Rectangle.rid (snd e)) l)) ->
    forEach l (fun e => modify (removeLayer (snd e))) h
    = Returned tt (setMapLayers [] h).
Proof.
  induction l as [| e l IH]; intros h Hin.
  - cbn. destruct h as [? ? ? ? ? layers ? ? ? ?]. cbn in *.
    destruct layers as [| x layers]; [reflexivity |].
    destruct (Hin x (or_introl eq_refl)).
  - cbn [forEach]. unfold bind at 1, modify at 1. rewrite IH; [reflexivity |].
    intros x Hx. unfold removeLayer in Hx. fields.
    apply filter_In in Hx as [Hx Hne].
    destruct (Hin x Hx) as [E | H]; [| exact H].
    apply negb_true_iff, Nat.eqb_neq in Hne. congruence.
Qed.

Lemma resetCaches_layered (g : Game) :
  layered g ->
  resetCaches g = Returned tt (setCacheMarkers [] (setMapLayers [] (setCaches [] g))).
Proof.
  intros (Hl & _). unfold resetCaches, bind at 1, modify at 1, bind at 1, gets at 1.
  unfold bind at 1. fields. rewrite removeAll_layers; [reflexivity |].
  intros x Hx. fields. rewrite Hl in Hx.
  apply in_map_iff in Hx as (e & <- & He).
  apply in_map_iff. now exists e.
Qed.

Lemma initGame_sound (g : Game) :
  localStorage g = [] -> layered g ->
  exists g', initGame luck g = Returned tt g' /\ sound g'.
Proof.
  intros Hs0 Hl.
  unfold initGame, loadDataFromLocalStorage.
  unfold bind at 1. unfold initializeUI at 1, bind at 1, modify at 1 2.
  unfold bind at 1. unfold resetPlayerState at 1, bind at 1, modify at 1 2.
  unfold bind at 1.
  rewrite resetCaches_layered by exact Hl.
  unfold bind at 1.
  rewrite loadLocalStorage_all_missing by (fields; rewrite Hs0; reflexivity).
  unfold bind at 1.
  match goal with
  | |- context [updateCaches luck ?s] => set (s0 := s)
  end.
  assert (Hks : kept s0).
  { split; [intros k m Hin; destruct Hin |].
    split; [split; [constructor | intros k r Hin; destruct Hin] |].
    split; [split; [reflexivity | split; constructor] |].
    split; [split; [intros coin Hin; destruct Hin | intros k c coin Hin; destruct Hin] |].
    split; [| constructor].
    unfold cachesStored, s0. fields. now rewrite Hs0. }
  destruct (updateCaches_kept luck s0 Hks) as (g1 & Hrun & Hk).
  pose proof (updateCaches_frame luck s0) as F. rewrite Hrun in F.
  cbn [finalState] in F. destruct F as (Fl & Fi & Fh & Fs).
  rewrite Hrun. eexists. split; [reflexivity |].
  split; [apply kept_storage; [exact Hk | now rewrite get_set_other by discriminate] |].
  split; [| split].
  - unfold inventoryStored. fields. apply get_set_same.
  - right. fields. rewrite get_set_other, Fs, Fh by discriminate.
    unfold s0. fields. now rewrite Hs0.
  - exists []. fields. rewrite Fh, Fl. reflexivity.
Qed.

Lemma resetClick_sound (confirmed : bool) (g : Game) :
  sound g -> exists g', resetClick luck confirmed g = Returned tt g' /\ sound g'.
Proof.
  intros Hg. unfold resetClick. destruct confirmed; cbn [negb]; [| now exists g].
  unfold bind at 1, modify. apply initGame_sound; [reflexivity |].
  apply Hg.
Qed.

(** Every listener keeps the state sound, whether it returns or throws,
    and it returns when its button is there. *)
Lemma perform_sound (e : Event) (g : Game) :
  sound g ->
  sound (finalState (perform luck e g)) /\
  (canPress e g -> exists g', perform luck e g = Returned tt g').
Proof.
  intros Hg.
  assert (Hdone : forall g', perform luck e g = Returned tt g' -> sound g' ->
            sound (finalState (perform luck e g)) /\
            (canPress e g -> exists g', perform luck e g = Returned tt g')).
  { intros g' Hrun Hg'. rewrite Hrun. split; [exact Hg' | intros _; now exists g']. }
  pose proof Hg as ((Hok & Hs & Hl & Hh & Hst & Hnk) & Hinv & Htr & Ht).
  destruct e as [lat lng | key n | key | coin | confirmed].
  - destruct (movePlayer_sound lat lng g Hg) as (g' & Hrun & Hg').
    now apply (Hdone g').
  - destruct (perform_returns luck (CollectAt key n) g Hok Hs eq_refl)
      as (g' & Hrun & Hok' & Hs' & _).
    apply (Hdone g'); [exact Hrun |].
    cbn [perform] in Hrun. unfold popupOf in Hrun.
    destruct (JsMap.get key (cacheMarkers g)) as [r |] eqn:Hk;
      [| injection Hrun as <-; exact Hg].
    destruct (nth_error (cacheObjs g) (Rectangle.popupCache r)) as [c |] eqn:Ha;
      [| injection Hrun as <-; exact Hg].
    destruct (nth_error (Cache.coins c) n) as [coin |] eqn:Hn;
      [| injection Hrun as <-; exact Hg].
    destruct (In_first coin (Cache.coins c) (nth_error_In _ _ Hn))
      as (pre & post & Hc & Hpre).
    destruct (collect_full coin _ c g pre post Ha Hc Hpre) as (g1 & Hrun1 & _ & Hreg & Hm).
    destruct (collect_present coin _ c g pre post Ha Hc Hpre) as (g2 & Hrun2 & _ & Hi & _).
    destruct (collect_rest coin _ c g Ha) as (g3 & Hrun3 & Ey & Er & El & Eh & Est).
    assert (g1 = g') by congruence. assert (g2 = g') by congruence.
    assert (g3 = g') by congruence. subst g1 g2 g3.
    destruct (proj2 Hs key r (get_In _ _ _ Hk)) as (c1 & Hc1 & Hk1 & Hr1).
    rewrite Ha in Hc1. injection Hc1 as <-. rewrite Hk1 in Hr1.
    apply (transfer_sound g g' c (Cache.mk (Cache.cell c) (pre ++ post))); trivial.
    + intros x Hx. left. rewrite Hc. cbn [Cache.coins] in Hx.
      apply in_app_or in Hx as [Hx | Hx]; apply in_or_app; [now left | right; now right].
    + intros x Hx. rewrite Hi in Hx.
      apply in_app_or in Hx as [Hx | [<- | []]]; [now right | left].
      rewrite Hc. apply in_or_app. right. now left.
  - destruct (perform_returns luck (DepositAt key) g Hok Hs eq_refl)
      as (g' & Hrun & Hok' & Hs' & _).
    apply (Hdone g'); [exact Hrun |].
    cbn [perform] in Hrun. unfold popupOf in Hrun.
    destruct (JsMap.get key (cacheMarkers g)) as [r |] eqn:Hk;
      [| injection Hrun as <-; exact Hg].
    destruct (nth_error (cacheObjs g) (Rectangle.popupCache r)) as [c |] eqn:Ha;
      [| injection Hrun as <-; exact Hg].
    destruct (deposit_full _ c g Ha) as (g1 & Hrun1 & _ & Hreg & Hm).
    destruct (deposit_returns _ c g Ha) as (g2 & Hrun2 & Hi & _).
    destruct (deposit_rest _ c g Ha) as (g3 & Hrun3 & Ey & Er & El & Eh & Est).
    assert (g1 = g') by congruence. assert (g2 = g') by congruence.
    assert (g3 = g') by congruence. subst g1 g2 g3.
    destruct (proj2 Hs key r (get_In _ _ _ Hk)) as (c1 & Hc1 & Hk1 & Hr1).
    rewrite Ha in Hc1. injection Hc1 as <-. rewrite Hk1 in Hr1.
    apply (transfer_sound g g' c
             (Cache.mk (Cache.cell c) (Cache.coins c ++ rev (playerInventory g)))); trivial.
    + intros x Hx. cbn [Cache.coins] in Hx.
      apply in_app_or in Hx as [Hx | Hx]; [now left | right; now apply in_rev].
    + intros x Hx. rewrite Hi in Hx. destruct Hx.
  - cbn [perform canPress].
    destruct (centerClick_sound coin g Hg) as [H1 H2].
    split; [exact H1 |]. intros Hin. apply H2. now apply (proj1 Hh).
  - destruct (resetClick_sound confirmed g Hg) as (g' & Hrun & Hg').
    now apply (Hdone g').
Qed.

Lemma moduleStart_opens :
  exists g', initGame luck (moduleStart []) = Returned tt g' /\ sound g'.
Proof.
  apply initGame_sound; [reflexivity |].
  split; [reflexivity | split; constructor].
Qed.

Lemma opened_sound : sound (opened luck).
Proof.
  unfold opened. destruct moduleStart_opens as (g' & -> & H). exact H.
Qed.

Lemma session_sound (es : list Event) :
  forall g, sound g -> sound (session luck es g).
Proof.
  unfold session. induction es as [| e es IH]; intros g Hg; [exact Hg |].
  cbn [fold_left]. apply IH. now apply perform_sound.
Qed.

Lemma playable_returns (es : list Event) :
  forall g, sound g -> playable luck es g ->
    forEach es (perform luck) g = Returned tt (session luck es g).
Proof.
  unfold session. induction es as [| e es IH]; intros g Hg Hp; [reflexivity |].
  destruct Hp as [Hc Hp].
  destruct (perform_sound e g Hg) as (Hg' & Hret).
  destruct (Hret Hc) as (g' & Hrun).
  cbn [forEach fold_left]. unfold bind. rewrite Hrun in *. cbn [finalState] in *.
  now apply IH.
Qed.

End Listeners.

(** ** Opening the page again *)

Section Reload.

Variable luck : string -> Q.

Lemma spawnAll_entries (cells : list Cell.t) :
  forall g, registryOk g ->
    exists g',
      forEach cells (spawnCache luck) g = Returned tt g' /\
      forall k m, JsMap.get k (caches g) = Some m -> JsMap.get k (caches g') = Some m.
Proof.
  induction cells as [| x cells IH]; intros g Hok; [now exists g |].
  cbn [forEach]. unfold bind.
  destruct (spawnCache_ok luck x g Hok) as (g1 & c1 & -> & Hok1 & _ & _ & _ & Hp & _).
  destruct (IH g1 Hok1) as (g' & Hrun & Hp').
  exists g'. split; [exact Hrun |]. intros k m Hk. now apply Hp', Hp.
Qed.

Lemma updateCaches_entries (g : Game) :
  registryOk g ->
  exists g',
    updateCaches luck g = Returned tt g' /\
    forall k m, JsMap.get k (caches g) = Some m -> JsMap.get k (caches g') = Some m.
Proof.
  intros Hok. rewrite updateCaches_eq.
  destruct (afterDespawn_rest g) as (Dc & _).
  destruct (spawnAll_entries (newCellsOf luck (afterDespawn g)) (afterDespawn g))
    as (g' & Hrun & Hp); [now apply (registryOk_same g) |].
  exists g'. split; [exact Hrun |]. intros k m Hk. apply Hp. now rewrite Dc.
Qed.

(** The registry and the inventory after the page is opened again on
    the storage of a sound state. *)
Lemma reload_sound (g : Game) :
  sound g ->
  trailReads (localStorage g) ->
  exists g',
    initGame luck (moduleStart (localStorage g)) = Returned tt g' /\
    (forall k m, JsMap.get k (caches g) = Some m -> JsMap.get k (caches g') = Some m) /\
    map Coin.fields (playerInventory g') = map Coin.fields (playerInventory g).
Proof.
  intros ((Hok & Hs & Hl & Hh & Hst & Hnk) & Hinv & Htr & Ht) Hreads.
  unfold initGame, loadDataFromLocalStorage.
  unfold bind at 1. unfold initializeUI at 1, bind at 1, modify at 1 2.
  unfold bind at 1. unfold resetPlayerState at 1, bind at 1, modify at 1 2.
  unfold bind at 1.
  rewrite resetCaches_layered by (split; [reflexivity | split; constructor]).
  unfold bind at 1.
  match goal with
  | |- context [loadLocalStorage ?s] => set (s0 := s)
  end.
  (* the caches record *)
  assert (H1 : loadCachesRecord s0 = Returned tt (setCaches (caches g) s0)).
  { unfold cachesStored in Hst. destruct (caches g) as [| e registry] eqn:Ec.
    - rewrite loadCachesRecord_missing; [reflexivity |].
      unfold s0, moduleStart. fields. now rewrite Hst.
    - rewrite (loadCachesRecord_saved (e :: registry)) by (unfold s0, moduleStart; fields; exact Hst).
      f_equal. f_equal. unfold s0, moduleStart. fields.
      apply (setAll_distinct (e :: registry) []). exact Hnk. }
  set (s1 := setCaches (caches g) s0) in H1.
  (* the inventory record *)
  assert (H2 : loadInventoryRecord s1
               = Returned tt
                   (setPlayerInventory (freshCopies (nextOid s1) (playerInventory g))
                      (setNextOid (nextOid s1 + List.length (playerInventory g)) s1))).
  { rewrite (loadInventoryRecord_saved (playerInventory g))
      by (unfold s1, s0, moduleStart; fields; exact Hinv).
    reflexivity. }
  set (s2 := setPlayerInventory _ _) in H2.
  (* the playerLocation record *)
  destruct (Hreads s2 eq_refl) as (s3 & H3).
  destruct (loadPlayerLocationRecord_frame s2) as (p & hs & F3).
  rewrite H3 in F3. cbn [finalState] in F3.
  unfold loadLocalStorage, bind at 1. rewrite H1.
  unfold bind at 1. rewrite H2, H3. subst s3.
  set (s3 := setPlayerLocation p (setPlayerMovementHistory hs s2)).
  assert (Hk3 : kept s3).
  { split; [now apply (registryOk_same g) |].
    split; [split; [constructor | intros k r Hin; destruct Hin] |].
    split; [split; [reflexivity | split; constructor] |].
    split; [| split; [exact Hst | exact Hnk]].
    split.
    - intros coin Hin. unfold s3, s2 in Hin. fields.
      destruct (fields_In coin _ (playerInventory g) (freshCopies_fields _ _) Hin)
        as (coin' & Hin' & <-).
      now apply (proj1 Hh).
    - exact (proj2 Hh). }
  destruct (updateCaches_kept luck s3 Hk3) as (g1 & Hrun & Hk1).
  destruct (updateCaches_entries s3 (proj1 Hk3)) as (g1' & Hrun' & Hp).
  assert (g1' = g1) by congruence. subst g1'.
  pose proof (updateCaches_frame luck s3) as F. rewrite Hrun in F.
  cbn [finalState] in F. destruct F as (_ & Fi & _).
  unfold bind at 1. rewrite Hrun.
  eexists. split; [reflexivity |]. split.
  - intros k m Hk. fields. now apply Hp.
  - fields. rewrite Fi. unfold s3, s2. fields. apply freshCopies_fields.
Qed.


End Reload.

(** ** A game opened on empty storage *)

(** Property X13.  In a game opened on empty storage, whatever the player
    has done since, the rectangles on the map are the rectangles of the
    markers, one for one and in the order of the marker registry, and no two
    markers have the same key: [updateCaches], [resetCaches] and the centre
    button leave no rectangle behind and draw none twice. *)
Theorem session_map_shows_markers (luck : string -> Q) (es : list Event) :
  let g := session luck es (opened luck) in
  mapLayers g = map snd (cacheMarkers g) /\
  NoDup (JsMap.keys (cacheMarkers g)) /\
  NoDup (map Rectangle.rid (mapLayers g)).
Proof.
  intros g.
  destruct (session_sound luck es (opened luck) (opened_sound luck))
    as ((_ & Hs & Hl & _) & _).
  split; [apply Hl |]. split; [apply Hs | apply Hl].
Qed.

(** Property X14.  In a game opened on empty storage, whatever the player
    has done since, the popup of every marker shows a cache object of the
    cell the marker stands for, and the registry entry of that cell is the
    memento of that very object; every entry of the registry is a memento of
    a cache of the cell its key names. *)
Theorem session_popups_show_registry (luck : string -> Q) (es : list Event) :
  let g := session luck es (opened luck) in
  Forall (fun e =>
            exists c,
              nth_error (cacheObjs g) (Rectangle.popupCache (snd e)) = Some c /\
              fst e = cellToString (Cache.cell c) /\
              JsMap.get (fst e) (caches g) = Some (toMomento c))
    (cacheMarkers g) /\
  Forall (fun e =>
            exists c, snd e = toMomento c /\ fst e = cellToString (Cache.cell c))
    (caches g).
Proof.
  intros g.
  destruct (session_sound luck es (opened luck) (opened_sound luck))
    as ((Hok & Hs & _) & _).
  split; apply Forall_forall; intros [k x] Hin; cbn [fst snd].
  - now apply (proj2 Hs).
  - now apply Hok.
Qed.

(** Property X15.  In a game opened on empty storage, whatever the player
    has done since, local storage holds the state: the [inventory] record is
    the inventory as [saveInventory] prints it, the [caches] record is the
    registry as [saveCaches] prints it (there is none while the registry is
    empty), and the [playerLocation] record is the movement history as
    [savePlayerLocation] prints it (there is none before the first move). *)
Theorem session_storage_holds_state (luck : string -> Q) (es : list Event) :
  let g := session luck es (opened luck) in
  inventoryStored g /\ cachesStored g /\ trailStored g.
Proof.
  intros g.
  destruct (session_sound luck es (opened luck) (opened_sound luck))
    as ((_ & _ & _ & _ & Hst & _) & Hinv & Htr & _).
  now repeat split.
Qed.

(** Property X16.  In a game opened on empty storage, whatever the player
    has done since, the movement history is not empty and its last point is
    the player's location. *)
Theorem session_trail_ends_at_player (luck : string -> Q) (es : list Event) :
  let g := session luck es (opened luck) in
  exists before, playerMovementHistory g = before ++ [playerLocation g].
Proof.
  intros g.
  destruct (session_sound luck es (opened luck) (opened_sound luck))
    as (_ & _ & _ & Ht).
  exact Ht.
Qed.

(** Property X17.  A game opened on empty storage never throws: [initGame]
    returns, and so does every listener the player can reach, the direction
    buttons, the collect and deposit buttons of the popups, the reset
    button, and the centre button of a coin in the inventory. *)
Theorem play_never_throws (luck : string -> Q) (es : list Event) :
  playable luck es (opened luck) ->
  initGame luck (moduleStart []) = Returned tt (opened luck) /\
  forEach es (perform luck) (opened luck)
  = Returned tt (session luck es (opened luck)).
Proof.
  intros Hp. split.
  - unfold opened. now destruct (moduleStart_opens luck) as (g' & -> & _).
  - apply playable_returns; [apply opened_sound | exact Hp].
Qed.

Lemma play_never_throws_witness :
  initGame luckHome (moduleStart []) = Returned tt (opened luckHome) /\
  forEach [CollectAt "369894,-1220628" 0; CenterOn (Coin.mk 0 homeCell 0)]
    (perform luckHome) (opened luckHome)
  = Returned tt
      (session luckHome
         [CollectAt "369894,-1220628" 0; CenterOn (Coin.mk 0 homeCell 0)]
         (opened luckHome)).
Proof.
  apply (play_never_throws luckHome
           [CollectAt "369894,-1220628" 0; CenterOn (Coin.mk 0 homeCell 0)]).
  cbn [playable canPress]. split; [exact I |]. split; [| exact I].
  vm_compute. left. reflexivity.
Defined.

(** The total of coins over a run of collect and deposit buttons, in a
    game opened on empty storage. *)
Lemma play_conserves_witness :
  totalCoins
    (session luckHome [CollectAt "369894,-1220628" 0; DepositAt "369894,-1220628"]
       (session luckHome [] (finalState (initGame luckHome (moduleStart [])))))
  = totalCoins (session luckHome [] (finalState (initGame luckHome (moduleStart [])))).
Proof.
  apply (play_conserves luckHome (moduleStart []) []
           [CollectAt "369894,-1220628" 0; DepositAt "369894,-1220628"]).
  - reflexivity.
  - reflexivity.
Defined.

(** Property X19.  Opening the page again on the storage a game has left:
    when the [playerLocation] record reads back, [initGame] returns, every
    entry of the registry is there again with the memento it had, and the
    inventory holds coins with the same cells and serials in the same order. *)
Theorem reload_restores (luck : string -> Q) (es : list Event) :
  let g := session luck es (opened luck) in
  trailReads (localStorage g) ->
  exists g',
    initGame luck (moduleStart (localStorage g)) = Returned tt g' /\
    (forall k m, JsMap.get k (caches g) = Some m -> JsMap.get k (caches g') = Some m) /\
    map Coin.fields (playerInventory g') = map Coin.fields (playerInventory g).
Proof.
  intros g Hreads. apply reload_sound; [| exact Hreads].
  apply session_sound, opened_sound.
Qed.

Lemma reload_restores_witness :
  exists g',
    initGame luckHome
      (moduleStart
         (localStorage (session luckHome [CollectAt "369894,-1220628" 0] (opened luckHome))))
    = Returned tt g' /\
    (forall k m,
       JsMap.get k
         (caches (session luckHome [CollectAt "369894,-1220628" 0] (opened luckHome)))
       = Some m ->
       JsMap.get k (caches g') = Some m) /\
    map Coin.fields (playerInventory g')
    = map Coin.fields
        (playerInventory
           (session luckHome [CollectAt "369894,-1220628" 0] (opened luckHome))).
Proof.
  apply (reload_restores luckHome [CollectAt "369894,-1220628" 0]).
  intros h Hh. exists h. apply loadPlayerLocationRecord_missing.
  rewrite Hh. vm_compute. reflexivity.
Defined.



(** ** Labels, [resetCaches] and [movePlayer] *)

Section Labels.

Lemma stringOfZ_cut (a b : Z) (ra rb : string) :
  endsNumber ra = true -> endsNumber rb = true ->
  (stringOfZ a ++ ra = stringOfZ b ++ rb)%string -> a = b /\ ra = rb.
Proof.
  intros Ha Hb E.
  pose proof (parseNumber_stringOfZ a ra Ha) as Pa.
  pose proof (parseNumber_stringOfZ b rb Hb) as Pb.
  rewrite E, Pb in Pa.
  assert (H : (inject_Z b, rb) = (inject_Z a, ra)) by congruence.
  pose proof (f_equal fst H) as H1. pose proof (f_equal snd H) as H2.
  cbn [fst snd] in H1, H2. unfold inject_Z in H1. injection H1 as ->.
  now split.
Qed.

Lemma coinLabel_fields (a b : Coin.t) :
  coinLabel a = coinLabel b -> Coin.fields a = Coin.fields b.
Proof.
  destruct a as [oa [ai aj] sa], b as [ob [bi bj] sb].
  unfold coinLabel, Coin.fields. cbn [Coin.cell Coin.serial Cell.i Cell.j].
  intros E.
  apply stringOfZ_cut in E as [-> E]; [| reflexivity | reflexivity].
  cbn [append] in E. injection E as E.
  apply stringOfZ_cut in E as [-> E]; [| reflexivity | reflexivity].
  cbn [append] in E. injection E as E.
  destruct (stringOfZ_cut sa sb EmptyString EmptyString eq_refl eq_refl) as [-> _];
    [now rewrite !append_nil_r | reflexivity].
Qed.

End Labels.

(** Property X21.  Two coins have the same label in the popups and in the
    status panel exactly when they have the same cell and the same serial. *)
Theorem coinLabel_same_label (a b : Coin.t) :
  coinLabel a = coinLabel b <-> Coin.fields a = Coin.fields b.
Proof.
  split; [apply coinLabel_fields |].
  destruct a as [oa ca sa], b as [ob cb sb]. unfold Coin.fields, coinLabel.
  cbn [Coin.cell Coin.serial]. now intros [= -> ->].
Qed.

Section ResetCaches.

(** Two passes of [filter] are one pass with both tests. *)
Lemma filter_twice {A : Type} (keep1 keep2 : A -> bool) (xs : list A) :
  filter (fun x => keep1 x && keep2 x) xs = filter keep2 (filter keep1 xs).
Proof.
  induction xs as [| x xs IH]; [reflexivity |].
  cbn [filter]. destruct (keep1 x); cbn [andb filter]; now rewrite IH.
Qed.

Lemma removeAll_filter (l : list (string * Rectangle.t)) :
  forall h,
    forEach l (fun e => modify (removeLayer (snd e))) h
    = Returned tt
        (setMapLayers (filter (fun r => negb (isMarker l r)) (mapLayers h)) h).
Proof.
  induction l as [| e l IH]; intros h.
  - cbn [forEach isMarker existsb negb]. unfold ret.
    rewrite filter_all by reflexivity. now destruct h.
  - cbn [forEach]. unfold bind at 1, modify at 1. rewrite IH.
    unfold removeLayer, setMapLayers. fields. rewrite <- filter_twice.
    do 2 f_equal. apply filter_ext. intros r.
    unfold isMarker. cbn [existsb]. now rewrite negb_orb.
Qed.

End ResetCaches.

(** Property X22.  [resetCaches] empties the registry and the marker
    registry and takes from the map the rectangles of the markers, those and
    no others: a rectangle on the map that is no marker's stays there. *)
Theorem resetCaches_clears (g : Game) :
  exists g',
    resetCaches g = Returned tt g' /\
    caches g' = [] /\
    cacheMarkers g' = [] /\
    mapLayers g' = filter (fun r => negb (isMarker (cacheMarkers g) r)) (mapLayers g) /\
    playerInventory g' = playerInventory g /\
    localStorage g' = localStorage g.
Proof.
  unfold resetCaches, bind at 1, modify at 1, bind at 1, gets at 1.
  unfold bind at 1. fields. rewrite removeAll_filter.
  eexists. split; [reflexivity |]. repeat split.
Qed.

(** Property X23.  [movePlayer] on a registry of mementos returns; the
    player is at the new position, which is the one point added to the
    movement history, the inventory is what it was, and every entry of the
    registry is there with the memento it had. *)
Theorem movePlayer_keeps_coins (luck : string -> Q) (lat lng : Q) (g : Game) :
  registryOk g ->
  exists g',
    movePlayer luck lat lng g = Returned tt g' /\
    playerLocation g' = LatLng.mk lat lng /\
    playerMovementHistory g' = playerMovementHistory g ++ [LatLng.mk lat lng] /\
    playerInventory g' = playerInventory g /\
    forall k m, JsMap.get k (caches g) = Some m -> JsMap.get k (caches g') = Some m.
Proof.
  intros Hok.
  unfold movePlayer, bind at 1, modify at 1, bind at 1, modify at 1, bind at 1,
    savePlayerLocation, modify at 1.
  fields.
  match goal with
  | |- context [updateCaches luck ?h] => set (h0 := h)
  end.
  destruct (updateCaches_entries luck h0) as (g' & Hrun & Hp);
    [now apply (registryOk_same g) |].
  pose proof (updateCaches_frame luck h0) as F. rewrite Hrun in F.
  cbn [finalState] in F. destruct F as (Fl & Fi & Fh & _).
  exists g'. split; [exact Hrun |].
  split; [now rewrite Fl |]. split; [now rewrite Fh |]. split; [now rewrite Fi |].
  exact Hp.
Qed.

Lemma movePlayer_keeps_coins_witness :
  exists g',
    movePlayer luckHome 40 (-122) startedGame = Returned tt g' /\
    playerLocation g' = LatLng.mk 40 (-122) /\
    playerMovementHistory g' = playerMovementHistory startedGame ++ [LatLng.mk 40 (-122)] /\
    playerInventory g' = playerInventory startedGame /\
    forall k m,
      JsMap.get k (caches startedGame) = Some m -> JsMap.get k (caches g') = Some m.
Proof.
  apply (movePlayer_keeps_coins luckHome 40 (-122) startedGame).
  intros k m [[= <- <-] | []].
  exists (Cache.mk homeCell [Coin.mk 0 homeCell 0; Coin.mk 1 homeCell 1]).
  split; reflexivity.
Defined.
